(** * puncc calibration engine: a shallow embedding of
      [deel/puncc/api/calibration2.py]

    The development follows the layout of the Python module:
    nonconformity scores, prediction-set constructors, [BaseCalibrator]
    and [CvPlusCalibrator].

    Numeric model.  Array entries are exact rationals ([Q]); equalities
    between computed values are stated with [==] ([Qeq]).  The one place
    where binary64 rounding is looked at is [CONSTANT_INTERVAL], which is
    therefore written once over an arithmetic interface and instantiated
    both at [Q] and at the primitive binary64 floats.  A float division
    returns a value with infinities ([ext]).  Identities that hold in
    exact arithmetic only (a width, a score against a threshold) are
    stated where they also survive rounding, or are marked as exact.

    Exceptions are values: every operation that can raise returns a
    [result]. *)

From Stdlib Require Import QArith Qabs Qminmax Qround ZArith List Bool Lia Lqa
  PeanoNat Permutation Sorted.
From Corelib Require Import PrimFloat.
Import ListNotations.

Set Implicit Arguments.
Local Open Scope Q_scope.

(* ================================================================= *)
(** ** Exceptions and results *)

Inductive error : Type :=
| RuntimeError        (* raise RuntimeError(...) *)
| ValueError          (* numpy broadcasting failure, bad quantile level,
                         check_alpha_calib *)
| IndexError          (* index out of range, tuple index out of range *)
| KeyError            (* missing dictionary key *)
| TypeError           (* len(None) and the like *)
| AttributeError      (* attribute of None *)
| NotImplementedError.

Inductive result (A : Type) : Type :=
| Ok  (a : A)
| Err (e : error).
Arguments Ok {A} a.
Arguments Err {A} e.

Definition bind {A B} (r : result A) (k : A -> result B) : result B :=
  match r with
  | Ok a => k a
  | Err e => Err e
  end.

Notation "x <- c ;; k" := (bind c (fun x => k))
  (at level 61, c at next level, right associativity).

Definition of_option {A} (e : error) (o : option A) : result A :=
  match o with
  | Some a => Ok a
  | None => Err e
  end.

(** [mapM f l]: run [f] on every element, left to right, stopping at the
    first exception (a Python list comprehension or [for] loop). *)
Fixpoint mapM {A B} (f : A -> result B) (l : list A) : result (list B) :=
  match l with
  | [] => Ok []
  | a :: l' => b <- f a ;; bs <- mapM f l' ;; Ok (b :: bs)
  end.

(* ================================================================= *)
(** ** The numeric-array contract *)

(** Elementwise arithmetic used by the interval constructors. *)
Class Arith (A : Type) : Type := {
  add : A -> A -> A;
  sub : A -> A -> A
}.

#[export] Instance Arith_Q : Arith Q := {| add := Qplus; sub := Qminus |}.

#[export] Instance Arith_binary64 : Arith float :=
  {| add := PrimFloat.add; sub := PrimFloat.sub |}.

(** An ndarray of at most two dimensions.  [Arr2 c rows] is a matrix of
    shape [(length rows, c)]: the column count is kept apart so that a
    matrix without rows still has a shape. *)
Inductive ndarray (A : Type) : Type :=
| Arr0 (x : A)
| Arr1 (v : list A)
| Arr2 (ncols : nat) (rows : list (list A)).

(** Every row of a matrix has [ncols] entries. *)
Definition wf_ndarray {A} (a : ndarray A) : Prop :=
  match a with
  | Arr2 c rows => Forall (fun r => length r = c) rows
  | _ => True
  end.

(** [len(a.shape)] *)
Definition ndim {A} (a : ndarray A) : nat :=
  match a with
  | Arr0 _ => 0
  | Arr1 _ => 1
  | Arr2 _ _ => 2
  end.

(** [a.shape] *)
Definition shape {A} (a : ndarray A) : list nat :=
  match a with
  | Arr0 _ => []
  | Arr1 v => [length v]
  | Arr2 c rows => [length rows; c]
  end.

(** [a.shape[j]]: a tuple index out of range raises [IndexError]. *)
Definition shape_at {A} (a : ndarray A) (j : nat) : result nat :=
  of_option IndexError (nth_error (shape a) j).

(** Row-major list of the entries. *)
Definition nd_flat {A} (a : ndarray A) : list A :=
  match a with
  | Arr0 x => [x]
  | Arr1 v => v
  | Arr2 _ rows => concat rows
  end.

Definition nd_map {A B} (f : A -> B) (a : ndarray A) : ndarray B :=
  match a with
  | Arr0 x => Arr0 (f x)
  | Arr1 v => Arr1 (map f v)
  | Arr2 c rows => Arr2 c (map (map f) rows)
  end.

Fixpoint map2 {A B C} (f : A -> B -> C) (u : list A) (v : list B) : list C :=
  match u, v with
  | a :: u', b :: v' => f a b :: map2 f u' v'
  | _, _ => []
  end.

(** numpy broadcasting of two extents along one axis: equal extents
    stay, an extent of one is stretched to the other, anything else
    raises [ValueError]. *)
Definition bc_dim (n m : nat) : result nat :=
  if (n =? m)%nat then Ok n
  else if (n =? 1)%nat then Ok m
  else if (m =? 1)%nat then Ok n
  else Err ValueError.

(** A one-element axis repeated to extent [n]; other axes are left. *)
Definition stretch {A} (n : nat) (l : list A) : list A :=
  match l with
  | [x] => repeat x n
  | _ => l
  end.

Definition bc_vec {A B C} (f : A -> B -> C) (u : list A) (v : list B)
  : result (list C) :=
  n <- bc_dim (length u) (length v) ;;
  Ok (map2 f (stretch n u) (stretch n v)).

Definition bc_mat {A B C} (f : A -> B -> C)
    (c1 : nat) (m1 : list (list A)) (c2 : nat) (m2 : list (list B))
  : result (ndarray C) :=
  r <- bc_dim (length m1) (length m2) ;;
  c <- bc_dim c1 c2 ;;
  Ok (Arr2 c (map2 (fun a b => map2 f (stretch c a) (stretch c b))
                   (stretch r m1) (stretch r m2))).

(** [a (op) b] on ndarrays, shapes aligned on the right: a vector
    meets a matrix as a single row. *)
Definition nd_map2 {A B C} (f : A -> B -> C) (a : ndarray A) (b : ndarray B)
  : result (ndarray C) :=
  match a, b with
  | Arr0 x, _ => Ok (nd_map (f x) b)
  | _, Arr0 y => Ok (nd_map (fun t => f t y) a)
  | Arr1 u, Arr1 v => r <- bc_vec f u v ;; Ok (Arr1 r)
  | Arr1 u, Arr2 c m => bc_mat f (length u) [u] c m
  | Arr2 c m, Arr1 v => bc_mat f c m (length v) [v]
  | Arr2 c1 m1, Arr2 c2 m2 => bc_mat f c1 m1 c2 m2
  end.

(** [np.reshape(v, (len(v), 1))] and [np.reshape(v, (1, len(v)))] *)
Definition as_column {A} (v : list A) : ndarray A :=
  Arr2 1 (map (fun x => [x]) v).
Definition as_row {A} (v : list A) : ndarray A :=
  Arr2 (length v) [v].

(** [Y[:, j]] of a matrix; a vector or scalar has no second axis. *)
Definition column (j : nat) (Y : ndarray Q) : result (ndarray Q) :=
  match Y with
  | Arr2 _ rows => Ok (Arr1 (map (fun r => nth j r 0) rows))
  | _ => Err IndexError
  end.

(** [np.concatenate([a, b], axis=1)] *)
Definition np_concatenate_axis1 {A} (a b : ndarray A) : result (ndarray A) :=
  match a, b with
  | Arr2 c1 m1, Arr2 c2 m2 =>
      if (length m1 =? length m2)%nat
      then Ok (Arr2 (c1 + c2) (map2 (@app A) m1 m2))
      else Err ValueError
  | _, _ => Err ValueError
  end.

(* ================================================================= *)
(** ** Sorting, ranking, cumulative sums *)

Section Sorting.
Context {A : Type} (leb : A -> A -> bool).

(** Insertion keeps [x] in front of the first element it does not
    exceed, so elements that compare equal keep their input order. *)
Fixpoint insert_by (x : A) (l : list A) : list A :=
  match l with
  | [] => [x]
  | y :: l' => if leb x y then x :: l else y :: insert_by x l'
  end.

Definition sort_by (l : list A) : list A := fold_right insert_by [] l.

End Sorting.

(** [np.sort(a)] on one row (ascending). *)
Definition np_sort (l : list Q) : list Q := sort_by Qle_bool l.

(** [np.argsort(a)] on one row: a permutation of the indices of [a]
    that puts the values in ascending order.  The source calls it with
    the default kind, which is not stable: where values are equal, the
    order numpy returns is not specified.  The model takes the one that
    keeps index order; what is proved about the code below either does
    not depend on the order among equal values or is stated for values
    that are distinct. *)
Definition np_argsort (l : list Q) : list nat :=
  map snd (sort_by (fun p q : Q * nat => Qle_bool (fst p) (fst q))
                   (combine l (seq 0 (length l)))).

(** [a.cumsum()] on one row. *)
Fixpoint cumsum_from (acc : Q) (l : list Q) : list Q :=
  match l with
  | [] => []
  | x :: l' => (acc + x) :: cumsum_from (acc + x) l'
  end.

Definition cumsum (l : list Q) : list Q :=
  match l with
  | [] => []
  | x :: l' => x :: cumsum_from x l'
  end.

Fixpoint Qsum (l : list Q) : Q :=
  match l with
  | [] => 0
  | x :: l' => x + Qsum l'
  end.

(** [np.where(row == y)[0]]: positions holding [y], and its first
    entry, which raises [IndexError] when there is none. *)
Fixpoint find_index {A} (p : A -> bool) (l : list A) : option nat :=
  match l with
  | [] => None
  | a :: l' => if p a then Some 0%nat else option_map S (find_index p l')
  end.

(** [a[i]] for a Python integer [i]: a negative index counts from the
    end, anything outside [-len, len) raises [IndexError]. *)
Definition np_index {A} (l : list A) (i : Z) : result A :=
  let n := Z.of_nat (length l) in
  if (0 <=? i)%Z then of_option IndexError (nth_error l (Z.to_nat i))
  else if (- n <=? i)%Z then of_option IndexError (nth_error l (Z.to_nat (n + i)))
  else Err IndexError.

(** [range(n)] with the element next to each index. *)
Definition enumerate {A} (l : list A) : list (nat * A) :=
  combine (seq 0 (length l)) l.

(* ================================================================= *)
(** ** Values with infinities *)

(** The result of a float division, and the residuals augmented with
    [np.inf]. *)
Inductive ext : Type :=
| Fin (q : Q)
| PInf
| NInf
| NaN.

Definition Qlt_bool (a b : Q) : bool := negb (Qle_bool b a).

(** [a / b] on floats: a zero divisor gives an infinity of the sign of
    [a], or NaN for [0 / 0]. *)
Definition np_div (a b : Q) : ext :=
  if Qeq_bool b 0
  then (if Qlt_bool 0 a then PInf else if Qlt_bool a 0 then NInf else NaN)
  else Fin (a / b).

(** [v <= u] for a finite [u]; comparisons with NaN are false. *)
Definition ext_leb (v : ext) (u : Q) : bool :=
  match v with
  | Fin q => Qle_bool q u
  | NInf => true
  | PInf | NaN => false
  end.

(** The order numpy sorts by: NaN last. *)
Definition ext_le_bool (a b : ext) : bool :=
  match a, b with
  | _, NaN => true
  | NaN, _ => false
  | NInf, _ => true
  | _, PInf => true
  | Fin x, Fin y => Qle_bool x y
  | _, _ => false
  end.

(* ================================================================= *)
(** ** Quantiles *)

(** [np.quantile(row, q, method="inverted_cdf")] on one row of [n]
    values: numpy takes the virtual index [n * q - 1], rounds it up to
    an integer, clips it at [0], and returns the order statistic at that
    index.  A level outside [0, 1] raises [ValueError], before the data
    is looked at; a row without values raises [IndexError].
    The level and the index are exact rationals here; the code computes
    [1 - alpha] and [n * q] in binary64, which agrees with the exact
    value except where rounding moves [1 - alpha] onto [1/2] or [1], or
    [n * q] onto an integer. *)
Definition inverted_cdf_index (n : nat) (q : Q) : nat :=
  Z.to_nat (Z.max (Qceiling (inject_Z (Z.of_nat n) * q) - 1) 0).

Definition np_quantile_by {A} (leb : A -> A -> bool) (row : list A) (q : Q)
  : result A :=
  if negb (Qle_bool 0 q && Qle_bool q 1) then Err ValueError
  else of_option IndexError
         (nth_error (sort_by leb row) (inverted_cdf_index (length row) q)).

Definition np_quantile (row : list Q) (q : Q) : result Q :=
  np_quantile_by Qle_bool row q.

(** [np.quantile(M, q, axis=1, method="inverted_cdf")]: the level is
    validated first, then every row is reduced. *)
Definition np_quantile_axis1 (M : ndarray Q) (q : Q) : result (list Q) :=
  match M with
  | Arr2 _ rows =>
      if negb (Qle_bool 0 q && Qle_bool q 1) then Err ValueError
      else mapM (fun r => np_quantile r q) rows
  | _ => Err ValueError
  end.

(* ================================================================= *)
(** ** Nonconformity scores *)

Definition get {A} (l : list A) (i : nat) : result A :=
  of_option IndexError (nth_error l i).

(** Classes of one example by descending probability:
    [np.argsort(-Y_pred, axis=1)], [-np.sort(-Y_pred, axis=1)] and
    [sorted_proba.cumsum(axis=1)], row by row. *)
Definition class_ranking (row : list Q) : list nat :=
  np_argsort (map Qopp row).

Definition sorted_proba (row : list Q) : list Q :=
  map Qopp (np_sort (map Qopp row)).

Definition sorted_cum_mass (row : list Q) : list Q :=
  cumsum (sorted_proba row).

Module NonConformityScores.

Section Classification.
(** [RAPS_SCORE(lambd, k_reg)] returns the closure [_RAPS_SCORE]; the
    draws [rand = np.random.uniform(size=len(y_true))] are an argument. *)
Variables (lambd : Q) (k_reg : Z).
Variable rand : nat -> Q.

(** The score of example [i] with true class [y]:
<<
    L[i] = np.where(class_ranking[i] == y_true[i])[0][0]
    E[i] = sorted_cum_mass[i, L[i]]
    E[i] = E[i] + (rand[i] - 1) * sorted_proba[i, L[i]]
                + lambd * np.maximum((L[i] - k_reg + 1), 0)
>> *)
Definition raps_rank (row : list Q) (y : nat) : result nat :=
  of_option IndexError (find_index (Nat.eqb y) (class_ranking row)).

Definition raps_score_at (rows : list (list Q)) (i y : nat) : result Q :=
  row <- get rows i ;;
  L <- raps_rank row y ;;
  E <- get (sorted_cum_mass row) L ;;
  p <- get (sorted_proba row) L ;;
  Ok (E + (rand i - 1) * p
        + lambd * inject_Z (Z.max (Z.of_nat L - k_reg + 1) 0)).

(** The source builds the lists [L] and [E] for all examples in turn;
    the entries of different examples do not depend on each other and
    every failure is an [IndexError], so the examples are scored one
    by one. *)
Definition RAPS_SCORE (Y_pred : ndarray Q) (y_true : list nat)
  : result (list Q) :=
  match Y_pred with
  | Arr2 _ rows =>
      mapM (fun iy => raps_score_at rows (fst iy) (snd iy)) (enumerate y_true)
  | _ => Err ValueError   (* axis 1 is out of bounds *)
  end.

End Classification.

Section Regression.
(** [EPSILON] of [deel.puncc.api.utils], whose value is not part of the
    sources. *)
Variable EPSILON : Q.

(** [MAD]: [np.absolute(y_pred - y_true)] *)
Definition MAD (y_pred y_true : ndarray Q) : result (ndarray Q) :=
  diff <- nd_map2 Qminus y_pred y_true ;;
  Ok (nd_map Qabs diff).

(** The two shape checks shared by [SCALED_MAD] and [CQR_SCORE]:
<<
    if Y_pred.shape[1] != 2: raise RuntimeError(...)
    if len(y_true.shape) != 1: raise RuntimeError(...)
>> *)
Definition check_pair_shapes (Y_pred y_true : ndarray Q) : result unit :=
  c <- shape_at Y_pred 1 ;;
  if negb (c =? 2)%nat then Err RuntimeError
  else if negb (ndim y_true =? 1)%nat then Err RuntimeError
  else Ok tt.


(** [CQR_SCORE]: [np.maximum(q_lo - y_true, y_true - q_hi)] *)
Definition CQR_SCORE (Y_pred y_true : ndarray Q) : result (ndarray Q) :=
  _ <- check_pair_shapes Y_pred y_true ;;
  q_lo <- column 0 Y_pred ;;
  q_hi <- column 1 Y_pred ;;
  diff_lo <- nd_map2 Qminus q_lo y_true ;;
  diff_hi <- nd_map2 Qminus y_true q_hi ;;
  nd_map2 Qmax diff_lo diff_hi.

End Regression.

End NonConformityScores.

(* ================================================================= *)
(** ** Prediction-set constructors *)

Module PredictionSets.

(** [PredictionSets.Regression.CONSTANT_INTERVAL]
<<
    supported_types_check(y_pred)
    y_lo = y_pred - scores_quantiles
    y_hi = y_pred + scores_quantiles
    return y_lo, y_hi
>>
    The argument is an ndarray by its type, so [supported_types_check]
    has nothing to reject. *)
Definition CONSTANT_INTERVAL {A} `{Arith A}
    (y_pred scores_quantiles : ndarray A) : result (ndarray A * ndarray A) :=
  y_lo <- nd_map2 sub y_pred scores_quantiles ;;
  y_hi <- nd_map2 add y_pred scores_quantiles ;;
  Ok (y_lo, y_hi).

(** The shape check of [SCALED_INTERVAL] and [CQR_INTERVAL]. *)
Definition check_two_columns (Y_pred : ndarray Q) : result unit :=
  c <- shape_at Y_pred 1 ;;
  if negb (c =? 2)%nat then Err RuntimeError else Ok tt.

(** [SCALED_INTERVAL]:
    [(y_pred - scores_quantiles * var_pred, y_pred + scores_quantiles * var_pred)] *)
Definition SCALED_INTERVAL (Y_pred scores_quantiles : ndarray Q)
  : result (ndarray Q * ndarray Q) :=
  _ <- check_two_columns Y_pred ;;
  y_pred <- column 0 Y_pred ;;
  var_pred <- column 1 Y_pred ;;
  w <- nd_map2 Qmult scores_quantiles var_pred ;;
  y_lo <- nd_map2 Qminus y_pred w ;;
  y_hi <- nd_map2 Qplus y_pred w ;;
  Ok (y_lo, y_hi).

(** [CQR_INTERVAL]: [(q_lo - scores_quantiles, q_hi + scores_quantiles)] *)
Definition CQR_INTERVAL (Y_pred scores_quantiles : ndarray Q)
  : result (ndarray Q * ndarray Q) :=
  _ <- check_two_columns Y_pred ;;
  q_lo <- column 0 Y_pred ;;
  q_hi <- column 1 Y_pred ;;
  y_lo <- nd_map2 Qminus q_lo scores_quantiles ;;
  y_hi <- nd_map2 Qplus q_hi scores_quantiles ;;
  Ok (y_lo, y_hi).

Section Classification.
(** [RAPS_SET(lambd, k_reg)] returns the closure [_RAPS_SET]; the draws
    [u = np.random.uniform(size=pred_len)] are an argument and the
    threshold [tau = scores_quantiles] is one finite number. *)
Variables (lambd : Q) (k_reg : Z).
Variable u : nat -> Q.

(** [lambd * np.maximum(np.arange(1, C + 1) - k_reg, 0)] *)
Definition rank_penalty (C : nat) : list Q :=
  map (fun j => lambd * inject_Z (Z.max (Z.of_nat j - k_reg) 0)) (seq 1 C).

Definition penal_proba (row : list Q) : list Q :=
  map2 Qplus (sorted_proba row) (rank_penalty (length (sorted_cum_mass row))).

Definition penal_cum_proba (row : list Q) : list Q :=
  map2 Qplus (sorted_cum_mass row)
       (rank_penalty (length (sorted_cum_mass row))).

(** [L[i] = len(np.where(penal_cum_proba[i] <= tau)[-1]) + 1], a Python
    integer. *)
Definition raps_L (row : list Q) (tau : Q) : Z :=
  (Z.of_nat (length (filter (fun x => Qle_bool x tau) (penal_cum_proba row)))
   + 1)%Z.

(** [proba_excess[i] = -sorted_cum_mass[i, L[i] - 1]
                      - lambd * np.maximum(L[i] - k_reg, 0)
                      + sorted_proba[i, L[i] - 1]] *)
Definition raps_proba_excess (row : list Q) (tau : Q) : result Q :=
  let L := raps_L row tau in
  c <- np_index (sorted_cum_mass row) (L - 1) ;;
  p <- np_index (sorted_proba row) (L - 1) ;;
  Ok (- c - lambd * inject_Z (Z.max (L - k_reg) 0) + p).

(** [v[i] = (tau - proba_excess[i]) / sorted_proba[i, L[i] - 1]
            if (L[i] - 1) >= 0 else np.inf] *)
Definition raps_v (row : list Q) (tau : Q) : result ext :=
  let L := raps_L row tau in
  pe <- raps_proba_excess row tau ;;
  if (L - 1 >=? 0)%Z
  then p <- np_index (sorted_proba row) (L - 1) ;; Ok (np_div (tau - pe) p)
  else Ok PInf.

(** [cut_i = L[i] - 1 if v[i] <= u[i] else L[i]] *)
Definition raps_cut (row : list Q) (tau : Q) (i : nat) : result Z :=
  let L := raps_L row tau in
  v <- raps_v row tau ;;
  Ok (if ext_leb v (u i) then (L - 1)%Z else L).

(** [[] if cut_i < 0 else list(idx_class_pred_ranking[i, :cut_i])] *)
Definition raps_set_of_cut (row : list Q) (cut_i : Z) : list nat :=
  if (cut_i <? 0)%Z then []
  else firstn (Z.to_nat cut_i) (class_ranking row).

Definition raps_set_row (row : list Q) (tau : Q) (i : nat)
  : result (list nat) :=
  cut_i <- raps_cut row tau i ;;
  Ok (raps_set_of_cut row cut_i).

(** As for the score, the intermediate lists of the source are
    independent across examples and every failure is an [IndexError]. *)
Definition RAPS_SET (Y_pred : ndarray Q) (tau : Q)
  : result (list (list nat)) :=
  match Y_pred with
  | Arr2 _ rows =>
      mapM (fun ir => raps_set_row (snd ir) tau (fst ir)) (enumerate rows)
  | _ => Err ValueError   (* axis 1 is out of bounds *)
  end.

End Classification.

End PredictionSets.

(* ================================================================= *)
(** ** The absent utilities *)

Module Utils.

(** Modelled from the spec: [check_alpha_calib] of
    [deel.puncc.api.utils] is not part of the sources.  The spec says that
    an [alpha] too small or too large relative to the calibration size
    [n] is infeasible and must fail; the bounds taken here are the usual
    ones of split conformal prediction, [1 / (n + 1) <= alpha < 1]. *)
Definition check_alpha_calib (alpha : Q) (n : nat) : result unit :=
  if Qlt_bool alpha (1 / (inject_Z (Z.of_nat n) + 1)) then Err ValueError
  else if Qle_bool 1 alpha then Err ValueError
  else Ok tt.

(** Modelled from the spec: [quantile] of [deel.puncc.api.utils] is not
    part of the sources.  Without weights it is the inverted-CDF
    empirical quantile of the sample; with weights it is the first value,
    in ascending order, at which the cumulated weights reach the level. *)
Definition quantile (a : list ext) (q : Q) (w : option (list Q))
  : result ext :=
  match w with
  | None => np_quantile_by ext_le_bool a q
  | Some w =>
      if negb (length a =? length w)%nat then Err ValueError
      else
        let ps := sort_by (fun p r : ext * Q => ext_le_bool (fst p) (fst r))
                          (combine a w) in
        k <- of_option IndexError
               (find_index (fun c => Qle_bool q c) (cumsum (map snd ps))) ;;
        v <- get (map fst ps) k ;;
        Ok v
  end.

(** The interval constructor as a calibrator's [pred_set_func]: the
    thresholds it is handed are finite. *)
Definition constant_interval_set (y_pred : ndarray Q)
    (scores_quantiles : list ext) : result (ndarray Q * ndarray Q) :=
  taus <- mapM (fun t => match t with
                         | Fin q => Ok q
                         | _ => Err ValueError
                         end) scores_quantiles ;;
  PredictionSets.CONSTANT_INTERVAL y_pred (Arr1 taus).

End Utils.

(* ================================================================= *)
(** ** BaseCalibrator *)

Fixpoint update_at {A} (i : nat) (f : A -> A) (l : list A) : list A :=
  match l, i with
  | [], _ => []
  | x :: l', O => f x :: l'
  | x :: l', S i' => x :: update_at i' f l'
  end.

(** [row[:n] = vals] *)
Definition assign_prefix {A} (n : nat) (vals row : list A) : list A :=
  firstn n vals ++ skipn n row.

(** [np.zeros((r, c))] *)
Definition np_zeros (r c : nat) : list (list Q) := repeat (repeat 0 c) r.

Module BaseCalibrator.

(** [BaseCalibrator.barber_weights]
<<
    calib_size = len(weights_calib)
    sum_w_calib = np.sum(weights_calib)
    w_norm = np.zeros((len(X), calib_size + 1))
    for i in range(len(X)):
        w_norm[i, :calib_size] = weights_calib / (sum_w_calib + 1)
        w_norm[i, calib_size] = 1 / (sum_w_calib + 1)
    return w_norm
>> *)
Definition barber_weights {T} (X : list T) (weights_calib : list Q)
  : ndarray Q :=
  let calib_size := length weights_calib in
  let sum_w_calib := Qsum weights_calib in
  let w_norm := np_zeros (length X) (calib_size + 1) in
  Arr2 (calib_size + 1)
    (fold_left
       (fun w_norm i =>
          update_at i
            (fun row =>
               update_at calib_size (fun _ => 1 / (sum_w_calib + 1))
                 (assign_prefix calib_size
                    (map (fun w => w / (sum_w_calib + 1)) weights_calib) row))
            w_norm)
       (seq 0 (length X)) w_norm).

Section Calibrator.
(** The score function and the set constructor are the calibrator's
    configuration; [check_alpha_calib] and [quantile] belong to
    [deel.puncc.api.utils], which is not part of the sources, and are
    taken as they come.  [W] is the type of one weight vector. *)
Variables Pred Truth Out W : Type.
Variable nonconf_score_func : Pred -> Truth -> result (list Q).
Variable pred_set_func : Pred -> list ext -> result Out.
Variable check_alpha_calib : Q -> nat -> result unit.
Variable quantile : list ext -> Q -> option W -> result ext.

Record state : Type := {
  _len_calib : nat;
  _residuals : option (list Q);
  _norm_weights : option (ndarray Q)
}.

(** [__init__] *)
Definition init : state :=
  {| _len_calib := 0; _residuals := None; _norm_weights := None |}.

(** [fit]: store the scores and their number. *)
Definition fit (self : state) (y_true : Truth) (y_pred : Pred)
  : result state :=
  r <- nonconf_score_func y_pred y_true ;;
  Ok {| _len_calib := length r;
        _residuals := Some r;
        _norm_weights := _norm_weights self |}.

Definition set_norm_weights (self : state) (norm_weights : ndarray Q)
  : state :=
  {| _len_calib := _len_calib self;
     _residuals := _residuals self;
     _norm_weights := Some norm_weights |}.

Definition get_norm_weights (self : state) : option (ndarray Q) :=
  _norm_weights self.

(** Calls made by [calibrate], in the order they are made. *)
Inductive event : Type :=
| EvCheckAlpha (alpha : Q) (n : nat)
| EvQuantile (sample : list ext) (level : Q) (w : option W)
| EvPredSet (scores_quantiles : list ext).

(** A computation that records its calls: the outcome and the calls
    made up to it. *)
Definition traced (A : Type) : Type := (result A * list event)%type.

Definition tret {A} (a : A) : traced A := (Ok a, []).
Definition traise {A} (e : error) : traced A := (Err e, []).

Definition tbind {A B} (m : traced A) (k : A -> traced B) : traced B :=
  match m with
  | (Ok a, t1) => let (r, t2) := k a in (r, t1 ++ t2)
  | (Err e, t1) => (Err e, t1)
  end.

(** A call to an external function: recorded, then run. *)
Definition call {A} (ev : event) (r : result A) : traced A := (r, [ev]).

Fixpoint tmapM {A B} (f : A -> traced B) (l : list A) : traced (list B) :=
  match l with
  | [] => tret []
  | a :: l' => tbind (f a) (fun b => tbind (tmapM f l') (fun bs => tret (b :: bs)))
  end.

(** [calibrate]
<<
    if self._residuals is None:
        raise RuntimeError("Run `fit` method before calling `calibrate`.")
    check_alpha_calib(alpha=alpha, n=self._len_calib)
    residuals_Qs = list()
    if weights is None: it_weights = [None]
    else: it_weights = weights
    for w in it_weights:
        infty_array = np.array([np.inf])
        lemma_residuals = np.concatenate((self._residuals, infty_array))
        residuals_Q = quantile(lemma_residuals, 1 - alpha, w=w)
        residuals_Qs.append(residuals_Q)
    return self.pred_set_func(y_pred, scores_quantiles=residuals_Qs)
>> *)
Definition calibrate (self : state) (alpha : Q) (y_pred : Pred)
    (weights : option (list W)) : traced Out :=
  match _residuals self with
  | None => traise RuntimeError
  | Some residuals =>
      tbind (call (EvCheckAlpha alpha (_len_calib self))
                  (check_alpha_calib alpha (_len_calib self)))
        (fun _ =>
      let it_weights :=
        match weights with
        | None => [None]
        | Some ws => map Some ws
        end in
      tbind (tmapM
               (fun w =>
                  let lemma_residuals := map Fin residuals ++ [PInf] in
                  call (EvQuantile lemma_residuals (1 - alpha) w)
                       (quantile lemma_residuals (1 - alpha) w))
               it_weights)
        (fun residuals_Qs =>
      call (EvPredSet residuals_Qs) (pred_set_func y_pred residuals_Qs)))
  end.

Definition is_quantile_call (ev : event) : bool :=
  match ev with
  | EvQuantile _ _ _ => true
  | _ => false
  end.

End Calibrator.

End BaseCalibrator.

(* ================================================================= *)
(** ** CvPlusCalibrator *)

Module CvPlusCalibrator.

(** A fold calibrator, as far as the aggregator looks at it. *)
Definition calibrator : Type := BaseCalibrator.state.

(** A dictionary in insertion order. *)
Definition dict (V : Type) : Type := list (nat * V).

Fixpoint lookup {V} (k : nat) (d : dict V) : result V :=
  match d with
  | [] => Err KeyError
  | (k', v) :: d' => if (k =? k')%nat then Ok v else lookup k d'
  end.

Record t : Type := {
  kfold_calibrators_dict : dict (option calibrator)
}.

(** [__init__]
<<
    self.kfold_calibrators_dict = kfold_calibrators
    if kfold_calibrators is None:
        raise RuntimeError("Calibrators not defined.")
    for k, calibrator in self.kfold_calibrators_dict.items():
        if calibrator is None:
            raise RuntimeError(f"Fold {k} calibrator is not defined.")
>> *)
Definition __init__ (kfold_calibrators : option (dict (option calibrator)))
  : result t :=
  match kfold_calibrators with
  | None => Err RuntimeError
  | Some d =>
      _ <- mapM (fun kc : nat * option calibrator =>
                   match snd kc with
                   | None => Err RuntimeError
                   | Some _ => Ok tt
                   end) d ;;
      Ok {| kfold_calibrators_dict := d |}
  end.

(** [fit]: every fold calibrator holds residuals. *)
Definition fit (self : t) : result unit :=
  _ <- mapM (fun kc : nat * option calibrator =>
               match snd kc with
               | None => Err AttributeError
               | Some c =>
                   match BaseCalibrator._residuals c with
                   | None => Err RuntimeError
                   | Some _ => Ok tt
                   end
               end) (kfold_calibrators_dict self) ;;
  Ok tt.

Section Calibrate.
Variable X : Type.

(** A fold predictor: [predict(X)] gives one prediction per test
    example, or [None]. *)
Definition predictor : Type := X -> option (list Q).

(** One turn of the loop over [kfold_predictors_dict.items()]. *)
Definition fold_step (self : t) (x : X)
    (concat : option (ndarray Q * ndarray Q)) (kp : nat * predictor)
  : result (option (ndarray Q * ndarray Q)) :=
  let (k, predict) := kp in
  match predict x with
  | None => Err RuntimeError
  | Some y_pred =>
      let y_pred := as_column y_pred in
      c <- lookup k (kfold_calibrators_dict self) ;;
      c <- of_option AttributeError c ;;
      residuals <- of_option TypeError (BaseCalibrator._residuals c) ;;
      let residuals := as_row residuals in
      match concat with
      | None =>
          b <- PredictionSets.CONSTANT_INTERVAL y_pred residuals ;;
          Ok (Some b)
      | Some (concat_y_lo, concat_y_hi) =>
          b <- PredictionSets.CONSTANT_INTERVAL y_pred residuals ;;
          concat_y_lo <- np_concatenate_axis1 concat_y_lo (fst b) ;;
          concat_y_hi <- np_concatenate_axis1 concat_y_hi (snd b) ;;
          Ok (Some (concat_y_lo, concat_y_hi))
      end
  end.

Fixpoint fold_loop (self : t) (x : X)
    (concat : option (ndarray Q * ndarray Q)) (items : dict predictor)
  : result (option (ndarray Q * ndarray Q)) :=
  match items with
  | [] => Ok concat
  | kp :: items' =>
      concat' <- fold_step self x concat kp ;;
      fold_loop self x concat' items'
  end.

(** [calibrate]: after the loop,
<<
    if concat_y_lo is None or concat_y_hi is None:
        raise RuntimeError("This should never happen.")
    else:
        y_lo = (-1) * np.quantile((-1) * concat_y_lo, 1 - alpha, axis=1,
                                  method="inverted_cdf")
        y_hi = np.quantile(concat_y_hi, 1 - alpha, axis=1,
                           method="inverted_cdf")
        return y_lo, y_hi
>> *)
Definition calibrate (self : t) (x : X) (kfold_predictors_dict : dict predictor)
    (alpha : Q) : result (list Q * list Q) :=
  concat <- fold_loop self x None kfold_predictors_dict ;;
  match concat with
  | None => Err RuntimeError
  | Some (concat_y_lo, concat_y_hi) =>
      q_lo <- np_quantile_axis1 (nd_map (Qmult (-1)) concat_y_lo) (1 - alpha) ;;
      let y_lo := map (Qmult (-1)) q_lo in
      y_hi <- np_quantile_axis1 concat_y_hi (1 - alpha) ;;
      Ok (y_lo, y_hi)
  end.

End Calibrate.

End CvPlusCalibrator.

(* ================================================================= *)
(** ** CV+ aggregation, as the specification words it *)

Module CvPlusSpec.

(** A fold as the aggregation sees it: its predictions for the test
    examples and its calibration residuals. *)
Definition fold : Type := (list Q * list Q)%type.

(** The candidate bounds of test example [i]: for every fold, its
    prediction for [i] combined with each of its residuals, the folds one
    after the other. *)
Definition candidate_bounds (op : Q -> Q -> Q) (folds : list fold) (i : nat)
  : list Q :=
  flat_map (fun f : fold => map (fun r => op (nth i (fst f) 0) r) (snd f))
           folds.

(** Number of candidates per test example: the calibration sizes of the
    folds added up. *)
Definition n_candidates (folds : list fold) : nat :=
  list_sum (map (fun f : fold => length (snd f)) folds).

(** The lower bound: the quantile of the negated lower candidates,
    negated again; the upper bound: the quantile of the upper
    candidates. *)
Definition lower_bound (folds : list fold) (level : Q) (i : nat) : result Q :=
  t <- np_quantile (map (Qmult (-1)) (candidate_bounds Qminus folds i)) level ;;
  Ok ((-1) * t).

Definition upper_bound (folds : list fold) (level : Q) (i : nat) : result Q :=
  np_quantile (candidate_bounds Qplus folds i) level.

(** Both bounds for every test example; a level that is not in
    [[0, 1]] is refused before any bound is computed. *)
Definition bounds (folds : list fold) (n_test : nat) (level : Q)
  : result (list Q * list Q) :=
  if negb (Qle_bool 0 level && Qle_bool level 1) then Err ValueError
  else
    y_lo <- mapM (lower_bound folds level) (seq 0 n_test) ;;
    y_hi <- mapM (upper_bound folds level) (seq 0 n_test) ;;
    Ok (y_lo, y_hi).

(** The two matrices the loop accumulates: one row per test example,
    one column per calibration residual of every fold. *)
Definition candidate_matrix (n_test : nat) (op : Q -> Q -> Q)
    (folds : list fold) : ndarray Q :=
  Arr2 (n_candidates folds)
       (map (candidate_bounds op folds) (seq 0 n_test)).

(** What [calibrate] reads for one item of [kfold_predictors_dict]: the
    predictor's output on the test inputs, one value per test example,
    and the residuals of the calibrator stored under the same key. *)
Definition fold_of {X} (self : CvPlusCalibrator.t) (x : X) (n_test : nat)
    (kp : nat * CvPlusCalibrator.predictor X) (f : fold) : Prop :=
  snd kp x = Some (fst f) /\ length (fst f) = n_test /\
  exists c,
    CvPlusCalibrator.lookup (fst kp)
      (CvPlusCalibrator.kfold_calibrators_dict self) = Ok (Some c) /\
    BaseCalibrator._residuals c = Some (snd f).

End CvPlusSpec.

(** The two-fold scenario of the specification: residuals [[1, 2]] and
    [[3, 4]], both folds predicting [10] for the one test example. *)
Module Scenario.

Definition fitted (residuals : list Q) : CvPlusCalibrator.calibrator :=
  {| BaseCalibrator._len_calib := length residuals;
     BaseCalibrator._residuals := Some residuals;
     BaseCalibrator._norm_weights := None |}.

Definition self : CvPlusCalibrator.t :=
  {| CvPlusCalibrator.kfold_calibrators_dict :=
       [(0%nat, Some (fitted [1; 2])); (1%nat, Some (fitted [3; 4]))] |}.

Definition kfold_predictors_dict
  : CvPlusCalibrator.dict (CvPlusCalibrator.predictor unit) :=
  [(0%nat, fun _ => Some [10]); (1%nat, fun _ => Some [10])].

Definition folds : list CvPlusSpec.fold := [([10], [1; 2]); ([10], [3; 4])].

End Scenario.

(* ================================================================= *)
(** * Properties *)

(** ** Results, lists, broadcasting *)

Lemma mapM_length {A B} (f : A -> result B) l r :
  mapM f l = Ok r -> length r = length l.
Proof.
  revert r; induction l as [|a l IH]; simpl; intros r H.
  - now inversion H.
  - destruct (f a) as [b|e]; simpl in H; [|discriminate].
    destruct (mapM f l) as [bs|e]; simpl in H; [|discriminate].
    inversion H; subst; simpl. f_equal. now apply IH.
Qed.

Lemma mapM_nth_error {A B} (f : A -> result B) l r i a :
  mapM f l = Ok r -> nth_error l i = Some a ->
  exists b, f a = Ok b /\ nth_error r i = Some b.
Proof.
  revert r i; induction l as [|x l IH]; simpl; intros r i H Hi.
  - destruct i; discriminate.
  - destruct (f x) as [b|e] eqn:Hx; simpl in H; [|discriminate].
    destruct (mapM f l) as [bs|e]; simpl in H; [|discriminate].
    inversion H; subst. destruct i as [|i]; simpl in *.
    + inversion Hi; subst. now exists b.
    + now apply IH.
Qed.

Lemma mapM_all_Ok {A B} (f : A -> result B) (g : A -> B) l :
  (forall a, In a l -> f a = Ok (g a)) -> mapM f l = Ok (map g l).
Proof.
  induction l as [|a l IH]; simpl; intros H; auto.
  rewrite (H a) by auto. simpl. rewrite IH by auto. reflexivity.
Qed.

Lemma mapM_Err {A B} (f : A -> result B) l a e :
  In a l -> (forall x, In x l -> f x = Err e \/ exists b, f x = Ok b) ->
  f a = Err e -> mapM f l = Err e.
Proof.
  induction l as [|x l IH]; simpl; intros Hin Hall Ha; [contradiction|].
  destruct (Hall x (or_introl eq_refl)) as [Hx|[b Hx]]; rewrite Hx; simpl; auto.
  destruct Hin as [->|Hin]; [congruence|].
  rewrite IH; auto.
Qed.

Lemma bc_dim_same n : bc_dim n n = Ok n.
Proof. unfold bc_dim. now rewrite Nat.eqb_refl. Qed.

Lemma stretch_same {A} (l : list A) : stretch (length l) l = l.
Proof. destruct l as [|x [|y l]]; reflexivity. Qed.

Lemma bc_vec_same_length {A B C} (f : A -> B -> C) (u : list A)
    (v : list B) :
  length u = length v -> bc_vec f u v = Ok (map2 f u v).
Proof.
  intros H. unfold bc_vec. rewrite H, bc_dim_same. simpl.
  rewrite stretch_same. rewrite <- H, stretch_same. reflexivity.
Qed.

Lemma map2_length {A B C} (f : A -> B -> C) u v :
  length (map2 f u v) = Nat.min (length u) (length v).
Proof.
  revert v; induction u as [|a u IH]; intros [|b v]; simpl; auto.
Qed.

Lemma map2_nth_error {A B C} (f : A -> B -> C) u v i a b :
  nth_error u i = Some a -> nth_error v i = Some b ->
  nth_error (map2 f u v) i = Some (f a b).
Proof.
  revert v i; induction u as [|x u IH]; intros [|y v] [|i]; simpl;
    try discriminate; intros Ha Hb.
  - congruence.
  - now apply IH.
Qed.

Lemma Qsum_app l1 l2 : Qsum (l1 ++ l2) == Qsum l1 + Qsum l2.
Proof.
  induction l1 as [|x l1 IH]; simpl.
  - ring.
  - rewrite IH. ring.
Qed.

Lemma Qsum_nonneg l : Forall (fun w => 0 <= w) l -> 0 <= Qsum l.
Proof.
  induction 1 as [|x l Hx _ IH]; simpl.
  - apply Qle_refl.
  - lra.
Qed.

Section ConstantInterval.
Import PredictionSets.

Lemma nd_flat_map {A B} (f : A -> B) (a : ndarray A) :
  nd_flat (nd_map f a) = map f (nd_flat a).
Proof.
  destruct a as [x|v|c m]; simpl; auto.
  now rewrite concat_map.
Qed.

Lemma shape_map {A B} (f : A -> B) (a : ndarray A) :
  shape (nd_map f a) = shape a.
Proof.
  destruct a as [x|v|c m]; simpl; auto.
  - now rewrite length_map.
  - now rewrite length_map.
Qed.

Lemma CONSTANT_INTERVAL_scalar (pred : ndarray Q) (tau : Q) :
  CONSTANT_INTERVAL pred (Arr0 tau)
  = Ok (nd_map (fun p => p - tau) pred, nd_map (fun p => p + tau) pred).
Proof. destruct pred; reflexivity. Qed.

(** C7 (exact arithmetic).  For every prediction array [pred] and every
    scalar threshold [tau >= 0], [CONSTANT_INTERVAL pred tau] returns
    [(pred - tau, pred + tau)] elementwise, of the shape of [pred], with
    [y_lo <= pred <= y_hi] and [y_hi - y_lo == 2 * tau] at every entry. *)
Theorem CONSTANT_INTERVAL_exact (pred : ndarray Q) (tau : Q) :
  0 <= tau ->
  exists y_lo y_hi,
    CONSTANT_INTERVAL pred (Arr0 tau) = Ok (y_lo, y_hi) /\
    y_lo = nd_map (fun p => p - tau) pred /\
    y_hi = nd_map (fun p => p + tau) pred /\
    shape y_lo = shape pred /\ shape y_hi = shape pred /\
    forall k p, nth_error (nd_flat pred) k = Some p ->
      exists l h,
        nth_error (nd_flat y_lo) k = Some l /\
        nth_error (nd_flat y_hi) k = Some h /\
        l <= p /\ p <= h /\ h - l == 2 * tau.
Proof.
  intros Htau.
  exists (nd_map (fun p => p - tau) pred), (nd_map (fun p => p + tau) pred).
  rewrite CONSTANT_INTERVAL_scalar, !shape_map.
  repeat split.
  intros k p Hk.
  exists (p - tau), (p + tau).
  rewrite !nd_flat_map, !nth_error_map, Hk. simpl.
  repeat split; lra.
Qed.

Lemma CONSTANT_INTERVAL_exact_witness :
  0 <= 5 /\
  exists y_lo y_hi,
    CONSTANT_INTERVAL (Arr1 [10]) (Arr0 5) = Ok (y_lo, y_hi) /\
    y_lo = nd_map (fun p => p - 5) (Arr1 [10]) /\
    y_hi = nd_map (fun p => p + 5) (Arr1 [10]) /\
    shape y_lo = shape (Arr1 [10]) /\ shape y_hi = shape (Arr1 [10]) /\
    forall k p, nth_error (nd_flat (Arr1 [10])) k = Some p ->
      exists l h,
        nth_error (nd_flat y_lo) k = Some l /\
        nth_error (nd_flat y_hi) k = Some h /\
        l <= p /\ p <= h /\ h - l == 2 * 5.
Proof.
  assert (H5 : 0 <= 5) by (unfold Qle; simpl; lia).
  split; [exact H5 | exact (CONSTANT_INTERVAL_exact (Arr1 [10]) H5)].
Defined.

(** C7 as stated fails on binary64 arrays: at [pred = 2^53], [tau = 1]
    the upper bound [pred + tau] rounds back to [2^53], so
    [y_hi - y_lo] is [1] and not [2 * tau]. *)
Lemma CONSTANT_INTERVAL_binary64_width :
  PrimFloat.leb 0 1 = true /\
  CONSTANT_INTERVAL (Arr1 [9007199254740992%float]) (Arr0 1%float)
  = Ok (Arr1 [9007199254740991%float], Arr1 [9007199254740992%float]) /\
  PrimFloat.eqb
    (PrimFloat.sub 9007199254740992 9007199254740991)
    (PrimFloat.mul 2 1) = false.
Proof. repeat split; vm_compute; reflexivity. Qed.

End ConstantInterval.

(* ================================================================= *)
(** ** CvPlusCalibrator: construction *)

Section CvPlusInit.
Import CvPlusCalibrator.

Lemma init_entries_Ok (d : dict (option calibrator)) :
  Forall (fun kc => snd kc <> None) d ->
  mapM (fun kc : nat * option calibrator =>
          match snd kc with
          | None => Err RuntimeError
          | Some _ => Ok tt
          end) d = Ok (map (fun _ => tt) d).
Proof.
  intros H. apply mapM_all_Ok. intros [k c] Hin.
  rewrite Forall_forall in H. specialize (H _ Hin). simpl in *.
  destruct c; congruence.
Qed.

Lemma init_entries_Err (d : dict (option calibrator)) k :
  In (k, None) d ->
  mapM (fun kc : nat * option calibrator =>
          match snd kc with
          | None => Err RuntimeError
          | Some _ => Ok tt
          end) d = Err RuntimeError.
Proof.
  intros Hin. eapply mapM_Err; eauto.
  intros [k' [c|]] _; simpl; eauto.
Qed.

Lemma entries_present_or_absent (d : dict (option calibrator)) :
  Forall (fun kc => snd kc <> None) d \/ exists k, In (k, None) d.
Proof.
  induction d as [|[k [c|]] d IH].
  - left; constructor.
  - destruct IH as [H|[k' H]].
    + left; constructor; [simpl; discriminate | assumption].
    + right; exists k'; now right.
  - right; exists k; now left.
Qed.

(** C2 (amended).  Construction raises exactly when the fold mapping is
    absent or some fold identifier is mapped to an absent calibrator; it
    succeeds, keeping the mapping, for every mapping whose entries are
    all present, the empty mapping included. *)
Theorem init_raises_iff (kfold_calibrators : option (dict (option calibrator))) :
  (__init__ kfold_calibrators = Err RuntimeError <->
     kfold_calibrators = None \/
     exists d k, kfold_calibrators = Some d /\ In (k, None) d) /\
  ((exists self, __init__ kfold_calibrators = Ok self) <->
     exists d, kfold_calibrators = Some d /\
               Forall (fun kc => snd kc <> None) d) /\
  (forall self, __init__ kfold_calibrators = Ok self ->
     kfold_calibrators = Some (kfold_calibrators_dict self)).
Proof.
  destruct kfold_calibrators as [d|]; simpl.
  - destruct (entries_present_or_absent d) as [Hall|[k Hin]].
    + rewrite init_entries_Ok by assumption. simpl.
      repeat split.
      * discriminate.
      * intros [H|(d' & k & Hd & Hin)]; [discriminate|].
        inversion Hd; subst d'. rewrite Forall_forall in Hall.
        now specialize (Hall _ Hin).
      * intros _. now exists d.
      * intros _. eexists; reflexivity.
      * intros self H. now inversion H.
    + rewrite (init_entries_Err _ _ Hin). simpl.
      repeat split.
      * intros _. right. now exists d, k.
      * intros [self H]. discriminate.
      * intros (d' & Hd & Hall). inversion Hd; subst d'.
        rewrite Forall_forall in Hall. now specialize (Hall _ Hin).
      * intros self H. discriminate.
  - repeat split.
    + intros _. now left.
    + intros [self H]. discriminate.
    + intros (d & H & _). discriminate.
    + intros self H. discriminate.
Qed.

(** C2 as stated fails on the empty mapping: construction succeeds. *)
Lemma init_empty_mapping_succeeds :
  __init__ (Some []) = Ok {| kfold_calibrators_dict := [] |}.
Proof. reflexivity. Qed.

End CvPlusInit.

(* ================================================================= *)
(** ** BaseCalibrator.barber_weights *)

Section BarberWeights.
Import BaseCalibrator.

Lemma update_at_app_length {A} (f : A -> A) (l1 : list A) x l2 :
  update_at (length l1) f (l1 ++ x :: l2) = l1 ++ f x :: l2.
Proof. induction l1 as [|a l1 IH]; simpl; congruence. Qed.

(** The loop visits every row once, in order. *)
Lemma update_rows_loop {A} (f : A -> A) (done todo : list A) :
  fold_left (fun w i => update_at i f w)
            (seq (length done) (length todo)) (done ++ todo)
  = done ++ map f todo.
Proof.
  revert done; induction todo as [|x todo IH]; intros done; simpl.
  - reflexivity.
  - rewrite update_at_app_length.
    replace (done ++ f x :: todo) with ((done ++ [f x]) ++ todo)
      by now rewrite <- app_assoc.
    replace (S (length done)) with (length (done ++ [f x]))
      by (rewrite length_app; simpl; lia).
    rewrite IH, <- app_assoc. reflexivity.
Qed.

Lemma barber_row (vals : list Q) (c : Q) :
  update_at (length vals) (fun _ => c)
    (assign_prefix (length vals) vals (repeat 0 (length vals + 1)))
  = vals ++ [c].
Proof.
  unfold assign_prefix.
  rewrite firstn_all, repeat_app, skipn_app, repeat_length.
  rewrite Nat.sub_diag, skipn_all2 by (rewrite repeat_length; lia).
  simpl. apply update_at_app_length.
Qed.

Lemma barber_weights_closed_form {T} (X : list T) (weights_calib : list Q) :
  barber_weights X weights_calib
  = Arr2 (length weights_calib + 1)
      (repeat (map (fun w => w / (Qsum weights_calib + 1)) weights_calib
                 ++ [1 / (Qsum weights_calib + 1)]) (length X)).
Proof.
  unfold barber_weights, np_zeros. f_equal.
  set (f := fun row : list Q => update_at _ _ _).
  pose proof (update_rows_loop f []
                (repeat (repeat 0 (length weights_calib + 1)) (length X))) as H.
  simpl in H. rewrite repeat_length in H. rewrite H.
  rewrite map_repeat. f_equal. subst f. simpl.
  pose proof (barber_row (map (fun w => w / (Qsum weights_calib + 1)) weights_calib)
                (1 / (Qsum weights_calib + 1))) as Hr.
  rewrite length_map in Hr. exact Hr.
Qed.

Lemma Qsum_map_div (d : Q) (l : list Q) :
  Qsum (map (fun w => w / d) l) == Qsum l / d.
Proof.
  induction l as [|x l IH]; simpl.
  - unfold Qdiv. ring.
  - rewrite IH. unfold Qdiv. ring.
Qed.

(** C6.  For test examples [X] and nonnegative calibration weights of
    length [n], [barber_weights] returns a matrix of shape
    [(len(X), n + 1)]; every row is [weights_calib / (sum + 1)] followed
    by [1 / (sum + 1)], and every row sums to [1]. *)
Theorem barber_weights_rows {T} (X : list T) (weights_calib : list Q) :
  Forall (fun w => 0 <= w) weights_calib ->
  let n := length weights_calib in
  let s := Qsum weights_calib in
  exists rows,
    barber_weights X weights_calib = Arr2 (n + 1) rows /\
    shape (barber_weights X weights_calib) = [length X; (n + 1)%nat] /\
    wf_ndarray (barber_weights X weights_calib) /\
    forall i, (i < length X)%nat ->
      exists row,
        nth_error rows i = Some row /\
        row = map (fun w => w / (s + 1)) weights_calib ++ [1 / (s + 1)] /\
        firstn n row = map (fun w => w / (s + 1)) weights_calib /\
        nth_error row n = Some (1 / (s + 1)) /\
        Qsum row == 1.
Proof.
  intros Hw n s.
  pose proof (Qsum_nonneg Hw) as Hs. fold s in Hs.
  set (row := map (fun w => w / (s + 1)) weights_calib ++ [1 / (s + 1)]).
  assert (Hlen : length (map (fun w => w / (s + 1)) weights_calib) = n)
    by apply length_map.
  exists (repeat row (length X)).
  rewrite barber_weights_closed_form. fold s n row. simpl.
  rewrite repeat_length.
  repeat split.
  - apply Forall_forall. intros r Hr. apply repeat_spec in Hr. subst r.
    unfold row. rewrite length_app, Hlen. reflexivity.
  - intros i Hi. exists row. repeat split.
    + rewrite nth_error_repeat; auto.
    + unfold row. rewrite <- Hlen at 1.
      now rewrite firstn_app, firstn_all, Nat.sub_diag, firstn_O, app_nil_r.
    + unfold row. rewrite nth_error_app2 by lia. now rewrite Hlen, Nat.sub_diag.
    + unfold row. rewrite Qsum_app, Qsum_map_div. simpl. fold s.
      field. lra.
Qed.

Lemma barber_weights_rows_witness :
  Forall (fun w => 0 <= w) [1; 2; 3] /\
  exists rows,
    barber_weights [tt; tt] [1; 2; 3] = Arr2 4 rows /\
    forall i, (i < 2)%nat ->
      exists row, nth_error rows i = Some row /\ Qsum row == 1.
Proof.
  assert (Hw : Forall (fun w => 0 <= w) [1; 2; 3])
    by (repeat constructor; unfold Qle; simpl; lia).
  split; [exact Hw|].
  destruct (barber_weights_rows [tt; tt] Hw) as (rows & Hr & _ & _ & Hrows).
  exists rows. split; [exact Hr|].
  intros i Hi. destruct (Hrows i Hi) as (row & H1 & _ & _ & _ & H5).
  exists row. split; assumption.
Defined.

End BarberWeights.

(* ================================================================= *)
(** ** Regression scores: CQR_SCORE and SCALED_MAD *)

Section RegressionScores.
Import NonConformityScores PredictionSets.

Lemma nd_map2_vectors {A B C} (f : A -> B -> C) (u : list A) (v : list B) :
  length u = length v ->
  nd_map2 f (Arr1 u) (Arr1 v) = Ok (Arr1 (map2 f u v)).
Proof. intros H. simpl. now rewrite bc_vec_same_length. Qed.

Lemma nd_map2_vectors_mismatch (f : Q -> Q -> Q) (u v : list Q) :
  bc_dim (length u) (length v) = Err ValueError ->
  nd_map2 f (Arr1 u) (Arr1 v) = Err ValueError.
Proof. intros H. simpl. unfold bc_vec. now rewrite H. Qed.

Lemma check_pair_shapes_Ok (rows : list (list Q)) (truth : list Q) :
  check_pair_shapes (Arr2 2 rows) (Arr1 truth) = Ok tt.
Proof. reflexivity. Qed.

Lemma Qmax_cases (x y : Q) :
  (x <= y /\ Qmax x y == y) \/ (y <= x /\ Qmax x y == x).
Proof.
  destruct (Q.max_spec x y) as [[H1 H2]|[H1 H2]]; [left|right]; split;
    auto using Qlt_le_weak.
Qed.

Lemma CQR_SCORE_vectors (rows : list (list Q)) (y_true : list Q) :
  length rows = length y_true ->
  CQR_SCORE (Arr2 2 rows) (Arr1 y_true)
  = Ok (Arr1 (map2 Qmax
                (map2 Qminus (map (fun r => nth 0 r 0) rows) y_true)
                (map2 Qminus y_true (map (fun r => nth 1 r 0) rows)))).
Proof.
  intros H. unfold CQR_SCORE. rewrite check_pair_shapes_Ok.
  cbn [bind column].
  rewrite nd_map2_vectors by (rewrite length_map; lia). cbn [bind].
  rewrite nd_map2_vectors by (rewrite length_map; lia). cbn [bind].
  apply nd_map2_vectors. rewrite !map2_length, !length_map. lia.
Qed.

Lemma CQR_INTERVAL_scalar (rows : list (list Q)) (tau : Q) :
  CQR_INTERVAL (Arr2 2 rows) (Arr0 tau)
  = Ok (Arr1 (map (fun t => t - tau) (map (fun r => nth 0 r 0) rows)),
        Arr1 (map (fun t => t + tau) (map (fun r => nth 1 r 0) rows))).
Proof. reflexivity. Qed.

(** C8.  On a two-column prediction [(q_lo, q_hi)] and a truth vector of
    the same length, [CQR_SCORE] is [max(q_lo - truth, truth - q_hi)]
    elementwise.  The score is [0] when the truth is exactly [q_lo] or
    [q_hi] (with [q_lo <= q_hi]), positive when the truth is outside
    [[q_lo, q_hi]], negative when strictly inside.  At threshold [0],
    [CQR_INTERVAL] gives back the predicted band [(q_lo, q_hi)], and the
    truth lies in it exactly when its score is at most [0]. *)
Theorem CQR_SCORE_consistent (rows : list (list Q)) (y_true : list Q) :
  length rows = length y_true ->
  exists scores,
    CQR_SCORE (Arr2 2 rows) (Arr1 y_true) = Ok (Arr1 scores) /\
    length scores = length y_true /\
    forall i row truth,
      nth_error rows i = Some row -> nth_error y_true i = Some truth ->
      let q_lo := nth 0 row 0 in
      let q_hi := nth 1 row 0 in
      exists score,
        nth_error scores i = Some score /\
        score = Qmax (q_lo - truth) (truth - q_hi) /\
        (q_lo <= q_hi -> truth == q_lo \/ truth == q_hi -> score == 0) /\
        (truth < q_lo \/ q_hi < truth -> 0 < score) /\
        (q_lo < truth /\ truth < q_hi -> score < 0) /\
        exists y_lo y_hi lo hi,
          CQR_INTERVAL (Arr2 2 rows) (Arr0 0) = Ok (Arr1 y_lo, Arr1 y_hi) /\
          nth_error y_lo i = Some lo /\ nth_error y_hi i = Some hi /\
          lo == q_lo /\ hi == q_hi /\
          (score <= 0 <-> lo <= truth /\ truth <= hi).
Proof.
  intros Hlen. eexists. split; [apply (CQR_SCORE_vectors _ _ Hlen)|].
  split; [rewrite !map2_length, !length_map; lia|].
  intros i row truth Hrow Ht q_lo q_hi.
  exists (Qmax (q_lo - truth) (truth - q_hi)).
  assert (Hlo : nth_error (map (fun r => nth 0 r 0) rows) i = Some q_lo)
    by now rewrite nth_error_map, Hrow.
  assert (Hhi : nth_error (map (fun r => nth 1 r 0) rows) i = Some q_hi)
    by now rewrite nth_error_map, Hrow.
  split.
  { apply map2_nth_error; apply map2_nth_error; assumption. }
  split; [reflexivity|].
  destruct (Qmax_cases (q_lo - truth) (truth - q_hi)) as [[Hc Hm]|[Hc Hm]];
    rewrite Hm; (repeat split; [lra | intros [?|?]; lra | lra |]);
    exists (map (fun t => t - 0) (map (fun r => nth 0 r 0) rows)),
           (map (fun t => t + 0) (map (fun r => nth 1 r 0) rows)),
           (q_lo - 0), (q_hi + 0);
    rewrite CQR_INTERVAL_scalar, !nth_error_map, Hrow; simpl;
    (repeat split; try lra).
Qed.

Lemma CQR_SCORE_consistent_witness :
  length [[1; 2]; [3; 4]] = length [1; 5] /\
  exists scores,
    CQR_SCORE (Arr2 2 [[1; 2]; [3; 4]]) (Arr1 [1; 5]) = Ok (Arr1 scores) /\
    length scores = 2%nat /\
    exists s0 s1,
      nth_error scores 0 = Some s0 /\ s0 == 0 /\
      nth_error scores 1 = Some s1 /\ 0 < s1.
Proof.
  split; [reflexivity|].
  destruct (CQR_SCORE_consistent [[1; 2]; [3; 4]] [1; 5] eq_refl)
    as (scores & H & Hl & Hi).
  exists scores. split; [exact H|]. split; [exact Hl|].
  destruct (Hi 0%nat [1; 2] 1 eq_refl eq_refl) as (s0 & H0 & _ & Hz & _).
  destruct (Hi 1%nat [3; 4] 5 eq_refl eq_refl) as (s1 & H1 & _ & _ & Hp & _).
  exists s0, s1. repeat split; auto.
  - apply Hz; [discriminate | left; reflexivity].
  - apply Hp. right. reflexivity.
Defined.






End RegressionScores.

(* ================================================================= *)
(** ** Sorting and ranking *)

Section SortingFacts.
Context {A : Type} (leb : A -> A -> bool).

Lemma insert_by_perm (x : A) (l : list A) :
  Permutation (insert_by leb x l) (x :: l).
Proof.
  induction l as [|y l IH]; simpl; auto.
  destruct (leb x y); auto.
  rewrite IH. apply perm_swap.
Qed.

Lemma sort_by_perm (l : list A) : Permutation (sort_by leb l) l.
Proof.
  induction l as [|x l IH]; simpl; auto.
  rewrite insert_by_perm. now constructor.
Qed.

Lemma sort_by_length (l : list A) : length (sort_by leb l) = length l.
Proof. apply Permutation_length, sort_by_perm. Qed.

Hypothesis leb_total : forall x y, leb x y = false -> leb y x = true.

Lemma insert_by_sorted (x : A) (l : list A) :
  Sorted (fun a b => leb a b = true) l ->
  Sorted (fun a b => leb a b = true) (insert_by leb x l).
Proof.
  induction 1 as [|y l Hs IH Hd]; simpl.
  - repeat constructor.
  - destruct (leb x y) eqn:Hxy.
    + constructor; [now constructor | now constructor].
    + constructor; [assumption|].
      destruct l as [|z l]; simpl in *.
      * constructor. now apply leb_total.
      * destruct (leb x z); constructor.
        -- now apply leb_total.
        -- now inversion Hd.
Qed.

Lemma sort_by_sorted (l : list A) :
  Sorted (fun a b => leb a b = true) (sort_by leb l).
Proof.
  induction l as [|x l IH]; simpl.
  - constructor.
  - now apply insert_by_sorted.
Qed.

End SortingFacts.

(** Sorting commutes with a key that carries the order. *)
Lemma sort_by_map {A B} (lebA : A -> A -> bool) (lebB : B -> B -> bool)
    (key : A -> B) (l : list A) :
  (forall a b, lebA a b = lebB (key a) (key b)) ->
  map key (sort_by lebA l) = sort_by lebB (map key l).
Proof.
  intros Hkey. induction l as [|x l IH]; simpl; auto.
  rewrite <- IH. generalize (sort_by lebA l) as s.
  induction s as [|y s IHs]; simpl; auto.
  rewrite <- Hkey. destruct (lebA x y); simpl; auto.
  now rewrite IHs.
Qed.

Lemma map_fst_combine {A B} (u : list A) (v : list B) :
  length u = length v -> map fst (combine u v) = u.
Proof.
  revert v; induction u as [|a u IH]; intros [|b v]; simpl; try discriminate;
    auto.
  intros H. f_equal. apply IH. lia.
Qed.

Lemma map_snd_combine {A B} (u : list A) (v : list B) :
  length u = length v -> map snd (combine u v) = v.
Proof.
  revert v; induction u as [|a u IH]; intros [|b v]; simpl; try discriminate;
    auto.
  intros H. f_equal. apply IH. lia.
Qed.

Lemma np_sort_length (l : list Q) : length (np_sort l) = length l.
Proof. apply sort_by_length. Qed.

Lemma np_argsort_perm (l : list Q) :
  Permutation (np_argsort l) (seq 0 (length l)).
Proof.
  unfold np_argsort.
  rewrite (Permutation_map snd (sort_by_perm _ (combine l (seq 0 (length l))))).
  rewrite map_snd_combine by now rewrite length_seq.
  reflexivity.
Qed.

Lemma np_argsort_length (l : list Q) : length (np_argsort l) = length l.
Proof.
  rewrite (Permutation_length (np_argsort_perm l)). apply length_seq.
Qed.

Lemma combine_seq_nth (l : list Q) (a : nat) (p : Q * nat) :
  In p (combine l (seq a (length l))) ->
  (a <= snd p)%nat /\ nth_error l (snd p - a) = Some (fst p).
Proof.
  revert a; induction l as [|x l IH]; simpl; intros a Hin; [contradiction|].
  destruct Hin as [<-|Hin]; simpl.
  - rewrite Nat.sub_diag. auto.
  - destruct (IH _ Hin) as [Hle Hn]. split; [lia|].
    replace (snd p - a)%nat with (S (snd p - S a)) by lia. exact Hn.
Qed.

(** The sorted values are the values at the ranked indices. *)
Lemma np_sort_argsort (l : list Q) :
  np_sort l = map (fun k => nth k l 0) (np_argsort l).
Proof.
  unfold np_sort, np_argsort.
  set (ps := combine l (seq 0 (length l))).
  set (lebP := fun p q : Q * nat => Qle_bool (fst p) (fst q)).
  assert (Hfst : map fst ps = l).
  { unfold ps. apply map_fst_combine. now rewrite length_seq. }
  rewrite <- Hfst at 1.
  rewrite <- (sort_by_map lebP Qle_bool fst ps) by reflexivity.
  rewrite map_map. apply map_ext_in. intros p Hp.
  apply (Permutation_in _ (sort_by_perm lebP ps)) in Hp.
  apply combine_seq_nth in Hp. destruct Hp as [_ Hp].
  rewrite Nat.sub_0_r in Hp. symmetry. now apply nth_error_nth.
Qed.

Lemma cumsum_from_length acc l : length (cumsum_from acc l) = length l.
Proof. revert acc; induction l; simpl; auto. Qed.

Lemma cumsum_length l : length (cumsum l) = length l.
Proof. destruct l; simpl; auto using cumsum_from_length. Qed.

Lemma sorted_proba_length row : length (sorted_proba row) = length row.
Proof.
  unfold sorted_proba. now rewrite length_map, np_sort_length, length_map.
Qed.

Lemma sorted_cum_mass_length row : length (sorted_cum_mass row) = length row.
Proof. unfold sorted_cum_mass. now rewrite cumsum_length, sorted_proba_length. Qed.

Lemma class_ranking_length row : length (class_ranking row) = length row.
Proof. unfold class_ranking. now rewrite np_argsort_length, length_map. Qed.

Lemma class_ranking_perm row :
  Permutation (class_ranking row) (seq 0 (length row)).
Proof.
  unfold class_ranking.
  rewrite <- (length_map Qopp row). apply np_argsort_perm.
Qed.

(* ================================================================= *)
(** ** RAPS prediction sets *)

Section RapsSet.
Import NonConformityScores PredictionSets.
Variables (lambd : Q) (k_reg : Z).
Variable u : nat -> Q.

Lemma raps_L_positive row tau : (1 <= raps_L lambd k_reg row tau)%Z.
Proof. unfold raps_L. lia. Qed.

Lemma np_index_nonneg {A} (l : list A) (i : Z) :
  (0 <= i)%Z -> np_index l i = of_option IndexError (nth_error l (Z.to_nat i)).
Proof.
  intros H. unfold np_index. apply Z.leb_le in H. now rewrite H.
Qed.

Lemma of_option_Ok {A} e (o : option A) a :
  of_option e o = Ok a -> o = Some a.
Proof. destruct o; simpl; congruence. Qed.

(** When the excess is computed, rank [L] is one of the classes. *)
Lemma raps_proba_excess_in_range row tau pe :
  raps_proba_excess lambd k_reg row tau = Ok pe ->
  (Z.to_nat (raps_L lambd k_reg row tau - 1) < length row)%nat.
Proof.
  unfold raps_proba_excess.
  pose proof (raps_L_positive row tau) as HL.
  rewrite np_index_nonneg by lia.
  destruct (nth_error (sorted_cum_mass row) _) as [c|] eqn:Hc;
    simpl; [|discriminate].
  intros _. rewrite <- (sorted_cum_mass_length row).
  apply nth_error_Some. congruence.
Qed.

Lemma raps_v_guarded row tau :
  raps_v lambd k_reg row tau
  = (pe <- raps_proba_excess lambd k_reg row tau ;;
     p <- np_index (sorted_proba row) (raps_L lambd k_reg row tau - 1) ;;
     Ok (np_div (tau - pe) p)).
Proof.
  unfold raps_v. pose proof (raps_L_positive row tau) as HL.
  replace (raps_L lambd k_reg row tau - 1 >=? 0)%Z with true
    by (symmetry; apply Z.geb_le; lia).
  reflexivity.
Qed.

Lemma combine_seq_nth_error {A} (l : list A) s i a :
  nth_error l i = Some a ->
  nth_error (combine (seq s (length l)) l) i = Some ((s + i)%nat, a).
Proof.
  revert i s; induction l as [|x l IH]; intros [|i] s; simpl; try discriminate.
  - intros H. inversion H. now rewrite Nat.add_0_r.
  - intros H. rewrite (IH _ (S s) H). f_equal. f_equal. lia.
Qed.

Lemma enumerate_nth_error {A} (l : list A) i a :
  nth_error l i = Some a -> nth_error (enumerate l) i = Some (i, a).
Proof. apply (combine_seq_nth_error l 0). Qed.

Lemma firstn_nil_iff {A} (n : nat) (l : list A) :
  l <> [] -> (firstn n l = [] <-> n = 0%nat).
Proof.
  intros Hl. destruct n, l; simpl; split; intros; congruence.
Qed.

(** What one example of [_RAPS_SET] goes through. *)
Lemma raps_set_row_inv row tau i s :
  raps_set_row lambd k_reg u row tau i = Ok s ->
  exists pe v cut_i,
    raps_proba_excess lambd k_reg row tau = Ok pe /\
    raps_v lambd k_reg row tau = Ok v /\
    raps_cut lambd k_reg u row tau i = Ok cut_i /\
    cut_i = (if ext_leb v (u i)
             then raps_L lambd k_reg row tau - 1
             else raps_L lambd k_reg row tau)%Z /\
    s = raps_set_of_cut row cut_i.
Proof.
  unfold raps_set_row, raps_cut.
  destruct (raps_v lambd k_reg row tau) as [v|e] eqn:Hv; simpl; [|discriminate].
  intros H. inversion H; subst s; clear H.
  rewrite raps_v_guarded in Hv.
  destruct (raps_proba_excess lambd k_reg row tau) as [pe|e] eqn:Hpe;
    simpl in Hv; [|discriminate].
  exists pe, v. eexists. repeat split.
Qed.

(** C10.  In [_RAPS_SET] the cut rank [L[i]] is at least [1] on every
    input.  Hence the guard [(L[i] - 1) >= 0] always holds and [v[i]] is
    never the [np.inf] fallback; the cut index is [L[i] - 1] or [L[i]],
    never negative, so the [cut_i < 0] branch is not taken; and a
    prediction set that is returned is empty exactly when its cut index is
    [0], which happens exactly when [v[i] <= u[i]] and [L[i] = 1]. *)
Theorem RAPS_SET_cut_rank (tau : Q) :
  (forall row,
     let L := raps_L lambd k_reg row tau in
     (1 <= L)%Z /\ (L - 1 >=? 0)%Z = true /\
     raps_v lambd k_reg row tau
     = (pe <- raps_proba_excess lambd k_reg row tau ;;
        p <- np_index (sorted_proba row) (L - 1) ;;
        Ok (np_div (tau - pe) p))) /\
  (forall row i cut_i,
     raps_cut lambd k_reg u row tau i = Ok cut_i ->
     let L := raps_L lambd k_reg row tau in
     (cut_i = L - 1 \/ cut_i = L)%Z /\ (0 <= cut_i)%Z /\
     (cut_i <? 0)%Z = false /\
     raps_set_of_cut row cut_i = firstn (Z.to_nat cut_i) (class_ranking row)) /\
  (forall row i s,
     raps_set_row lambd k_reg u row tau i = Ok s ->
     exists v cut_i,
       raps_v lambd k_reg row tau = Ok v /\
       raps_cut lambd k_reg u row tau i = Ok cut_i /\
       s = firstn (Z.to_nat cut_i) (class_ranking row) /\
       (s = [] <-> cut_i = 0%Z) /\
       (cut_i = 0%Z <->
        ext_leb v (u i) = true /\ raps_L lambd k_reg row tau = 1%Z)) /\
  (forall c rows sets i row,
     RAPS_SET lambd k_reg u (Arr2 c rows) tau = Ok sets ->
     nth_error rows i = Some row ->
     exists s, nth_error sets i = Some s /\
               raps_set_row lambd k_reg u row tau i = Ok s).
Proof.
  split; [|split; [|split]].
  - intros row L. pose proof (raps_L_positive row tau) as HL.
    repeat split; [exact HL | apply Z.geb_le; lia | apply raps_v_guarded].
  - intros row i cut_i Hcut L.
    pose proof (raps_L_positive row tau) as HL. fold L in HL.
    unfold raps_cut in Hcut.
    destruct (raps_v lambd k_reg row tau) as [v|e]; simpl in Hcut;
      [|discriminate].
    injection Hcut as Hc. fold L in Hc.
    assert (Hcases : (cut_i = L - 1 \/ cut_i = L)%Z)
      by (destruct (ext_leb v (u i)); auto).
    assert (Hneg : (cut_i <? 0)%Z = false) by (apply Z.ltb_ge; lia).
    repeat split; [exact Hcases | lia | exact Hneg |].
    unfold raps_set_of_cut. now rewrite Hneg.
  - intros row i s Hs.
    destruct (raps_set_row_inv _ _ _ Hs)
      as (pe & v & cut_i & Hpe & Hv & Hcut & Hc & Hset).
    pose proof (raps_L_positive row tau) as HL.
    pose proof (raps_proba_excess_in_range _ _ Hpe) as Hrange.
    assert (Hnneg : (0 <= cut_i)%Z) by (destruct (ext_leb v (u i)); lia).
    assert (Hneg : (cut_i <? 0)%Z = false) by (apply Z.ltb_ge; lia).
    unfold raps_set_of_cut in Hset. rewrite Hneg in Hset.
    exists v, cut_i. repeat split; auto.
    + subst s. intros H. apply firstn_nil_iff in H; [lia|].
      intros Hnil. pose proof (class_ranking_length row) as Hlen.
      rewrite Hnil in Hlen. simpl in Hlen. lia.
    + intros ->. now subst s.
    + destruct (ext_leb v (u i)); [reflexivity | lia].
    + destruct (ext_leb v (u i)); lia.
    + intros [Hle H1]. rewrite Hle in Hc. lia.
  - intros c rows sets i row Hsets Hrow. simpl in Hsets.
    destruct (mapM_nth_error _ _ _ Hsets (enumerate_nth_error _ _ Hrow))
      as (s & Hs & Hn).
    exists s. split; assumption.
Qed.

End RapsSet.

Section RapsSetExamples.
Import NonConformityScores PredictionSets.

(** An empty prediction set does arise: one example with two equally
    likely classes, threshold [1/10], draw [1/2]. *)
Example RAPS_SET_empty_set :
  RAPS_SET 0 1 (fun _ => 1 # 2) (Arr2 2 [[1 # 2; 1 # 2]]) (1 # 10) = Ok [[]]
  /\ raps_L 0 1 [1 # 2; 1 # 2] (1 # 10) = 1%Z.
Proof. split; vm_compute; reflexivity. Qed.

(** C3 fails on the code.  For two equally likely classes and
    [tau = 7/10] (with [lambd = 0], [k_reg = 1]) the cut rank is [L = 2],
    the excess is [-1/2] and the cutoff fraction is
    [v = (7/10 + 1/2) / (1/2) = 12/5 > 1].  [RAPS_SCORE] puts the class at
    that rank below [tau] exactly for draws up to [2/5], the value of
    [(tau + proba_excess) / sorted_proba]. *)
Lemma RAPS_SET_cutoff_fraction_exceeds_one :
  let row := [1 # 2; 1 # 2] in
  let tau := 7 # 10 in
  Qsum row == 1 /\ Forall (fun p => 0 <= p) row /\
  raps_L 0 1 row tau = 2%Z /\
  (exists pe v,
     raps_proba_excess 0 1 row tau = Ok pe /\ pe == - (1 # 2) /\
     raps_v 0 1 row tau = Ok (Fin v) /\ v == 12 # 5 /\ ~ v <= 1 /\
     (tau + pe) / (1 # 2) == 2 # 5) /\
  forall r, exists score,
    raps_score_at 0 1 (fun _ => r) [row] 0 1 = Ok score /\
    (score <= tau <-> r <= 2 # 5).
Proof.
  cbv zeta. split; [reflexivity|].
  split; [repeat constructor; discriminate|].
  split; [reflexivity|].
  split.
  - eexists; eexists.
    split; [vm_compute; reflexivity|].
    split; [reflexivity|].
    split; [vm_compute; reflexivity|].
    split; [reflexivity|].
    split; [intros H; vm_compute in H; apply H; reflexivity | reflexivity].
  - intros r. eexists. split; [reflexivity|].
    cbn. split; intros H; lra.
Qed.

End RapsSetExamples.

(* ================================================================= *)
(** ** BaseCalibrator.calibrate: the order of the checks *)

Section CalibrateOrder.
Import BaseCalibrator.
Variables Pred Truth Out W : Type.
Variable nonconf_score_func : Pred -> Truth -> result (list Q).
Variable pred_set_func : Pred -> list ext -> result Out.
Variable check_alpha_calib : Q -> nat -> result unit.
Variable quantile : list ext -> Q -> option W -> result ext.

Local Abbreviation calibrate :=
  (BaseCalibrator.calibrate pred_set_func check_alpha_calib quantile).

Lemma fit_stores_size (self s : state) (y_true : Truth) (y_pred : Pred) :
  fit nonconf_score_func self y_true y_pred = Ok s ->
  exists r, nonconf_score_func y_pred y_true = Ok r /\
            _residuals s = Some r /\ _len_calib s = length r.
Proof.
  unfold fit. destruct (nonconf_score_func y_pred y_true) as [r|e]; simpl;
    [|discriminate].
  intros H. inversion H; subst; simpl. now exists r.
Qed.

Lemma calibrate_unfit self alpha y_pred weights :
  _residuals self = None ->
  calibrate self alpha y_pred weights = (Err RuntimeError, []).
Proof. unfold BaseCalibrator.calibrate. now intros ->. Qed.

Lemma calibrate_infeasible self alpha y_pred weights residuals e :
  _residuals self = Some residuals ->
  check_alpha_calib alpha (_len_calib self) = Err e ->
  calibrate self alpha y_pred weights
  = (Err e, [EvCheckAlpha W alpha (_len_calib self)]).
Proof.
  unfold BaseCalibrator.calibrate. intros -> He.
  unfold call, tbind. now rewrite He.
Qed.

Lemma calibrate_trace_head self alpha y_pred weights residuals :
  _residuals self = Some residuals ->
  exists rest,
    snd (calibrate self alpha y_pred weights)
    = EvCheckAlpha W alpha (_len_calib self) :: rest.
Proof.
  unfold BaseCalibrator.calibrate. intros ->.
  unfold call at 1. unfold tbind at 1.
  destruct (check_alpha_calib alpha (_len_calib self)) as [[]|e].
  - match goal with |- context [let (_, _) := ?k in _] => destruct k as [r t] end.
    now exists t.
  - now exists [].
Qed.

(** C5.  [calibrate] checks before it computes.  On a calibrator that was
    never fitted it raises the sequencing error and calls nothing.  On a
    fitted one the first call is the feasibility check of [alpha] against
    the stored calibration size; when that check fails the call aborts
    with its error and no quantile has been asked for.  In every run, a
    quantile call is preceded by a successful feasibility check.  The
    stored size is the number of residuals [fit] computed. *)
Theorem calibrate_checks_first (self : state) (alpha : Q) (y_pred : Pred)
    (weights : option (list W)) :
  let n := _len_calib self in
  let run := calibrate self alpha y_pred weights in
  (_residuals self = None -> run = (Err RuntimeError, [])) /\
  (forall residuals e,
     _residuals self = Some residuals ->
     check_alpha_calib alpha n = Err e ->
     run = (Err e, [EvCheckAlpha W alpha n]) /\
     forallb (fun ev => negb (is_quantile_call ev)) (snd run) = true) /\
  (forall residuals,
     _residuals self = Some residuals ->
     exists rest, snd run = EvCheckAlpha W alpha n :: rest) /\
  (forall before ev after,
     snd run = before ++ ev :: after ->
     is_quantile_call ev = true ->
     exists residuals rest,
       _residuals self = Some residuals /\
       check_alpha_calib alpha n = Ok tt /\
       before = EvCheckAlpha W alpha n :: rest) /\
  (forall self0 y_true y_pred0,
     fit nonconf_score_func self0 y_true y_pred0 = Ok self ->
     exists r, _residuals self = Some r /\ n = length r).
Proof.
  intros n run. split; [|split; [|split; [|split]]].
  - apply calibrate_unfit.
  - intros residuals e Hr He. subst run n.
    rewrite calibrate_infeasible with (residuals := residuals) (e := e);
      auto.
  - intros residuals Hr. now apply calibrate_trace_head with residuals.
  - intros before ev after Ht Hq. subst run.
    destruct (_residuals self) as [residuals|] eqn:Hr.
    + destruct calibrate_trace_head
        with (self := self) (alpha := alpha) (y_pred := y_pred)
             (weights := weights) (residuals := residuals) as [rest Hrest];
        [assumption|].
      rewrite Hrest in Ht. fold n in Ht.
      destruct (check_alpha_calib alpha n) as [[]|e] eqn:Hc.
      * destruct before as [|b before]; simpl in Ht; inversion Ht; subst.
        -- discriminate Hq.
        -- now exists residuals, before.
      * rewrite calibrate_infeasible with (residuals := residuals) (e := e)
          in Hrest by assumption.
        simpl in Hrest.
        inversion Hrest; subst rest.
        destruct before as [|b [|b' before]]; simpl in Ht; inversion Ht; subst.
        discriminate Hq.
    + rewrite calibrate_unfit in Ht by assumption. simpl in Ht.
      destruct before; discriminate.
  - intros self0 y_true y_pred0 Hfit.
    destruct fit_stores_size with (1 := Hfit) as (r & _ & Hres & Hlen).
    now exists r.
Qed.

End CalibrateOrder.

Section CalibrateExample.
Import BaseCalibrator.

(** The spec's scenario: residuals [1..5] and [alpha = 1/5]; the sample
    augmented with infinity has six values, its [4/5]-quantile is [5],
    and the interval around [10] is [(5, 15)].  The run asks for the
    feasibility check, then one quantile, then the set. *)
Example calibrate_scenario :
  let fitted := {| _len_calib := 5;
                   _residuals := Some [1; 2; 3; 4; 5];
                   _norm_weights := None |} in
  let sample := [Fin 1; Fin 2; Fin 3; Fin 4; Fin 5; PInf] in
  BaseCalibrator.calibrate Utils.constant_interval_set
    Utils.check_alpha_calib Utils.quantile fitted (1 # 5) (Arr1 [10]) None
  = (Ok (Arr1 [5], Arr1 [15]),
     [EvCheckAlpha (list Q) (1 # 5) 5;
      EvQuantile sample (1 - (1 # 5)) None;
      EvPredSet (list Q) [Fin 5]]).
Proof. reflexivity. Qed.

End CalibrateExample.

(* ================================================================= *)
(** ** RAPS nonconformity score *)

Section RapsScore.
Import NonConformityScores.

Lemma Qopp_opp_eq (x : Q) : Qopp (Qopp x) = x.
Proof. destruct x as [n d]. unfold Qopp. simpl. now rewrite Z.opp_involutive. Qed.

(** The sorted probabilities are the probabilities of the ranked
    classes. *)
Lemma sorted_proba_ranking (row : list Q) :
  sorted_proba row = map (fun k => nth k row 0) (class_ranking row).
Proof.
  unfold sorted_proba, class_ranking.
  rewrite np_sort_argsort, map_map. apply map_ext. intros k.
  change 0 with (Qopp 0) at 1. rewrite map_nth. apply Qopp_opp_eq.
Qed.

Lemma filter_length_perm {A} (P : A -> bool) (l l' : list A) :
  Permutation l l' -> length (filter P l) = length (filter P l').
Proof.
  induction 1 as [|a l l' _ IH|a b l|l l' l'' _ IH1 _ IH2]; simpl; auto.
  - destruct (P a); simpl; congruence.
  - destruct (P a), (P b); reflexivity.
  - congruence.
Qed.

Lemma filter_all {A} (P : A -> bool) (l : list A) :
  Forall (fun a => P a = true) l -> filter P l = l.
Proof.
  induction 1 as [|a l Ha _ IH]; simpl; auto. now rewrite Ha, IH.
Qed.

Lemma filter_none {A} (P : A -> bool) (l : list A) :
  Forall (fun a => P a = false) l -> filter P l = [].
Proof.
  induction 1 as [|a l Ha _ IH]; simpl; auto. now rewrite Ha.
Qed.

Lemma sorted_proba_perm (row : list Q) : Permutation (sorted_proba row) row.
Proof.
  unfold sorted_proba, np_sort.
  rewrite (Permutation_map Qopp (sort_by_perm Qle_bool (map Qopp row))).
  rewrite map_map. erewrite map_ext; [rewrite map_id; reflexivity|].
  apply Qopp_opp_eq.
Qed.

Lemma count_le_lt_eq (p : Q) (row : list Q) :
  length (filter (fun q => Qle_bool p q) row)
  = (length (filter (fun q => Qlt_bool p q) row)
     + length (filter (fun q => Qeq_bool q p) row))%nat.
Proof.
  induction row as [|q row IH]; simpl; [reflexivity|].
  unfold Qlt_bool at 1.
  destruct (Qle_bool p q) eqn:Hle, (Qle_bool q p) eqn:Hge,
           (Qeq_bool q p) eqn:Heq; simpl; rewrite IH; try lia; exfalso.
  - apply Qle_bool_iff in Hle, Hge. apply Qeq_bool_neq in Heq. lra.
  - apply Qeq_bool_iff in Heq. apply Qle_bool_iff in Hle.
    assert (H : q <= p) by lra. apply Qle_bool_iff in H. congruence.
  - apply Qeq_bool_iff in Heq.
    assert (H : p <= q) by lra. apply Qle_bool_iff in H. congruence.
  - apply Qeq_bool_iff in Heq.
    assert (H : p <= q) by lra. apply Qle_bool_iff in H. congruence.
  - destruct (Qlt_le_dec q p) as [H|H].
    + assert (H' : q <= p) by lra. apply Qle_bool_iff in H'. congruence.
    + apply Qle_bool_iff in H. congruence.
Qed.

(** Around a position of a list in descending order: what comes before
    is not smaller, what comes after is not larger. *)
Lemma descending_split (s1 s2 : list Q) (v : Q) :
  StronglySorted (fun a b => b <= a) (s1 ++ v :: s2) ->
  Forall (fun a => v <= a) s1 /\ Forall (fun b => b <= v) s2.
Proof.
  induction s1 as [|a s1 IH]; simpl; intros H; inversion H as [|? ? Hs Hall];
    subst.
  - split; [constructor | exact Hall].
  - destruct (IH Hs) as [H1 H2]. split; [|exact H2].
    constructor; [|exact H1].
    rewrite Forall_forall in Hall. apply Hall.
    apply in_or_app. right. now left.
Qed.

Lemma Qle_bool_total (x y : Q) : Qle_bool x y = false -> Qle_bool y x = true.
Proof.
  intros H. apply Qle_bool_iff.
  destruct (Qlt_le_dec y x) as [Hlt|Hle].
  - now apply Qlt_le_weak.
  - apply Qle_bool_iff in Hle. congruence.
Qed.

Lemma StronglySorted_map {A B} (R : B -> B -> Prop) (f : A -> B) (l : list A) :
  StronglySorted (fun a b => R (f a) (f b)) l -> StronglySorted R (map f l).
Proof.
  induction 1 as [|a l Hs IH Hall]; simpl; constructor; auto.
  rewrite Forall_map. exact Hall.
Qed.

Lemma StronglySorted_weaken {A} (R S : A -> A -> Prop) (l : list A) :
  (forall a b, R a b -> S a b) -> StronglySorted R l -> StronglySorted S l.
Proof.
  intros HRS. induction 1 as [|a l Hs IH Hall]; constructor; auto.
  eapply Forall_impl; [|exact Hall]. auto.
Qed.

(** The sorted probabilities are in descending order. *)
Lemma sorted_proba_descending (row : list Q) :
  StronglySorted (fun a b => b <= a) (sorted_proba row).
Proof.
  unfold sorted_proba, np_sort. apply StronglySorted_map.
  apply StronglySorted_weaken with (R := fun a b => Qle_bool a b = true).
  - intros a b H. apply Qle_bool_iff in H. lra.
  - apply Sorted_StronglySorted.
    + intros a b c Hab Hbc. apply Qle_bool_iff in Hab, Hbc.
      apply Qle_bool_iff. lra.
    + apply sort_by_sorted. apply Qle_bool_total.
Qed.

Lemma find_index_In (y : nat) (l : list nat) :
  In y l ->
  exists L, find_index (Nat.eqb y) l = Some L /\
            nth_error l L = Some y /\
            forall j, (j < L)%nat -> nth_error l j <> Some y.
Proof.
  induction l as [|x l IH]; simpl; intros Hin; [contradiction|].
  destruct (Nat.eqb y x) eqn:Hyx.
  - apply Nat.eqb_eq in Hyx. subst x. exists 0%nat. repeat split. lia.
  - apply Nat.eqb_neq in Hyx. destruct Hin as [->|Hin]; [congruence|].
    destruct (IH Hin) as (L & HL & Hn & Hfirst). exists (S L).
    rewrite HL. repeat split; auto.
    intros [|j] Hj; simpl.
    + congruence.
    + apply Hfirst. lia.
Qed.

Lemma cumsum_from_nth (acc : Q) (l : list Q) (L : nat) :
  (L < length l)%nat ->
  exists v, nth_error (cumsum_from acc l) L = Some v /\
            v == acc + Qsum (firstn (S L) l).
Proof.
  revert acc L; induction l as [|x l IH]; intros acc L HL;
    [simpl in HL; lia|].
  destruct L as [|L].
  - exists (acc + x). split; [reflexivity|].
    rewrite firstn_cons, firstn_O. cbn [Qsum]. ring.
  - destruct (IH (acc + x) L) as (v & Hv & Heq); [simpl in HL; lia|].
    exists v. split; [exact Hv|].
    rewrite Heq, (firstn_cons (S L) x l). cbn [Qsum]. ring.
Qed.

Lemma cumsum_nth (l : list Q) (L : nat) :
  (L < length l)%nat ->
  exists v, nth_error (cumsum l) L = Some v /\ v == Qsum (firstn (S L) l).
Proof.
  destruct l as [|x l]; intros HL; [simpl in HL; lia|].
  destruct L as [|L].
  - exists x. split; [reflexivity|].
    rewrite firstn_cons, firstn_O. cbn [Qsum]. ring.
  - destruct cumsum_from_nth with (acc := x) (l := l) (L := L)
      as (v & Hv & Heq); [simpl in HL; lia|].
    exists v. split; [exact Hv|].
    rewrite Heq, (firstn_cons (S L) x l). cbn [Qsum]. reflexivity.
Qed.

Lemma enumerate_In {A} (l : list A) i a :
  In (i, a) (enumerate l) -> nth_error l i = Some a.
Proof.
  unfold enumerate.
  assert (H : forall s, In (i, a) (combine (seq s (length l)) l) ->
                        (s <= i)%nat /\ nth_error l (i - s) = Some a).
  { induction l as [|x l IH]; simpl; intros s Hin; [contradiction|].
    destruct Hin as [Heq|Hin].
    - inversion Heq; subst. now rewrite Nat.sub_diag.
    - destruct (IH _ Hin) as [Hle Hn]. split; [lia|].
      replace (i - s)%nat with (S (i - S s)) by lia. exact Hn. }
  intros Hin. destruct (H 0%nat Hin) as [_ Hn].
  now rewrite Nat.sub_0_r in Hn.
Qed.

Lemma mapM_exists {A B} (f : A -> result B) (l : list A) :
  (forall a, In a l -> exists b, f a = Ok b) -> exists r, mapM f l = Ok r.
Proof.
  induction l as [|a l IH]; simpl; intros H.
  - now exists [].
  - destruct (H a (or_introl eq_refl)) as [b Hb].
    destruct IH as [r Hr]; [intros; apply H; auto|].
    exists (b :: r). now rewrite Hb, Hr.
Qed.

Lemma mapM_ext_in {A B} (f g : A -> result B) (l : list A) :
  (forall a, In a l -> f a = g a) -> mapM f l = mapM g l.
Proof.
  induction l as [|a l IH]; simpl; intros H; auto.
  rewrite (H a) by auto. rewrite IH by auto. reflexivity.
Qed.

Variables (lambd : Q) (k_reg : Z).

(** One example: the rank of the true class and the score. *)
Lemma raps_score_at_formula (rand : nat -> Q) rows i row y :
  nth_error rows i = Some row -> (y < length row)%nat ->
  exists L cum_mass_up_to_L prob_at_L,
    raps_score_at lambd k_reg rand rows i y
    = Ok (cum_mass_up_to_L + (rand i - 1) * prob_at_L
          + lambd * inject_Z (Z.max (Z.of_nat L - k_reg + 1) 0)) /\
    nth_error (class_ranking row) L = Some y /\
    (forall j, (j < L)%nat -> nth_error (class_ranking row) j <> Some y) /\
    nth_error (sorted_proba row) L = Some prob_at_L /\
    nth_error (sorted_cum_mass row) L = Some cum_mass_up_to_L /\
    cum_mass_up_to_L == Qsum (firstn (S L) (sorted_proba row)).
Proof.
  intros Hrow Hy.
  assert (Hin : In y (class_ranking row)).
  { apply (Permutation_in _ (Permutation_sym (class_ranking_perm row))).
    apply in_seq. lia. }
  destruct (find_index_In _ _ Hin) as (L & HL & HnL & Hfirst).
  assert (HLlen : (L < length row)%nat).
  { rewrite <- (class_ranking_length row). apply nth_error_Some. congruence. }
  destruct cumsum_nth with (l := sorted_proba row) (L := L)
    as (cm & Hcm & Hcmeq); [now rewrite sorted_proba_length|].
  destruct (nth_error (sorted_proba row) L) as [p|] eqn:Hp.
  2:{ apply nth_error_None in Hp. rewrite sorted_proba_length in Hp. lia. }
  exists L, cm, p. repeat split; auto.
  unfold raps_score_at, raps_rank, get. rewrite Hrow. cbn [of_option bind].
  rewrite HL. cbn [of_option bind]. unfold sorted_cum_mass.
  rewrite Hcm. cbn [of_option bind]. rewrite Hp. reflexivity.
Qed.

(** A position that holds [p] in the descending order comes after every
    larger value and within the values that are at least [p]. *)
Lemma rank_between_ties (row : list Q) (L : nat) (p : Q) :
  nth_error (sorted_proba row) L = Some p ->
  (length (filter (fun q => Qlt_bool p q) row) <= L)%nat /\
  (L < length (filter (fun q => Qle_bool p q) row))%nat.
Proof.
  intros Hp.
  pose proof (sorted_proba_perm row) as Hperm.
  pose proof (sorted_proba_descending row) as Hdesc.
  destruct (nth_error_split _ _ Hp) as (s1 & s2 & Hs & Hlen).
  rewrite Hs in Hdesc. destruct (descending_split _ _ _ Hdesc) as [Hb Ha].
  rewrite <- !(filter_length_perm _ Hperm), Hs, !filter_app. simpl.
  assert (Hpp : Qlt_bool p p = false).
  { unfold Qlt_bool. replace (Qle_bool p p) with true
      by (symmetry; apply Qle_bool_iff; lra). reflexivity. }
  assert (Hpp' : Qle_bool p p = true) by (apply Qle_bool_iff; lra).
  rewrite Hpp, Hpp'.
  rewrite (filter_none (fun q => Qlt_bool p q) (l := s2)).
  2:{ eapply Forall_impl; [|exact Ha]. intros b Hle. unfold Qlt_bool.
      apply Qle_bool_iff in Hle. now rewrite Hle. }
  rewrite (filter_all (fun q => Qle_bool p q) (l := s1))
    by (eapply Forall_impl; [|exact Hb]; intros a Hle; now apply Qle_bool_iff).
  rewrite app_nil_r, !length_app. simpl.
  pose proof (filter_length_le (fun q => Qlt_bool p q) s1). lia.
Qed.

(** C4.  For a probability matrix with [C] classes, true classes below
    [C], one per row, and draws [rand], [RAPS_SCORE(lambd, k_reg)] returns
    for each example
    [cum_mass_up_to_L + (rand[i] - 1) * prob_at_L
     + lambd * max(L - k_reg + 1, 0)],
    where [L] is the (0-based) position of the true class when the
    classes are put in descending order of probability, [prob_at_L] the
    sorted probability there, which is the probability of the true
    class, and [cum_mass_up_to_L] the sum of the sorted probabilities up
    to and including [L].  The position [L] comes after every class of
    larger probability and within the classes of probability at least
    that of the true class; when no other class has the probability of
    the true class, [L] is the number of classes of larger probability.
    Among classes of equal probability the order is the sorting
    library's, and the statement holds for each.  The scores depend on
    the draws only through [rand[i]] for the examples scored. *)
Theorem RAPS_SCORE_formula (rand : nat -> Q) (C : nat)
    (rows : list (list Q)) (y_true : list nat) :
  length rows = length y_true ->
  Forall (fun row => length row = C) rows ->
  Forall (fun y => (y < C)%nat) y_true ->
  exists scores,
    RAPS_SCORE lambd k_reg rand (Arr2 C rows) y_true = Ok scores /\
    length scores = length y_true /\
    (forall i row y,
       nth_error rows i = Some row -> nth_error y_true i = Some y ->
       let p_true := nth y row 0 in
       exists L score cum_mass_up_to_L prob_at_L,
         nth_error scores i = Some score /\
         (length (filter (fun q => Qlt_bool p_true q) row) <= L)%nat /\
         (L < length (filter (fun q => Qle_bool p_true q) row))%nat /\
         (length (filter (fun q => Qeq_bool q p_true) row) = 1%nat ->
          L = length (filter (fun q => Qlt_bool p_true q) row)) /\
         Permutation (sorted_proba row) row /\
         StronglySorted (fun a b => b <= a) (sorted_proba row) /\
         nth_error (sorted_proba row) L = Some prob_at_L /\
         prob_at_L = p_true /\
         cum_mass_up_to_L == Qsum (firstn (S L) (sorted_proba row)) /\
         score = cum_mass_up_to_L + (rand i - 1) * prob_at_L
                 + lambd * inject_Z (Z.max (Z.of_nat L - k_reg + 1) 0)) /\
    (forall rand',
       (forall i, (i < length y_true)%nat -> rand' i = rand i) ->
       RAPS_SCORE lambd k_reg rand' (Arr2 C rows) y_true = Ok scores).
Proof.
  intros Hlen Hrows Hy.
  assert (Hrow_of : forall i y, nth_error y_true i = Some y ->
            exists row, nth_error rows i = Some row /\ (y < length row)%nat).
  { intros i y Hiy.
    assert (Hi : (i < length rows)%nat)
      by (rewrite Hlen; apply nth_error_Some; congruence).
    destruct (nth_error rows i) as [row|] eqn:Hrow;
      [|apply nth_error_None in Hrow; lia].
    exists row. split; [reflexivity|].
    rewrite Forall_forall in Hrows, Hy.
    rewrite (Hrows row (nth_error_In _ _ Hrow)).
    apply Hy. eapply nth_error_In; eauto. }
  destruct (mapM_exists
              (fun iy => raps_score_at lambd k_reg rand rows (fst iy) (snd iy))
              (enumerate y_true)) as [scores Hscores].
  { intros [i y] Hin. apply enumerate_In in Hin. simpl.
    destruct (Hrow_of _ _ Hin) as (row & Hrow & Hyrow).
    destruct (raps_score_at_formula rand _ _ Hrow Hyrow)
      as (L & cm & p & Hs & _). eauto. }
  exists scores. split; [exact Hscores|]. split; [|split].
  - rewrite (mapM_length _ _ Hscores). unfold enumerate.
    rewrite length_combine, length_seq. lia.
  - intros i row y Hrow Hiy p_true.
    destruct (mapM_nth_error _ _ _ Hscores (enumerate_nth_error _ _ Hiy))
      as (score & Hscore & Hn). simpl in Hscore.
    destruct (Hrow_of _ _ Hiy) as (row' & Hrow' & Hyrow).
    assert (row' = row) by congruence. subst row'.
    destruct (raps_score_at_formula rand _ _ Hrow Hyrow)
      as (L & cm & p & Hs & HnL & Hfirst & Hp & _ & Hcm).
    assert (Hpy : p = p_true).
    { pose proof Hp as Hp'. rewrite sorted_proba_ranking in Hp'.
      rewrite nth_error_map, HnL in Hp'. cbn [option_map] in Hp'.
      unfold p_true. now injection Hp' as <-. }
    destruct (rank_between_ties row L Hp) as [Hgt Hge].
    rewrite Hpy in Hgt, Hge.
    exists L, score, cm, p.
    split; [exact Hn|]. split; [exact Hgt|]. split; [exact Hge|].
    split.
    { intros Hone. rewrite count_le_lt_eq, Hone in Hge. lia. }
    split; [apply sorted_proba_perm|].
    split; [apply sorted_proba_descending|].
    split; [exact Hp|]. split; [exact Hpy|]. split; [exact Hcm|].
    congruence.
  - intros rand' Hrand. simpl. rewrite <- Hscores.
    apply mapM_ext_in. intros [i y] Hin. simpl.
    apply enumerate_In in Hin.
    assert (Hi : (i < length y_true)%nat) by (apply nth_error_Some; congruence).
    unfold raps_score_at. rewrite (Hrand i Hi). reflexivity.
Qed.

End RapsScore.

Section RapsScoreWitness.
Import NonConformityScores.

Lemma RAPS_SCORE_formula_witness :
  let rows := [[1 # 5; 1 # 2; 3 # 10]; [1 # 10; 9 # 10; 0]] in
  let y_true := [2%nat; 0%nat] in
  length rows = length y_true /\
  Forall (fun row => length row = 3%nat) rows /\
  Forall (fun y => (y < 3)%nat) y_true /\
  exists scores,
    RAPS_SCORE 0 1 (fun _ => 1 # 2) (Arr2 3 rows) y_true = Ok scores /\
    length scores = 2%nat.
Proof.
  cbv zeta.
  assert (Hlen : length [[1 # 5; 1 # 2; 3 # 10]; [1 # 10; 9 # 10; 0]]
                 = length [2%nat; 0%nat]) by reflexivity.
  assert (Hrows : Forall (fun row : list Q => length row = 3%nat)
                    [[1 # 5; 1 # 2; 3 # 10]; [1 # 10; 9 # 10; 0]])
    by (repeat constructor).
  assert (Hy : Forall (fun y => (y < 3)%nat) [2%nat; 0%nat])
    by (repeat constructor).
  repeat (split; [assumption|]).
  destruct (@RAPS_SCORE_formula 0 1%Z (fun _ : nat => 1 # 2) 3%nat _ _
              Hlen Hrows Hy) as (scores & H & Hl & _).
  exists scores. split; assumption.
Defined.

(** The same input evaluated: ranks [1] and [1], scores [13/20] and
    [19/20]. *)
Example RAPS_SCORE_values :
  exists s1 s2,
    RAPS_SCORE 0 1 (fun _ => 1 # 2)
      (Arr2 3 [[1 # 5; 1 # 2; 3 # 10]; [1 # 10; 9 # 10; 0]]) [2%nat; 0%nat]
    = Ok [s1; s2] /\ s1 == 13 # 20 /\ s2 == 19 # 20.
Proof. eexists; eexists. split; [vm_compute; reflexivity|]. split; reflexivity. Qed.

End RapsScoreWitness.

(* ================================================================= *)
(** ** CvPlusCalibrator.calibrate *)

Section CvPlusCalibrate.
Import CvPlusCalibrator CvPlusSpec.

Lemma bc_dim_one_r n : bc_dim n 1 = Ok n.
Proof.
  unfold bc_dim. destruct (n =? 1)%nat eqn:H; simpl; auto.
Qed.

Lemma bc_dim_one_l m : bc_dim 1 m = Ok m.
Proof.
  unfold bc_dim. destruct (1 =? m)%nat eqn:H; simpl; auto.
  apply Nat.eqb_eq in H. now subst.
Qed.

Lemma map2_repeat_l {A B C} (f : A -> B -> C) (x : A) (v : list B) :
  map2 f (repeat x (length v)) v = map (f x) v.
Proof. induction v as [|b v IH]; simpl; congruence. Qed.

Lemma map2_repeat_r {A B C} (f : A -> B -> C) (u : list A) (y : B) :
  map2 f u (repeat y (length u)) = map (fun a => f a y) u.
Proof. induction u as [|a u IH]; simpl; congruence. Qed.

Lemma map2_map_same {A B C D} (f : B -> C -> D) (g : A -> B) (h : A -> C)
    (l : list A) :
  map2 f (map g l) (map h l) = map (fun a => f (g a) (h a)) l.
Proof. induction l as [|a l IH]; simpl; congruence. Qed.

Lemma map_seq_nth {A B} (h : A -> B) (d : A) (l : list A) :
  map h l = map (fun i => h (nth i l d)) (seq 0 (length l)).
Proof.
  induction l as [|a l IH]; simpl; auto.
  f_equal. rewrite IH at 1. rewrite <- seq_shift, map_map. reflexivity.
Qed.

Lemma mapM_map {A B C} (f : B -> result C) (g : A -> B) (l : list A) :
  mapM f (map g l) = mapM (fun a => f (g a)) l.
Proof. induction l as [|a l IH]; simpl; auto. now rewrite IH. Qed.

Lemma mapM_bind_map {A B C} (f : A -> result B) (g : B -> C) (l : list A) :
  mapM (fun a => t <- f a ;; Ok (g t)) l = (r <- mapM f l ;; Ok (map g r)).
Proof.
  induction l as [|a l IH]; simpl; auto.
  destruct (f a) as [b|e]; simpl; auto.
  rewrite IH. destruct (mapM f l); reflexivity.
Qed.

(** One fold: the column of predictions against the row of residuals. *)
Lemma broadcast_column_row (f : Q -> Q -> Q) (y_pred residuals : list Q) :
  nd_map2 f (as_column y_pred) (as_row residuals)
  = Ok (Arr2 (length residuals)
          (map (fun i => map (fun r => f (nth i y_pred 0) r) residuals)
               (seq 0 (length y_pred)))).
Proof.
  unfold as_column, as_row. cbn [nd_map2]. unfold bc_mat.
  rewrite length_map. cbn [length]. rewrite bc_dim_one_r, bc_dim_one_l.
  cbn [bind]. f_equal. f_equal.
  rewrite <- (length_map (fun x : Q => [x]) y_pred) at 1.
  rewrite stretch_same. cbn [stretch].
  rewrite <- (length_map (fun x : Q => [x]) y_pred) at 1.
  rewrite map2_repeat_r, map_map.
  rewrite (map_seq_nth _ 0 y_pred). apply map_ext. intros i.
  cbn [stretch]. rewrite stretch_same. apply map2_repeat_l.
Qed.

Lemma CONSTANT_INTERVAL_column_row (y_pred residuals : list Q) :
  PredictionSets.CONSTANT_INTERVAL (as_column y_pred) (as_row residuals)
  = Ok (Arr2 (length residuals)
          (map (fun i => map (fun r => nth i y_pred 0 - r) residuals)
               (seq 0 (length y_pred))),
        Arr2 (length residuals)
          (map (fun i => map (fun r => nth i y_pred 0 + r) residuals)
               (seq 0 (length y_pred)))).
Proof.
  unfold PredictionSets.CONSTANT_INTERVAL. cbn [sub add Arith_Q].
  now rewrite !broadcast_column_row.
Qed.

Variable X : Type.
Variables (self : t) (x : X) (n_test : nat).

Local Abbreviation fold_of := (CvPlusSpec.fold_of self x n_test).
Local Abbreviation candidate_matrix := (CvPlusSpec.candidate_matrix n_test).

Lemma candidate_bounds_snoc op folds f i :
  candidate_bounds op (folds ++ [f]) i
  = candidate_bounds op folds i ++ map (fun r => op (nth i (fst f) 0) r) (snd f).
Proof.
  unfold candidate_bounds. rewrite flat_map_app. simpl. now rewrite app_nil_r.
Qed.

Lemma n_candidates_snoc folds f :
  n_candidates (folds ++ [f]) = (n_candidates folds + length (snd f))%nat.
Proof.
  unfold n_candidates. rewrite map_app, list_sum_app. simpl. lia.
Qed.

Lemma fold_step_first kp f :
  fold_of kp f ->
  fold_step self x None kp
  = Ok (Some (candidate_matrix Qminus [f], candidate_matrix Qplus [f])).
Proof.
  destruct kp as [k predict]. intros (Hp & Hlen & c & Hc & Hr). simpl in *.
  unfold fold_step. rewrite Hp, Hc. cbn [bind of_option]. rewrite Hr.
  cbn [bind of_option]. rewrite CONSTANT_INTERVAL_column_row, Hlen.
  cbn [bind]. unfold candidate_matrix, n_candidates, candidate_bounds.
  simpl. rewrite Nat.add_0_r. do 4 f_equal;
    apply map_ext; intros i; now rewrite app_nil_r.
Qed.

Lemma fold_step_next done kp f :
  fold_of kp f ->
  fold_step self x
    (Some (candidate_matrix Qminus done, candidate_matrix Qplus done)) kp
  = Ok (Some (candidate_matrix Qminus (done ++ [f]),
              candidate_matrix Qplus (done ++ [f]))).
Proof.
  destruct kp as [k predict]. intros (Hp & Hlen & c & Hc & Hr). simpl in *.
  unfold fold_step. rewrite Hp, Hc. cbn [bind of_option]. rewrite Hr.
  cbn [bind of_option]. rewrite CONSTANT_INTERVAL_column_row, Hlen.
  cbn [bind fst snd]. unfold candidate_matrix, np_concatenate_axis1.
  rewrite !length_map, Nat.eqb_refl. cbn [bind].
  rewrite !map2_map_same, n_candidates_snoc.
  do 4 f_equal; apply map_ext; intros i; now rewrite candidate_bounds_snoc.
Qed.

Lemma fold_loop_next items folds : forall done,
  Forall2 fold_of items folds ->
  fold_loop self x
    (Some (candidate_matrix Qminus done, candidate_matrix Qplus done)) items
  = Ok (Some (candidate_matrix Qminus (done ++ folds),
              candidate_matrix Qplus (done ++ folds))).
Proof.
  intros done H. revert done.
  induction H as [|kp f items folds Hkp _ IH]; intros done; simpl.
  - now rewrite app_nil_r.
  - rewrite (fold_step_next done Hkp). cbn [bind].
    rewrite IH, <- app_assoc. reflexivity.
Qed.

(** The loop leaves the two candidate matrices, one row per test example
    and one column per calibration residual of every fold. *)
Lemma fold_loop_candidates items folds :
  items <> [] -> Forall2 fold_of items folds ->
  fold_loop self x None items
  = Ok (Some (candidate_matrix Qminus folds, candidate_matrix Qplus folds)).
Proof.
  intros Hne H. destruct H as [|kp f items folds Hkp H]; [congruence|].
  simpl. rewrite (fold_step_first Hkp). cbn [bind].
  apply (fold_loop_next [f] H).
Qed.

Lemma calibrate_refines_spec items folds alpha :
  items <> [] -> Forall2 fold_of items folds ->
  calibrate self x items alpha = bounds folds n_test (1 - alpha).
Proof.
  intros Hne H. unfold calibrate. rewrite (fold_loop_candidates Hne H).
  cbn [bind]. unfold candidate_matrix, bounds. cbn [nd_map np_quantile_axis1].
  destruct (negb (Qle_bool 0 (1 - alpha) && Qle_bool (1 - alpha) 1));
    [reflexivity|].
  rewrite !mapM_map. unfold lower_bound, upper_bound.
  rewrite mapM_bind_map.
  destruct (mapM _ (seq 0 n_test)) as [q_lo|e]; reflexivity.
Qed.

Lemma candidate_bounds_length op folds i :
  length (candidate_bounds op folds i) = n_candidates folds.
Proof.
  unfold candidate_bounds, n_candidates. rewrite length_flat_map.
  f_equal. apply map_ext. intros f. apply length_map.
Qed.

Lemma inverted_cdf_index_lt n q :
  (0 < n)%nat -> 0 <= q -> q <= 1 -> (inverted_cdf_index n q < n)%nat.
Proof.
  intros Hn H0 H1. unfold inverted_cdf_index.
  assert (Hle : (Qceiling (inject_Z (Z.of_nat n) * q) <= Z.of_nat n)%Z).
  { rewrite <- (Qceiling_Z (Z.of_nat n)) at 2. apply Qceiling_resp_le.
    assert (0 <= inject_Z (Z.of_nat n))
      by (rewrite <- (Zle_Qle 0); lia).
    nra. }
  lia.
Qed.

(** A quantile of a row with values, at a level in [[0, 1]], is one of
    the values. *)
Lemma np_quantile_Ok row q :
  row <> [] -> 0 <= q -> q <= 1 ->
  exists v, np_quantile row q = Ok v /\ In v row.
Proof.
  intros Hrow H0 H1. unfold np_quantile, np_quantile_by.
  apply Qle_bool_iff in H0 as H0b. apply Qle_bool_iff in H1 as H1b.
  rewrite H0b, H1b. cbn [andb negb].
  assert (Hlt : (inverted_cdf_index (length row) q < length (sort_by Qle_bool row))%nat).
  { rewrite sort_by_length. apply inverted_cdf_index_lt; auto.
    destruct row; [congruence | simpl; lia]. }
  destruct (nth_error (sort_by Qle_bool row) _) as [v|] eqn:Hv;
    [|apply nth_error_None in Hv; lia].
  exists v. split; [reflexivity|].
  apply (Permutation_in _ (sort_by_perm Qle_bool row)).
  eapply nth_error_In; eauto.
Qed.

Lemma mapM_Ok_In {A B} (f : A -> result B) (l : list A) :
  (forall a, In a l -> exists b, f a = Ok b) ->
  exists r, mapM f l = Ok r /\ length r = length l /\
            forall i a, nth_error l i = Some a ->
                        exists b, f a = Ok b /\ nth_error r i = Some b.
Proof.
  intros H. destruct (mapM_exists f l H) as [r Hr]. exists r.
  split; [exact Hr|]. split; [exact (mapM_length _ _ Hr)|].
  intros i a Hi. exact (mapM_nth_error _ _ _ Hr Hi).
Qed.

(** C1 (amended).  For a nonempty dictionary of fold predictors, each
    returning one prediction per test example and each keyed like a fitted
    fold calibrator, [calibrate] builds per fold the candidate bounds
    [CONSTANT_INTERVAL(y_pred column, residuals row)], concatenates them
    column-wise into two matrices of shape [(n_test, sum of the
    calibration sizes)], and returns, row-wise at level [1 - alpha]
    (inverted CDF), the negated quantile of the negated lower matrix and
    the quantile of the upper matrix; with [alpha] in [[0, 1]] and at
    least one residual the call returns.  In the two-fold scenario the
    candidates are [[9, 8, 7, 6]] and [[11, 12, 13, 14]] and the result is
    [(8, 12)]: the upper bound is the [0.5]-quantile of its pooled set,
    the lower bound is the negated [0.5]-quantile of the negated pooled
    set. *)
Theorem calibrate_cvplus :
  (forall (items : dict (predictor X)) (folds : list fold) (alpha : Q),
     items <> [] -> Forall2 fold_of items folds ->
     fold_loop self x None items
     = Ok (Some (candidate_matrix Qminus folds, candidate_matrix Qplus folds)) /\
     shape (candidate_matrix Qminus folds) = [n_test; n_candidates folds] /\
     shape (candidate_matrix Qplus folds) = [n_test; n_candidates folds] /\
     wf_ndarray (candidate_matrix Qminus folds) /\
     wf_ndarray (candidate_matrix Qplus folds) /\
     calibrate self x items alpha = bounds folds n_test (1 - alpha) /\
     (0 <= alpha -> alpha <= 1 -> (0 < n_candidates folds)%nat ->
      exists y_lo y_hi,
        calibrate self x items alpha = Ok (y_lo, y_hi) /\
        length y_lo = n_test /\ length y_hi = n_test /\
        forall i, (i < n_test)%nat ->
          exists t_lo t_hi,
            np_quantile (map (Qmult (-1)) (candidate_bounds Qminus folds i))
                        (1 - alpha) = Ok t_lo /\
            nth_error y_lo i = Some ((-1) * t_lo) /\
            np_quantile (candidate_bounds Qplus folds i) (1 - alpha)
            = Ok t_hi /\
            nth_error y_hi i = Some t_hi)) /\
  (Forall2 (CvPlusSpec.fold_of Scenario.self tt 1)
           Scenario.kfold_predictors_dict Scenario.folds /\
   candidate_bounds Qminus Scenario.folds 0 = [10 - 1; 10 - 2; 10 - 3; 10 - 4] /\
   candidate_bounds Qplus Scenario.folds 0 = [10 + 1; 10 + 2; 10 + 3; 10 + 4] /\
   CvPlusCalibrator.calibrate Scenario.self tt Scenario.kfold_predictors_dict
     (1 # 2) = Ok ([8], [12]) /\
   np_quantile [11; 12; 13; 14] (1 # 2) = Ok 12 /\
   np_quantile [-9; -8; -7; -6] (1 # 2) = Ok (-8)).
Proof.
  split.
  - intros items folds alpha Hne H.
    split; [apply (fold_loop_candidates Hne H)|].
    split; [simpl; now rewrite length_map, length_seq|].
    split; [simpl; now rewrite length_map, length_seq|].
    split; [apply Forall_map, Forall_forall; intros i _;
            apply candidate_bounds_length|].
    split; [apply Forall_map, Forall_forall; intros i _;
            apply candidate_bounds_length|].
    split; [apply (calibrate_refines_spec alpha Hne H)|].
    intros Ha0 Ha1 Hcand.
    assert (Hq0 : 0 <= 1 - alpha) by lra.
    assert (Hq1 : 1 - alpha <= 1) by lra.
    assert (Hrow : forall op i, candidate_bounds op folds i <> []).
    { intros op i Hnil. pose proof (candidate_bounds_length op folds i) as Hl.
      rewrite Hnil in Hl. simpl in Hl. lia. }
    destruct (mapM_Ok_In (lower_bound folds (1 - alpha)) (seq 0 n_test))
      as (y_lo & Hlo & Hlolen & Hloi).
    { intros i _. unfold lower_bound.
      destruct (np_quantile_Ok (row := map (Qmult (-1)) (candidate_bounds Qminus folds i))
                  (q := 1 - alpha)) as (t & Ht & _); auto.
      - intros Hnil. apply map_eq_nil in Hnil. now apply (Hrow Qminus i).
      - rewrite Ht. simpl. eauto. }
    destruct (mapM_Ok_In (upper_bound folds (1 - alpha)) (seq 0 n_test))
      as (y_hi & Hhi & Hhilen & Hhii).
    { intros i _. unfold upper_bound.
      destruct (np_quantile_Ok (row := candidate_bounds Qplus folds i)
                  (q := 1 - alpha)) as (t & Ht & _); eauto. }
    exists y_lo, y_hi.
    rewrite (calibrate_refines_spec alpha Hne H). unfold bounds.
    rewrite (proj2 (Qle_bool_iff _ _) Hq0), (proj2 (Qle_bool_iff _ _) Hq1).
    cbn [andb negb].
    rewrite Hlo, Hhi. cbn [bind].
    rewrite length_seq in Hlolen, Hhilen.
    repeat split; auto.
    intros i Hi.
    assert (Hseq : nth_error (seq 0 n_test) i = Some i).
    { rewrite nth_error_nth' with (d := 0%nat) by (rewrite length_seq; lia).
      now rewrite seq_nth. }
    destruct (Hloi _ _ Hseq) as (lo & Hlo_i & Hnlo).
    destruct (Hhii _ _ Hseq) as (hi & Hhi_i & Hnhi).
    unfold lower_bound in Hlo_i. unfold upper_bound in Hhi_i.
    destruct (np_quantile (map (Qmult (-1)) (candidate_bounds Qminus folds i))
                (1 - alpha)) as [t_lo|e]; simpl in Hlo_i; [|discriminate].
    inversion Hlo_i; subst lo.
    exists t_lo, hi. repeat split; auto.
  - split.
    { repeat constructor; simpl; eexists; split; reflexivity. }
    repeat split; vm_compute; reflexivity.
Qed.

End CvPlusCalibrate.

Section CvPlusScenario.
Import CvPlusSpec.

(** C1 as stated fails in its scenario: the lower bound returned is [8],
    while the [0.5]-quantile (inverted CDF) of the pooled lower candidates
    [[9, 8, 7, 6]] is [7]. *)
Lemma calibrate_lower_bound_is_not_the_pooled_quantile :
  candidate_bounds Qminus Scenario.folds 0 = [10 - 1; 10 - 2; 10 - 3; 10 - 4] /\
  CvPlusCalibrator.calibrate Scenario.self tt Scenario.kfold_predictors_dict
    (1 # 2) = Ok ([8], [12]) /\
  np_quantile [9; 8; 7; 6] (1 # 2) = Ok 7 /\
  ~ 8 == 7.
Proof. repeat split; try (vm_compute; reflexivity). discriminate. Qed.

End CvPlusScenario.

(* ================================================================= *)
(** ** The inverted-CDF rule *)

Section InvertedCdf.

(** Around position [k] of a sorted list: what comes before is not
    larger, what comes after is not smaller. *)
Lemma StronglySorted_split (s1 s2 : list Q) (v : Q) :
  StronglySorted (fun a b => Qle_bool a b = true) (s1 ++ v :: s2) ->
  Forall (fun a => a <= v) s1 /\ Forall (fun b => v <= b) s2.
Proof.
  induction s1 as [|a s1 IH]; simpl; intros H; inversion H as [|? ? Hs Hall];
    subst.
  - split; [constructor|].
    eapply Forall_impl; [|exact Hall]. intros b Hb. now apply Qle_bool_iff.
  - destruct (IH Hs) as [H1 H2]. split; [|exact H2].
    constructor; [|exact H1].
    rewrite Forall_forall in Hall. apply Qle_bool_iff, Hall.
    apply in_or_app. right. now left.
Qed.

(** The value [np_quantile] returns at a level [0 < q <= 1] is the
    smallest value of the row whose empirical distribution function
    reaches [q]: at least [n * q] of the [n] values are at most [v], and
    fewer than [n * q] are below [v]. *)
Lemma np_quantile_inverted_cdf (row : list Q) (q v : Q) :
  0 < q -> q <= 1 -> np_quantile row q = Ok v ->
  In v row /\
  inject_Z (Z.of_nat (length row)) * q
  <= inject_Z (Z.of_nat (length (filter (fun t => Qle_bool t v) row))) /\
  inject_Z (Z.of_nat (length (filter (fun t => Qlt_bool t v) row)))
  < inject_Z (Z.of_nat (length row)) * q.
Proof.
  intros Hq0 Hq1. unfold np_quantile, np_quantile_by.
  destruct (negb _); [discriminate|].
  set (k := inverted_cdf_index (length row) q).
  destruct (nth_error (sort_by Qle_bool row) k) as [w|] eqn:Hk;
    simpl; [|discriminate].
  intros Hv. inversion Hv; subst w; clear Hv.
  pose proof (sort_by_perm Qle_bool row) as Hperm.
  destruct (nth_error_split _ _ Hk) as (s1 & s2 & Hs & Hlen1).
  assert (Hsorted : StronglySorted (fun a b => Qle_bool a b = true)
                      (sort_by Qle_bool row)).
  { apply Sorted_StronglySorted.
    - intros a b c Hab Hbc. apply Qle_bool_iff in Hab, Hbc.
      apply Qle_bool_iff. lra.
    - apply sort_by_sorted, Qle_bool_total. }
  rewrite Hs in Hsorted. destruct (StronglySorted_split _ _ _ Hsorted) as [Hb Ha].
  assert (Hn : (0 < length row)%nat).
  { rewrite <- (Permutation_length Hperm), Hs, length_app. simpl. lia. }
  set (x := inject_Z (Z.of_nat (length row)) * q).
  assert (Hx : 0 < x).
  { unfold x. assert (0 < inject_Z (Z.of_nat (length row)))
      by (rewrite <- (Zlt_Qlt 0); lia). nra. }
  assert (Hceil : (1 <= Qceiling x)%Z).
  { pose proof (Qle_ceiling x) as Hc.
    destruct (Z_lt_le_dec (Qceiling x) 1) as [Hlt|]; [|assumption].
    assert (inject_Z (Qceiling x) <= 0) by (rewrite <- (Zle_Qle _ 0); lia).
    lra. }
  assert (Hkz : Z.of_nat k = (Qceiling x - 1)%Z).
  { unfold k, inverted_cdf_index. fold x. lia. }
  split; [|split].
  - apply (Permutation_in _ Hperm). rewrite Hs. apply in_or_app. right. now left.
  - rewrite (filter_length_perm _ (Permutation_sym Hperm)), Hs.
    rewrite filter_app, filter_all
      by (eapply Forall_impl; [|exact Hb]; intros a Hle; now apply Qle_bool_iff).
    simpl. replace (Qle_bool v v) with true
      by (symmetry; apply Qle_bool_iff; lra).
    rewrite length_app. simpl.
    apply Qle_trans with (inject_Z (Qceiling x)); [apply Qle_ceiling|].
    rewrite <- Zle_Qle. lia.
  - rewrite (filter_length_perm _ (Permutation_sym Hperm)), Hs.
    rewrite filter_app. simpl.
    assert (Hvv : Qlt_bool v v = false).
    { unfold Qlt_bool. replace (Qle_bool v v) with true
        by (symmetry; apply Qle_bool_iff; lra). reflexivity. }
    rewrite Hvv, (filter_none (fun t => Qlt_bool t v) (l := s2)).
    2:{ eapply Forall_impl; [|exact Ha]. intros b Hle. unfold Qlt_bool.
        apply Qle_bool_iff in Hle. now rewrite Hle. }
    rewrite app_nil_r.
    apply Qle_lt_trans with (inject_Z (Qceiling x - 1)); [|apply Qceiling_lt].
    rewrite <- Zle_Qle. pose proof (filter_length_le (fun t => Qlt_bool t v) s1).
    lia.
Qed.

End InvertedCdf.

(* ================================================================= *)
(** * Further properties of the scores and the interval constructors *)

Section RegressionExtras.
Import NonConformityScores PredictionSets.

Lemma Qabs_zero_iff (x : Q) : Qabs x == 0 <-> x == 0.
Proof.
  split; intros H.
  - revert H. apply Qabs_case; intros; lra.
  - rewrite H. reflexivity.
Qed.

(** X1.  [MAD] on two vectors of one length returns [|y_pred - y_true|]
    entry by entry: never negative, zero exactly where the two agree, and
    the same (up to [==]) when the arguments are swapped.  On lengths
    that do not broadcast it raises [ValueError]. *)
Theorem MAD_vectors (y_pred y_true : list Q) :
  (length y_pred = length y_true ->
   exists d d',
     MAD (Arr1 y_pred) (Arr1 y_true) = Ok (Arr1 d) /\
     MAD (Arr1 y_true) (Arr1 y_pred) = Ok (Arr1 d') /\
     length d = length y_pred /\
     forall i a b,
       nth_error y_pred i = Some a -> nth_error y_true i = Some b ->
       exists di di',
         nth_error d i = Some di /\ nth_error d' i = Some di' /\
         di = Qabs (a - b) /\ 0 <= di /\ (di == 0 <-> a == b) /\ di == di') /\
  (bc_dim (length y_pred) (length y_true) = Err ValueError ->
   MAD (Arr1 y_pred) (Arr1 y_true) = Err ValueError).
Proof.
  split.
  - intros Hlen.
    exists (map Qabs (map2 Qminus y_pred y_true)),
           (map Qabs (map2 Qminus y_true y_pred)).
    unfold MAD. rewrite !nd_map2_vectors by congruence. cbn [bind nd_map].
    repeat split.
    + rewrite length_map, map2_length. lia.
    + intros i a b Ha Hb. exists (Qabs (a - b)), (Qabs (b - a)).
      rewrite !nth_error_map.
      rewrite (map2_nth_error Qminus _ _ _ Ha Hb).
      rewrite (map2_nth_error Qminus _ _ _ Hb Ha). cbn [option_map].
      repeat split.
      * apply Qabs_nonneg.
      * intros H. apply (proj1 (Qabs_zero_iff _)) in H. lra.
      * intros H. apply (proj2 (Qabs_zero_iff _)). lra.
      * rewrite <- (Qabs_opp (b - a)). apply Qabs_wd. ring.
  - intros H. unfold MAD. now rewrite nd_map2_vectors_mismatch.
Qed.

Lemma bc_dim_mismatch n k :
  n <> k -> n <> 1%nat -> k <> 1%nat -> bc_dim n k = Err ValueError.
Proof.
  intros H1 H2 H3. unfold bc_dim.
  apply Nat.eqb_neq in H1, H2, H3. now rewrite H1, H2, H3.
Qed.

(** X2.  [CONSTANT_INTERVAL] with a vector of predictions and the list of
    thresholds [calibrate] hands over (one per weight vector): a single
    threshold widens every prediction alike; as many thresholds as
    predictions pair up; one prediction meets every threshold; any other
    pair of lengths raises [ValueError]. *)
Theorem CONSTANT_INTERVAL_thresholds (y_pred taus : list Q) :
  (forall tau, taus = [tau] ->
     CONSTANT_INTERVAL (Arr1 y_pred) (Arr1 taus)
     = Ok (Arr1 (map (fun p => p - tau) y_pred),
           Arr1 (map (fun p => p + tau) y_pred))) /\
  (length y_pred = length taus ->
     CONSTANT_INTERVAL (Arr1 y_pred) (Arr1 taus)
     = Ok (Arr1 (map2 Qminus y_pred taus), Arr1 (map2 Qplus y_pred taus))) /\
  (forall p, y_pred = [p] ->
     CONSTANT_INTERVAL (Arr1 y_pred) (Arr1 taus)
     = Ok (Arr1 (map (fun tau => p - tau) taus),
           Arr1 (map (fun tau => p + tau) taus))) /\
  (length y_pred <> length taus -> length y_pred <> 1%nat ->
   length taus <> 1%nat ->
     CONSTANT_INTERVAL (Arr1 y_pred) (Arr1 taus) = Err ValueError).
Proof.
  unfold CONSTANT_INTERVAL. cbn [sub add Arith_Q nd_map2].
  split; [|split; [|split]].
  - intros tau ->. unfold bc_vec. cbn [length].
    rewrite bc_dim_one_r. cbn [bind stretch].
    rewrite stretch_same, !map2_repeat_r. reflexivity.
  - intros H. now rewrite !bc_vec_same_length.
  - intros p ->. unfold bc_vec. cbn [length].
    rewrite bc_dim_one_l. cbn [bind stretch].
    rewrite stretch_same, !map2_repeat_l. reflexivity.
  - intros H1 H2 H3. unfold bc_vec.
    now rewrite (bc_dim_mismatch H1 H2 H3).
Qed.

Lemma SCALED_INTERVAL_scalar (rows : list (list Q)) (tau : Q) :
  SCALED_INTERVAL (Arr2 2 rows) (Arr0 tau)
  = Ok (Arr1 (map2 Qminus (map (fun r => nth 0 r 0) rows)
                (map (Qmult tau) (map (fun r => nth 1 r 0) rows))),
        Arr1 (map2 Qplus (map (fun r => nth 0 r 0) rows)
                (map (Qmult tau) (map (fun r => nth 1 r 0) rows)))).
Proof.
  unfold SCALED_INTERVAL, check_two_columns.
  cbn [shape_at shape nth_error of_option bind Nat.eqb negb column nd_map2 nd_map].
  rewrite !bc_vec_same_length by now rewrite !length_map.
  reflexivity.
Qed.

(** X3.  [SCALED_INTERVAL] on a two-column prediction
    [(point, dispersion)] and a scalar threshold returns
    [(point - tau * dispersion, point + tau * dispersion)] row by row;
    the point lies inside whenever [tau * dispersion] is not negative,
    and when it is negative no error is raised: the bounds come out in
    the opposite order around the point.  It raises [IndexError] on a prediction
    without a second axis and [RuntimeError] when the second dimension
    is not 2. *)
Theorem SCALED_INTERVAL_spec (Y_pred : ndarray Q) (tau : Q) :
  (ndim Y_pred <> 2%nat -> SCALED_INTERVAL Y_pred (Arr0 tau) = Err IndexError) /\
  (forall c rows, Y_pred = Arr2 c rows -> c <> 2%nat ->
     SCALED_INTERVAL Y_pred (Arr0 tau) = Err RuntimeError) /\
  (forall rows, Y_pred = Arr2 2 rows ->
     exists y_lo y_hi,
       SCALED_INTERVAL Y_pred (Arr0 tau) = Ok (Arr1 y_lo, Arr1 y_hi) /\
       length y_lo = length rows /\ length y_hi = length rows /\
       forall i row, nth_error rows i = Some row ->
         let point := nth 0 row 0 in
         let dispersion := nth 1 row 0 in
         exists lo hi,
           nth_error y_lo i = Some lo /\ nth_error y_hi i = Some hi /\
           lo = point - tau * dispersion /\ hi = point + tau * dispersion /\
           (0 <= tau * dispersion -> lo <= point /\ point <= hi) /\
           (tau * dispersion <= 0 -> hi <= point /\ point <= lo)).
Proof.
  split; [|split].
  - destruct Y_pred as [t|v|c rows]; simpl; intros H; try reflexivity.
    now contradiction H.
  - intros c rows -> Hc. unfold SCALED_INTERVAL, check_two_columns. simpl.
    apply Nat.eqb_neq in Hc. now rewrite Hc.
  - intros rows ->. eexists; eexists.
    split; [apply SCALED_INTERVAL_scalar|].
    split; [rewrite map2_length, !length_map; lia|].
    split; [rewrite map2_length, !length_map; lia|].
    intros i row Hrow point dispersion.
    exists (point - tau * dispersion), (point + tau * dispersion).
    assert (H0 : nth_error (map (fun r => nth 0 r 0) rows) i = Some point)
      by now rewrite nth_error_map, Hrow.
    assert (H1 : nth_error (map (Qmult tau) (map (fun r => nth 1 r 0) rows)) i
                 = Some (tau * dispersion))
      by now rewrite !nth_error_map, Hrow.
    split; [apply (map2_nth_error Qminus _ _ _ H0 H1)|].
    split; [apply (map2_nth_error Qplus _ _ _ H0 H1)|].
    repeat split; lra.
Qed.

End RegressionExtras.

Section ShapeChecks.
Import NonConformityScores PredictionSets.

Lemma Qdiv_le_iff (a b c : Q) : 0 < c -> (a / c <= b <-> a <= b * c).
Proof.
  intros Hc. split; intros H.
  - assert (Ha : a == a / c * c) by (field; lra).
    rewrite Ha. apply Qmult_le_compat_r; lra.
  - apply Qle_shift_div_r; assumption.
Qed.

(** X5.  The shape checks of the CQR pair.  [CQR_SCORE] raises
    [IndexError] on a prediction without a second axis, [RuntimeError]
    when the second dimension is not 2 or the truth does not have exactly
    one dimension, and [ValueError] when a two-column prediction and a
    truth vector have lengths that do not broadcast.  [CQR_INTERVAL]
    raises [IndexError] and [RuntimeError] in the same two cases on the
    prediction, whatever the threshold. *)
Theorem CQR_shape_checks (Y_pred y_true scores_quantiles : ndarray Q) :
  (ndim Y_pred <> 2%nat ->
     CQR_SCORE Y_pred y_true = Err IndexError /\
     CQR_INTERVAL Y_pred scores_quantiles = Err IndexError) /\
  (forall c rows, Y_pred = Arr2 c rows -> c <> 2%nat ->
     CQR_SCORE Y_pred y_true = Err RuntimeError /\
     CQR_INTERVAL Y_pred scores_quantiles = Err RuntimeError) /\
  (forall rows, Y_pred = Arr2 2 rows -> ndim y_true <> 1%nat ->
     CQR_SCORE Y_pred y_true = Err RuntimeError) /\
  (forall rows truth, Y_pred = Arr2 2 rows -> y_true = Arr1 truth ->
     bc_dim (length rows) (length truth) = Err ValueError ->
     CQR_SCORE Y_pred y_true = Err ValueError).
Proof.
  split; [|split; [|split]].
  - destruct Y_pred as [t|v|c rows]; simpl; intros H;
      try (split; reflexivity). now contradiction H.
  - intros c rows -> Hc. apply Nat.eqb_neq in Hc.
    unfold CQR_SCORE, CQR_INTERVAL, check_pair_shapes, check_two_columns.
    simpl. now rewrite Hc.
  - intros rows -> Hd. apply Nat.eqb_neq in Hd.
    unfold CQR_SCORE, check_pair_shapes. simpl. now rewrite Hd.
  - intros rows truth -> -> Hbc. unfold CQR_SCORE.
    rewrite check_pair_shapes_Ok. cbn [bind column].
    rewrite nd_map2_vectors_mismatch; [reflexivity|].
    now rewrite length_map.
Qed.

End ShapeChecks.

(* ================================================================= *)
(** * Further properties of the RAPS score *)

Section RapsScoreExtras.
Import NonConformityScores.
Variables (lambd : Q) (k_reg : Z) (rand : nat -> Q).

Lemma find_index_None (y : nat) (l : list nat) :
  ~ In y l -> find_index (Nat.eqb y) l = None.
Proof.
  induction l as [|x l IH]; simpl; intros H; auto.
  destruct (Nat.eqb y x) eqn:Hyx.
  - apply Nat.eqb_eq in Hyx. subst. exfalso. auto.
  - rewrite IH; auto.
Qed.

(** Whatever goes wrong while one example is scored is an
    [IndexError]. *)
Lemma raps_score_at_outcome rows i y :
  raps_score_at lambd k_reg rand rows i y = Err IndexError \/
  exists s, raps_score_at lambd k_reg rand rows i y = Ok s.
Proof.
  unfold raps_score_at, raps_rank, get.
  destruct (nth_error rows i) as [row|]; simpl; auto.
  destruct (find_index _ _) as [L|]; simpl; auto.
  destruct (nth_error (sorted_cum_mass row) L); simpl; auto.
  destruct (nth_error (sorted_proba row) L); simpl; eauto.
Qed.

Lemma raps_score_at_bad_label rows i row y :
  nth_error rows i = Some row -> (length row <= y)%nat ->
  raps_score_at lambd k_reg rand rows i y = Err IndexError.
Proof.
  intros Hrow Hy. unfold raps_score_at, raps_rank, get. rewrite Hrow.
  cbn [of_option bind]. rewrite find_index_None; [reflexivity|].
  intros Hin. apply (Permutation_in _ (class_ranking_perm row)) in Hin.
  apply in_seq in Hin. lia.
Qed.

Lemma raps_score_at_no_row rows i y :
  (length rows <= i)%nat ->
  raps_score_at lambd k_reg rand rows i y = Err IndexError.
Proof.
  intros Hi. unfold raps_score_at, get.
  apply nth_error_None in Hi. now rewrite Hi.
Qed.

(** X6.  Where [RAPS_SCORE] fails and where it does not.  A prediction
    that is not a matrix raises (the ranking along axis 1 does not
    exist).  On a matrix, a true class that is not one of the classes of
    its row, or more labels than rows, raises [IndexError].  With at most
    as many labels as rows and every label a class of its row, the call
    returns one score per label; rows beyond the labels are not looked
    at. *)
Theorem RAPS_SCORE_failures (Y_pred : ndarray Q) (y_true : list nat) :
  (ndim Y_pred <> 2%nat ->
     RAPS_SCORE lambd k_reg rand Y_pred y_true = Err ValueError) /\
  (forall c rows i row y,
     Y_pred = Arr2 c rows ->
     nth_error y_true i = Some y -> nth_error rows i = Some row ->
     (length row <= y)%nat ->
     RAPS_SCORE lambd k_reg rand Y_pred y_true = Err IndexError) /\
  (forall c rows,
     Y_pred = Arr2 c rows -> (length rows < length y_true)%nat ->
     RAPS_SCORE lambd k_reg rand Y_pred y_true = Err IndexError) /\
  (forall c rows,
     Y_pred = Arr2 c rows -> (length y_true <= length rows)%nat ->
     (forall i y row, nth_error y_true i = Some y ->
                      nth_error rows i = Some row -> (y < length row)%nat) ->
     exists scores,
       RAPS_SCORE lambd k_reg rand Y_pred y_true = Ok scores /\
       length scores = length y_true /\
       forall more, RAPS_SCORE lambd k_reg rand (Arr2 c (rows ++ more)) y_true
                    = Ok scores).
Proof.
  split; [|split; [|split]].
  - destruct Y_pred as [t|v|c rows]; simpl; intros H; try reflexivity.
    now contradiction H.
  - intros c rows i row y -> Hy Hrow Hbad. simpl.
    apply mapM_Err with (a := (i, y)).
    + eapply nth_error_In. apply enumerate_nth_error. exact Hy.
    + intros [i' y'] _. apply raps_score_at_outcome.
    + simpl. eapply raps_score_at_bad_label; eauto.
  - intros c rows -> Hlen. simpl.
    destruct (nth_error y_true (length rows)) as [y|] eqn:Hy;
      [|apply nth_error_None in Hy; lia].
    apply mapM_Err with (a := (length rows, y)).
    + eapply nth_error_In. apply enumerate_nth_error. exact Hy.
    + intros [i' y'] _. apply raps_score_at_outcome.
    + simpl. apply raps_score_at_no_row. lia.
  - intros c rows -> Hlen Hlabels.
    assert (Hrow_of : forall i y, nth_error y_true i = Some y ->
              exists row, nth_error rows i = Some row /\ (y < length row)%nat).
    { intros i y Hy.
      assert (Hi : (i < length rows)%nat).
      { assert (i < length y_true)%nat by (apply nth_error_Some; congruence).
        lia. }
      destruct (nth_error rows i) as [row|] eqn:Hrow;
        [|apply nth_error_None in Hrow; lia].
      exists row. split; [reflexivity|]. eapply Hlabels; eauto. }
    destruct (mapM_exists
                (fun iy => raps_score_at lambd k_reg rand rows (fst iy) (snd iy))
                (enumerate y_true)) as [scores Hscores].
    { intros [i y] Hin. apply enumerate_In in Hin.
      destruct (Hrow_of _ _ Hin) as (row & Hrow & Hy).
      destruct (raps_score_at_formula lambd k_reg rand _ _ Hrow Hy)
        as (L & cm & p & Hs & _). simpl. eauto. }
    exists scores. split; [exact Hscores|]. split.
    + rewrite (mapM_length _ _ Hscores). unfold enumerate.
      rewrite length_combine, length_seq. lia.
    + intros more. simpl. rewrite <- Hscores. apply mapM_ext_in.
      intros [i y] Hin. apply enumerate_In in Hin. simpl.
      destruct (Hrow_of _ _ Hin) as (row & Hrow & _).
      unfold raps_score_at, get.
      rewrite nth_error_app1 by (apply nth_error_Some; congruence).
      reflexivity.
Qed.



Lemma In_firstn {A} (n : nat) (l : list A) (x : A) :
  In x (firstn n l) -> In x l.
Proof.
  intros H. rewrite <- (firstn_skipn n l). apply in_or_app. now left.
Qed.


Lemma firstn_S_nth {A} (l : list A) (n : nat) (a : A) :
  nth_error l n = Some a -> firstn (S n) l = firstn n l ++ [a].
Proof.
  revert n; induction l as [|x l IH]; intros [|n] H; simpl in *;
    try discriminate.
  - now inversion H.
  - f_equal. now apply IH.
Qed.

End RapsScoreExtras.


(* ================================================================= *)
(** * Further properties of the RAPS prediction sets *)

Section RapsSetExtras.
Import PredictionSets.
Variables (lambd : Q) (k_reg : Z) (u : nat -> Q).






End RapsSetExtras.

Section RapsSetShape.
Import PredictionSets.
Variables (lambd : Q) (k_reg : Z) (u : nat -> Q).

Lemma NoDup_firstn {A} (n : nat) (l : list A) : NoDup l -> NoDup (firstn n l).
Proof.
  intros H. rewrite <- (firstn_skipn n l) in H.
  now apply NoDup_app_remove_r in H.
Qed.

Lemma StronglySorted_firstn {A} (R : A -> A -> Prop) (n : nat) (l : list A) :
  StronglySorted R l -> StronglySorted R (firstn n l).
Proof.
  intros H. revert n. induction H as [|a l Hs IH Hall]; intros [|n]; simpl;
    try constructor; auto.
  rewrite Forall_forall in *. intros x Hx. apply Hall.
  now apply In_firstn in Hx.
Qed.

Lemma StronglySorted_map_inv {A B} (R : B -> B -> Prop) (f : A -> B)
    (l : list A) :
  StronglySorted R (map f l) -> StronglySorted (fun a b => R (f a) (f b)) l.
Proof.
  induction l as [|a l IH]; simpl; intros H; [constructor|].
  inversion H as [|? ? Hs Hall]; subst. constructor; auto.
  rewrite Forall_map in Hall. exact Hall.
Qed.

(** The ranking lists every class once, by descending probability. *)
Lemma class_ranking_descending (row : list Q) :
  StronglySorted (fun a b => nth b row 0 <= nth a row 0) (class_ranking row).
Proof.
  apply StronglySorted_map_inv
    with (R := fun x y : Q => y <= x) (f := fun k => nth k row 0).
  rewrite <- sorted_proba_ranking. apply sorted_proba_descending.
Qed.

Lemma class_ranking_NoDup (row : list Q) : NoDup (class_ranking row).
Proof.
  apply (Permutation_NoDup (Permutation_sym (class_ranking_perm row))).
  apply seq_NoDup.
Qed.

(** In a list sorted for a relation, every member of a beginning is
    related to every member of the rest. *)
Lemma StronglySorted_app {A} (R : A -> A -> Prop) (l1 l2 : list A) :
  StronglySorted R (l1 ++ l2) ->
  forall a b, In a l1 -> In b l2 -> R a b.
Proof.
  induction l1 as [|x l1 IH]; simpl; intros H a b Ha Hb; [contradiction|].
  inversion H as [|? ? Hs Hall]; subst.
  destruct Ha as [->|Ha]; [|now apply (IH Hs)].
  rewrite Forall_forall in Hall. apply Hall, in_or_app. now right.
Qed.

(** X9.  What [_RAPS_SET] returns.  There is one set per row; each set
    has [cut_i] members, where [cut_i] is [L - 1] or [L]; it names no
    class twice and only classes of the row, lists them by descending
    probability, and holds classes of largest probability: no class
    left out has a larger probability than a class of the set.  (Which
    of several classes of equal probability are taken is the sorting
    library's choice.) *)
Theorem RAPS_SET_sets (c : nat) (rows : list (list Q)) (tau : Q)
    (sets : list (list nat)) :
  RAPS_SET lambd k_reg u (Arr2 c rows) tau = Ok sets ->
  length sets = length rows /\
  forall i row, nth_error rows i = Some row ->
    exists s cut_i,
      nth_error sets i = Some s /\
      raps_cut lambd k_reg u row tau i = Ok cut_i /\
      (cut_i = raps_L lambd k_reg row tau - 1 \/
       cut_i = raps_L lambd k_reg row tau)%Z /\
      length s = Z.to_nat cut_i /\ (length s <= length row)%nat /\
      NoDup s /\
      (forall k, In k s -> (k < length row)%nat) /\
      StronglySorted (fun a b => nth b row 0 <= nth a row 0) s /\
      (forall k k', In k s -> (k' < length row)%nat -> ~ In k' s ->
         nth k' row 0 <= nth k row 0).
Proof.
  intros Hsets. simpl in Hsets. split.
  { rewrite (mapM_length _ _ Hsets). unfold enumerate.
    rewrite length_combine, length_seq. lia. }
  intros i row Hrow.
  destruct (mapM_nth_error _ _ _ Hsets (enumerate_nth_error _ _ Hrow))
    as (s & Hs & Hn). simpl in Hs.
  destruct raps_set_row_inv with (1 := Hs)
    as (pe & v & cut_i & Hpe & Hv & Hcut & Hc & Hset).
  pose proof (raps_L_positive lambd k_reg row tau) as HL.
  pose proof (raps_proba_excess_in_range _ _ _ _ Hpe) as Hrange.
  assert (Hcases : (cut_i = raps_L lambd k_reg row tau - 1 \/
                    cut_i = raps_L lambd k_reg row tau)%Z)
    by (rewrite Hc; destruct (ext_leb v (u i)); auto).
  assert (Hneg : (cut_i <? 0)%Z = false) by (apply Z.ltb_ge; lia).
  unfold raps_set_of_cut in Hset. rewrite Hneg in Hset.
  assert (Hle : (Z.to_nat cut_i <= length (class_ranking row))%nat)
    by (rewrite class_ranking_length; lia).
  exists s, cut_i.
  split; [exact Hn|]. split; [exact Hcut|]. split; [exact Hcases|].
  assert (Hlen : length s = Z.to_nat cut_i)
    by (rewrite Hset, length_firstn; lia).
  split; [exact Hlen|].
  split; [rewrite Hlen, <- (class_ranking_length row); exact Hle|].
  rewrite Hset. split; [|split; [|split]].
  - apply NoDup_firstn, class_ranking_NoDup.
  - intros k Hk. apply In_firstn in Hk.
    apply (Permutation_in _ (class_ranking_perm row)) in Hk.
    apply in_seq in Hk. lia.
  - apply StronglySorted_firstn, class_ranking_descending.
  - intros k k' Hk Hk' Hout.
    pose proof (class_ranking_descending row) as Hdesc.
    rewrite <- (firstn_skipn (Z.to_nat cut_i) (class_ranking row)) in Hdesc.
    apply (@StronglySorted_app _ _ _ _ Hdesc k k' Hk).
    assert (Hin : In k' (class_ranking row)).
    { apply (Permutation_in _ (Permutation_sym (class_ranking_perm row))).
      apply in_seq. lia. }
    rewrite <- (firstn_skipn (Z.to_nat cut_i) (class_ranking row)) in Hin.
    apply in_app_or in Hin. destruct Hin as [Hin|Hin]; [|exact Hin].
    now contradiction Hout.
Qed.

(** From the second rank on, the cutoff fraction is never at or below
    a draw smaller than one. *)
Lemma raps_v_beyond_first (row : list Q) (tau : Q) (i : nat) (pe : Q)
    (v : ext) :
  Forall (fun p => 0 <= p) row -> 0 <= tau -> 0 <= lambd ->
  (2 <= raps_L lambd k_reg row tau)%Z -> u i < 1 ->
  raps_proba_excess lambd k_reg row tau = Ok pe ->
  raps_v lambd k_reg row tau = Ok v ->
  ext_leb v (u i) = false.
Proof.
  intros Hnn Htau Hlambd HL2 Hu Hpe Hv.
  pose proof (raps_proba_excess_in_range _ _ _ _ Hpe) as Hrange.
  set (L := raps_L lambd k_reg row tau) in *.
  rewrite raps_v_guarded in Hv. rewrite Hpe in Hv. cbn [bind] in Hv.
  unfold raps_proba_excess in Hpe. fold L in Hpe, Hv.
  rewrite !np_index_nonneg in Hpe by lia.
  rewrite np_index_nonneg in Hv by lia.
  set (j := Z.to_nat (L - 1)) in *.
  destruct (nth_error (sorted_cum_mass row) j) as [cm|] eqn:Hcm;
    simpl in Hpe; [|discriminate].
  destruct (nth_error (sorted_proba row) j) as [p|] eqn:Hp;
    simpl in Hpe, Hv; [|discriminate].
  inversion Hpe; subst pe; clear Hpe. inversion Hv; subst v; clear Hv.
  (* the mass before rank L is at least the probability at rank L *)
  assert (Hspnn : Forall (fun q => 0 <= q) (sorted_proba row)).
  { rewrite Forall_forall in *. intros q Hq. apply Hnn.
    apply (Permutation_in _ (sorted_proba_perm row)). exact Hq. }
  assert (Hj : (1 <= j)%nat) by (unfold j; lia).
  destruct cumsum_nth with (l := sorted_proba row) (L := j)
    as (cm' & Hcm' & Hcmeq); [now rewrite sorted_proba_length|].
  unfold sorted_cum_mass in Hcm. rewrite Hcm in Hcm'.
  inversion Hcm'; subst cm'; clear Hcm'.
  rewrite firstn_S_nth with (a := p) in Hcmeq by exact Hp.
  rewrite Qsum_app in Hcmeq. cbn [Qsum] in Hcmeq.
  pose proof (sorted_proba_descending row) as Hdesc.
  assert (Hbefore : p <= Qsum (firstn j (sorted_proba row))).
  { destruct (sorted_proba row) as [|a tl] eqn:Hsp;
      [destruct j; discriminate|].
    destruct j as [|j']; [lia|]. simpl in Hp.
    inversion Hdesc as [|? ? _ Hall]; subst.
    rewrite Forall_forall in Hall.
    assert (Hpa : p <= a) by (apply Hall; eapply nth_error_In; eauto).
    rewrite firstn_cons. cbn [Qsum].
    assert (0 <= Qsum (firstn j' tl)).
    { apply Qsum_nonneg. inversion Hspnn; subst.
      rewrite Forall_forall in *. intros q Hq.
      match goal with H : forall x, In x tl -> 0 <= x |- _ => apply H end.
      now apply In_firstn in Hq. }
    lra. }
  assert (Hp0 : 0 <= p).
  { rewrite Forall_forall in Hspnn. apply Hspnn. eapply nth_error_In; eauto. }
  assert (Hz : 0 <= inject_Z (Z.max (L - k_reg) 0))
    by (rewrite <- (Zle_Qle 0); lia).
  set (z := inject_Z (Z.max (L - k_reg) 0)) in *.
  set (before := Qsum (firstn j (sorted_proba row))) in *.
  assert (Hlz : 0 <= lambd * z) by (apply Qmult_le_0_compat; assumption).
  set (lz := lambd * z) in *.
  assert (Hnum : p <= tau - (- cm - lz + p)).
  { clearbody before lz z. clear - Hcmeq Hbefore Htau Hlz Hp0. lra. }
  set (N := tau - (- cm - lz + p)) in *.
  unfold np_div. destruct (Qeq_bool p 0) eqn:Hpz.
  - destruct (Qlt_bool 0 N); [reflexivity|].
    destruct (Qlt_bool N 0) eqn:HN0; [|reflexivity].
    exfalso. unfold Qlt_bool in HN0. apply negb_true_iff in HN0.
    assert (0 <= N) by (clearbody N; clear - Hnum Hp0; lra).
    apply Qle_bool_iff in H. congruence.
  - cbn [ext_leb]. destruct (Qle_bool (N / p) (u i)) eqn:Hq; [|reflexivity].
    exfalso. apply Qle_bool_iff in Hq.
    assert (Hppos : 0 < p).
    { apply Qeq_bool_neq in Hpz. clear - Hpz Hp0. lra. }
    apply Qdiv_le_iff in Hq; [|exact Hppos].
    assert (u i * p < p) by (clear - Hu Hppos; nra).
    clearbody N. clear - Hq Hnum H. lra.
Qed.

(** X10.  Beyond the first rank the draw does not matter.  For
    nonnegative probabilities, [tau >= 0] and [lambd >= 0], when the cut
    rank is [L >= 2] the cutoff fraction is at least [1] (or the division
    by a zero probability gives no finite value), so for every draw
    [u[i] < 1] the cut index is [L] and the set has exactly [L]
    classes. *)
Theorem RAPS_SET_rank_beyond_first (row : list Q) (tau : Q) (i : nat)
    (s : list nat) :
  Forall (fun p => 0 <= p) row -> 0 <= tau -> 0 <= lambd ->
  (2 <= raps_L lambd k_reg row tau)%Z -> u i < 1 ->
  raps_set_row lambd k_reg u row tau i = Ok s ->
  raps_cut lambd k_reg u row tau i = Ok (raps_L lambd k_reg row tau) /\
  s = firstn (Z.to_nat (raps_L lambd k_reg row tau)) (class_ranking row) /\
  length s = Z.to_nat (raps_L lambd k_reg row tau).
Proof.
  intros Hnn Htau Hlambd HL2 Hu Hs.
  destruct raps_set_row_inv with (1 := Hs)
    as (pe & v & cut_i & Hpe & Hv & Hcut & Hc & Hset).
  pose proof (raps_proba_excess_in_range _ _ _ _ Hpe) as Hrange.
  set (L := raps_L lambd k_reg row tau) in *.
  assert (Hfalse : ext_leb v (u i) = false)
    by (apply (raps_v_beyond_first Hnn Htau Hlambd HL2 Hu Hpe Hv)).
  rewrite Hfalse in Hc. rewrite Hc in Hcut, Hset.
  split; [exact Hcut|].
  assert (Hneg : (L <? 0)%Z = false) by (apply Z.ltb_ge; lia).
  unfold raps_set_of_cut in Hset. rewrite Hneg in Hset.
  split; [exact Hset|].
  rewrite Hset, length_firstn, class_ranking_length. lia.
Qed.

End RapsSetShape.

Section RapsSetShapeWitness.
Import PredictionSets.

Lemma RAPS_SET_sets_witness :
  let row := [1 # 5; 1 # 2; 3 # 10] in
  RAPS_SET 0 1 (fun _ => 1 # 2) (Arr2 3 [row]) (7 # 10) = Ok [[1; 2]%nat] /\
  exists s cut_i,
    nth_error [[1; 2]%nat] 0 = Some s /\
    raps_cut 0 1 (fun _ => 1 # 2) row (7 # 10) 0 = Ok cut_i /\
    length s = Z.to_nat cut_i /\ NoDup s.
Proof.
  cbv zeta.
  assert (H : RAPS_SET 0 1 (fun _ => 1 # 2)
                (Arr2 3 [[1 # 5; 1 # 2; 3 # 10]]) (7 # 10)
              = Ok [[1; 2]%nat]) by (vm_compute; reflexivity).
  split; [exact H|].
  destruct (@RAPS_SET_sets _ _ _ _ _ _ _ H) as [_ Hrows].
  destruct (Hrows 0%nat [1 # 5; 1 # 2; 3 # 10] eq_refl)
    as (s & cut_i & Hs & Hcut & _ & Hlen & _ & Hnd & _).
  exists s, cut_i. repeat split; assumption.
Defined.

Lemma RAPS_SET_rank_beyond_first_witness :
  let row := [1 # 5; 1 # 2; 3 # 10] in
  Forall (fun p => 0 <= p) row /\ 0 <= 7 # 10 /\ 0 <= 0 /\
  (2 <= raps_L 0 1 row (7 # 10))%Z /\ 1 # 2 < 1 /\
  raps_set_row 0 1 (fun _ => 1 # 2) row (7 # 10) 0 = Ok [1; 2]%nat /\
  raps_cut 0 1 (fun _ => 1 # 2) row (7 # 10) 0
    = Ok (raps_L 0 1 row (7 # 10)) /\
  length [1; 2]%nat = Z.to_nat (raps_L 0 1 row (7 # 10)).
Proof.
  cbv zeta.
  assert (H1 : Forall (fun p => 0 <= p) [1 # 5; 1 # 2; 3 # 10])
    by (repeat constructor; discriminate).
  assert (H2 : 0 <= 7 # 10) by discriminate.
  assert (H3 : 0 <= 0) by discriminate.
  assert (H4 : (2 <= raps_L 0 1 [1 # 5; 1 # 2; 3 # 10] (7 # 10))%Z)
    by (vm_compute; discriminate).
  assert (H5 : 1 # 2 < 1) by reflexivity.
  assert (H6 : raps_set_row 0 1 (fun _ => 1 # 2) [1 # 5; 1 # 2; 3 # 10]
                 (7 # 10) 0 = Ok [1; 2]%nat) by (vm_compute; reflexivity).
  repeat (split; [assumption|]).
  destruct (@RAPS_SET_rank_beyond_first 0 1%Z (fun _ : nat => 1 # 2)
              _ _ 0%nat _ H1 H2 H3 H4 H5 H6) as (Hcut & _ & Hlen).
  split; assumption.
Defined.

End RapsSetShapeWitness.

(* ================================================================= *)
(** * Further properties of the base calibrator *)

Section CalibrateQuantiles.
Import BaseCalibrator.
Variables Pred Truth Out W : Type.
Variable nonconf_score_func : Pred -> Truth -> result (list Q).
Variable pred_set_func : Pred -> list ext -> result Out.
Variable check_alpha_calib : Q -> nat -> result unit.
Variable quantile : list ext -> Q -> option W -> result ext.

Local Abbreviation calibrate :=
  (BaseCalibrator.calibrate pred_set_func check_alpha_calib quantile).
Local Abbreviation fit := (BaseCalibrator.fit nonconf_score_func).

(** The weights the loop of [calibrate] runs over. *)
Local Abbreviation it_weights weights :=
  (match weights with
   | None => [None]
   | Some ws => map (@Some W) ws
   end).

Lemma tmapM_call_Ok {A B} (ev : A -> event W) (g : A -> result B)
    (l : list A) (bs : list B) :
  mapM g l = Ok bs ->
  tmapM (fun a => call (ev a) (g a)) l = (Ok bs, map ev l).
Proof.
  revert bs. induction l as [|a l IH]; simpl; intros bs H.
  - now inversion H.
  - destruct (g a) as [b|e] eqn:Hg; simpl in H; [|discriminate].
    destruct (mapM g l) as [bs'|e] eqn:Hm; simpl in H; [|discriminate].
    inversion H; subst. rewrite (IH bs' eq_refl).
    unfold call, tbind, tret. simpl. now rewrite app_nil_r.
Qed.

Lemma tmapM_call_Err {A B} (ev : A -> event W) (g : A -> result B)
    (done later : list A) (a : A) (bs : list B) (e : error) :
  mapM g done = Ok bs -> g a = Err e ->
  tmapM (fun a => call (ev a) (g a)) (done ++ a :: later)
  = (Err e, map ev done ++ [ev a]).
Proof.
  revert bs. induction done as [|d done IH]; simpl; intros bs H He.
  - unfold call, tbind. now rewrite He.
  - destruct (g d) as [b|e'] eqn:Hg; simpl in H; [|discriminate].
    destruct (mapM g done) as [bs'|e'] eqn:Hm; simpl in H; [|discriminate].
    rewrite (IH bs' eq_refl He). unfold call, tbind. reflexivity.
Qed.

(** X11.  The quantile calls of [calibrate].  On a fitted calibrator
    whose feasibility check passes, when every quantile call succeeds the
    run makes exactly one quantile call per weight vector, in the order
    of the weights (a single unweighted call when [weights] is [None]),
    each on the residuals followed by [+inf] and at level [1 - alpha];
    then it calls [pred_set_func] once, on the thresholds in that order,
    and returns what it returns. *)
Theorem calibrate_quantile_calls (self : state) (alpha : Q) (y_pred : Pred)
    (weights : option (list W)) (residuals : list Q) (qs : list ext) :
  let sample := map Fin residuals ++ [PInf] in
  _residuals self = Some residuals ->
  check_alpha_calib alpha (_len_calib self) = Ok tt ->
  mapM (quantile sample (1 - alpha)) (it_weights weights) = Ok qs ->
  calibrate self alpha y_pred weights
  = (pred_set_func y_pred qs,
     EvCheckAlpha W alpha (_len_calib self)
       :: map (EvQuantile sample (1 - alpha)) (it_weights weights)
       ++ [EvPredSet W qs]) /\
  length qs = length (it_weights weights) /\
  (weights = None -> exists t, qs = [t] /\ quantile sample (1 - alpha) None = Ok t).
Proof.
  intros sample Hr Hc Hq. split; [|split].
  - unfold BaseCalibrator.calibrate. rewrite Hr.
    unfold call at 1. rewrite Hc. unfold tbind at 1.
    rewrite (tmapM_call_Ok (EvQuantile (map Fin residuals ++ [PInf]) (1 - alpha))
               (quantile (map Fin residuals ++ [PInf]) (1 - alpha)) _ Hq).
    unfold tbind, call. reflexivity.
  - apply (mapM_length _ _ Hq).
  - intros ->. simpl in Hq.
    destruct (quantile sample (1 - alpha) None) as [t|e]; simpl in Hq;
      [|discriminate].
    inversion Hq. now exists t.
Qed.

(** X12.  A failing quantile aborts [calibrate].  When the quantile of
    one weight vector raises (those before it having succeeded), the run
    ends with that error right after that call: the weight vectors after
    it are never queried and [pred_set_func] is never called. *)
Theorem calibrate_quantile_failure (self : state) (alpha : Q) (y_pred : Pred)
    (weights : option (list W)) (residuals : list Q)
    (done later : list (option W)) (w : option W) (qs : list ext)
    (e : error) :
  let sample := map Fin residuals ++ [PInf] in
  _residuals self = Some residuals ->
  check_alpha_calib alpha (_len_calib self) = Ok tt ->
  it_weights weights = done ++ w :: later ->
  mapM (quantile sample (1 - alpha)) done = Ok qs ->
  quantile sample (1 - alpha) w = Err e ->
  calibrate self alpha y_pred weights
  = (Err e,
     EvCheckAlpha W alpha (_len_calib self)
       :: map (EvQuantile sample (1 - alpha)) done
       ++ [EvQuantile sample (1 - alpha) w]) /\
  forallb (fun ev => match ev with EvPredSet _ _ => false | _ => true end)
          (snd (calibrate self alpha y_pred weights)) = true.
Proof.
  intros sample Hr Hc Hw Hq He.
  assert (Hrun : calibrate self alpha y_pred weights
                 = (Err e,
                    EvCheckAlpha W alpha (_len_calib self)
                      :: map (EvQuantile sample (1 - alpha)) done
                      ++ [EvQuantile sample (1 - alpha) w])).
  { unfold BaseCalibrator.calibrate. rewrite Hr.
    unfold call at 1. rewrite Hc. unfold tbind at 1.
    rewrite Hw.
    rewrite (tmapM_call_Err
               (EvQuantile (map Fin residuals ++ [PInf]) (1 - alpha))
               (quantile (map Fin residuals ++ [PInf]) (1 - alpha))
               _ later _ Hq He).
    unfold tbind. reflexivity. }
  split; [exact Hrun|]. rewrite Hrun. cbn [snd forallb].
  rewrite forallb_app. cbn [forallb]. rewrite andb_true_r.
  apply forallb_forall. intros ev Hev. apply in_map_iff in Hev.
  destruct Hev as (x & <- & _). reflexivity.
Qed.

(** X13.  [fit] replaces, it does not accumulate.  When the score
    function raises, so does [fit]; otherwise the fitted calibrator holds
    exactly the new scores and their number, whatever it held before, and
    keeps its normalized weights.  A later [calibrate] depends on the new
    scores only: neither the calibrator's earlier state nor normalized
    weights set afterwards change its run. *)
Theorem fit_replaces (self : state) (y_true : Truth) (y_pred : Pred) :
  match nonconf_score_func y_pred y_true with
  | Err e => fit self y_true y_pred = Err e
  | Ok r =>
      exists s,
        fit self y_true y_pred = Ok s /\
        _residuals s = Some r /\ _len_calib s = length r /\
        get_norm_weights s = get_norm_weights self /\
        (forall norm_weights,
           get_norm_weights (set_norm_weights s norm_weights)
           = Some norm_weights) /\
        forall other s' norm_weights alpha y weights,
          fit other y_true y_pred = Ok s' ->
          calibrate (set_norm_weights s' norm_weights) alpha y weights
          = calibrate s alpha y weights
  end.
Proof.
  unfold BaseCalibrator.fit.
  destruct (nonconf_score_func y_pred y_true) as [r|e]; simpl; [|reflexivity].
  eexists. split; [reflexivity|]. simpl. repeat split.
  intros other s' nw alpha y weights H. inversion H; subst. reflexivity.
Qed.

End CalibrateQuantiles.

Section CalibrateQuantilesWitness.
Import BaseCalibrator.

Lemma calibrate_quantile_calls_witness :
  let fitted := {| _len_calib := 5;
                   _residuals := Some [1; 2; 3; 4; 5];
                   _norm_weights := None |} in
  let sample := [Fin 1; Fin 2; Fin 3; Fin 4; Fin 5; PInf] in
  Utils.check_alpha_calib (1 # 5) 5 = Ok tt /\
  mapM (Utils.quantile sample (1 - (1 # 5))) [None] = Ok [Fin 5] /\
  BaseCalibrator.calibrate Utils.constant_interval_set
    Utils.check_alpha_calib Utils.quantile fitted (1 # 5) (Arr1 [10]) None
  = (Utils.constant_interval_set (Arr1 [10]) [Fin 5],
     [EvCheckAlpha (list Q) (1 # 5) 5;
      EvQuantile sample (1 - (1 # 5)) None;
      EvPredSet (list Q) [Fin 5]]).
Proof.
  cbv zeta.
  assert (H1 : Utils.check_alpha_calib (1 # 5) 5 = Ok tt) by reflexivity.
  assert (H2 : mapM (Utils.quantile (map Fin [1; 2; 3; 4; 5] ++ [PInf])
                       (1 - (1 # 5))) [None] = Ok [Fin 5]) by reflexivity.
  split; [exact H1|]. split; [exact H2|].
  exact (proj1 (@calibrate_quantile_calls _ _ _ Utils.constant_interval_set
                  Utils.check_alpha_calib Utils.quantile
                  {| _len_calib := 5;
                     _residuals := Some [1; 2; 3; 4; 5];
                     _norm_weights := None |}
                  (1 # 5) (Arr1 [10]) None [1; 2; 3; 4; 5] [Fin 5]
                  eq_refl H1 H2)).
Defined.

Lemma calibrate_quantile_failure_witness :
  let fitted := {| _len_calib := 5;
                   _residuals := Some [1; 2; 3; 4; 5];
                   _norm_weights := None |} in
  let sample := [Fin 1; Fin 2; Fin 3; Fin 4; Fin 5; PInf] in
  let w1 := [1; 1; 1; 1; 1; 1] in
  Utils.check_alpha_calib (1 # 5) 5 = Ok tt /\
  mapM (Utils.quantile sample (1 - (1 # 5))) [Some w1] = Ok [Fin 1] /\
  Utils.quantile sample (1 - (1 # 5)) (Some [1]) = Err ValueError /\
  BaseCalibrator.calibrate Utils.constant_interval_set
    Utils.check_alpha_calib Utils.quantile fitted (1 # 5) (Arr1 [10])
    (Some [w1; [1]; w1])
  = (Err ValueError,
     [EvCheckAlpha (list Q) (1 # 5) 5;
      EvQuantile sample (1 - (1 # 5)) (Some w1);
      EvQuantile sample (1 - (1 # 5)) (Some [1])]).
Proof.
  cbv zeta.
  assert (H1 : Utils.check_alpha_calib (1 # 5) 5 = Ok tt) by reflexivity.
  assert (H2 : mapM (Utils.quantile (map Fin [1; 2; 3; 4; 5] ++ [PInf])
                       (1 - (1 # 5))) [Some [1; 1; 1; 1; 1; 1]]
               = Ok [Fin 1]) by reflexivity.
  assert (H3 : Utils.quantile (map Fin [1; 2; 3; 4; 5] ++ [PInf])
                 (1 - (1 # 5)) (Some [1]) = Err ValueError) by reflexivity.
  split; [exact H1|]. split; [exact H2|]. split; [exact H3|].
  exact (proj1 (@calibrate_quantile_failure _ _ _ Utils.constant_interval_set
                  Utils.check_alpha_calib Utils.quantile
                  {| _len_calib := 5;
                     _residuals := Some [1; 2; 3; 4; 5];
                     _norm_weights := None |}
                  (1 # 5) (Arr1 [10])
                  (Some [[1; 1; 1; 1; 1; 1]; [1]; [1; 1; 1; 1; 1; 1]])
                  [1; 2; 3; 4; 5]
                  [Some [1; 1; 1; 1; 1; 1]] [Some [1; 1; 1; 1; 1; 1]]
                  (Some [1]) [Fin 1] ValueError
                  eq_refl H1 eq_refl H2 H3)).
Defined.

End CalibrateQuantilesWitness.

Section BarberEntries.
Import BaseCalibrator.

Lemma Qsum_ge_In (l : list Q) (x : Q) :
  Forall (fun w => 0 <= w) l -> In x l -> x <= Qsum l.
Proof.
  induction 1 as [|y l Hy Hl IH]; simpl; intros Hin; [contradiction|].
  pose proof (Qsum_nonneg Hl) as Hs.
  destruct Hin as [->|Hin]; [lra|]. specialize (IH Hin). lra.
Qed.

(** X14.  The normalized weights are probabilities and ignore the test
    features.  For nonnegative calibration weights every entry of the
    matrix [barber_weights] returns lies in [[0, 1]], and the matrix
    depends on [X] through its length only: every test example gets the
    same row. *)
Theorem barber_weights_entries {T} (X : list T) (weights_calib : list Q) :
  Forall (fun w => 0 <= w) weights_calib ->
  Forall (fun v => 0 <= v /\ v <= 1)
         (nd_flat (barber_weights X weights_calib)) /\
  (forall T' (X' : list T'),
     length X' = length X ->
     barber_weights X' weights_calib = barber_weights X weights_calib) /\
  (forall i j,
     match barber_weights X weights_calib with
     | Arr2 _ rows =>
         (i < length X)%nat -> (j < length X)%nat ->
         nth_error rows i = nth_error rows j
     | _ => False
     end).
Proof.
  intros Hw. pose proof (Qsum_nonneg Hw) as Hs.
  split; [|split].
  - rewrite barber_weights_closed_form. cbn [nd_flat].
    apply Forall_forall. intros v Hv. apply in_concat in Hv.
    destruct Hv as (row & Hrow & Hv). apply repeat_spec in Hrow. subst row.
    apply in_app_or in Hv. destruct Hv as [Hv|[<-|[]]].
    + apply in_map_iff in Hv. destruct Hv as (w & <- & Hin).
      pose proof (@Qsum_ge_In _ _ Hw Hin) as Hle.
      rewrite Forall_forall in Hw. specialize (Hw w Hin).
      split.
      * apply Qle_shift_div_l; lra.
      * apply Qle_shift_div_r; lra.
    + split.
      * apply Qle_shift_div_l; lra.
      * apply Qle_shift_div_r; lra.
  - intros T' X' Hlen. rewrite !barber_weights_closed_form. now rewrite Hlen.
  - intros i j. rewrite barber_weights_closed_form. intros Hi Hj.
    now rewrite !nth_error_repeat.
Qed.

Lemma barber_weights_entries_witness :
  Forall (fun w => 0 <= w) [1; 2; 3] /\
  Forall (fun v => 0 <= v /\ v <= 1)
         (nd_flat (barber_weights [tt; tt] [1; 2; 3])).
Proof.
  assert (Hw : Forall (fun w => 0 <= w) [1; 2; 3])
    by (repeat constructor; discriminate).
  split; [exact Hw|].
  exact (proj1 (barber_weights_entries [tt; tt] Hw)).
Defined.

End BarberEntries.

(* ================================================================= *)
(** * Further properties of the CV+ calibrator *)

Section CvPlusFit.
Import CvPlusCalibrator.

(** A fold entry whose calibrator is present and holds residuals. *)
Local Abbreviation fitted_entry :=
  (fun kc : nat * option calibrator =>
     exists c r, snd kc = Some c /\ BaseCalibrator._residuals c = Some r).

Local Abbreviation fit_entry :=
  (fun kc : nat * option calibrator =>
     match snd kc with
     | None => Err AttributeError
     | Some c =>
         match BaseCalibrator._residuals c with
         | None => Err RuntimeError
         | Some _ => Ok tt
         end
     end).

Lemma fit_entries_Ok_iff (d : dict (option calibrator)) :
  (exists l, mapM fit_entry d = Ok l) <-> Forall fitted_entry d.
Proof.
  induction d as [|[k c] d IH]; simpl.
  - split; [constructor | now exists []].
  - split.
    + intros [l Hl]. destruct c as [c|]; simpl in Hl; [|discriminate].
      destruct (BaseCalibrator._residuals c) as [r|] eqn:Hr; simpl in Hl;
        [|discriminate].
      destruct (mapM _ d) as [l'|e]; simpl in Hl; [|discriminate].
      constructor.
      * exists c, r. now split.
      * apply IH. now exists l'.
    + intros H. inversion H as [|? ? (c' & r & Hc & Hr) Hd]; subst.
      simpl in Hc. subst c. rewrite Hr. simpl.
      apply IH in Hd. destruct Hd as [l' ->]. simpl. eauto.
Qed.

Lemma fit_entries_Err (d : dict (option calibrator)) (e : error) :
  Forall (fun kc => snd kc <> None) d ->
  mapM fit_entry d = Err e -> e = RuntimeError.
Proof.
  induction 1 as [|[k c] d Hc _ IH]; simpl; [discriminate|].
  destruct c as [c|]; [|now contradiction Hc].
  destruct (BaseCalibrator._residuals c); simpl; [|congruence].
  destruct (mapM _ d) as [l'|e'] eqn:Hm; simpl; [discriminate|].
  intros He. inversion He; subst. now apply IH.
Qed.

(** X15.  [CvPlusCalibrator.fit] is a check of the folds.  It succeeds
    exactly when every fold calibrator is present and holds residuals,
    the empty dictionary included; for a calibrator built by [__init__]
    the only way it fails is the [RuntimeError] for a fold that was not
    fitted. *)
Theorem fit_checks_every_fold (self : t) :
  (fit self = Ok tt <-> Forall fitted_entry (kfold_calibrators_dict self)) /\
  (kfold_calibrators_dict self = [] -> fit self = Ok tt) /\
  (forall d, __init__ (Some d) = Ok self ->
     kfold_calibrators_dict self = d /\
     (fit self = Ok tt \/ fit self = Err RuntimeError) /\
     (fit self = Err RuntimeError <->
      exists k c, In (k, Some c) d /\ BaseCalibrator._residuals c = None)).
Proof.
  assert (Hiff : fit self = Ok tt
                 <-> Forall fitted_entry (kfold_calibrators_dict self)).
  { rewrite <- fit_entries_Ok_iff. unfold fit. split.
    - destruct (mapM _ _) as [l|e]; simpl; [eauto | discriminate].
    - intros [l ->]. reflexivity. }
  split; [exact Hiff|]. split.
  { intros Hnil. apply Hiff. rewrite Hnil. constructor. }
  intros d Hinit. unfold __init__ in Hinit.
  destruct (entries_present_or_absent d) as [Hall|[k Hk]].
  2:{ rewrite (init_entries_Err _ _ Hk) in Hinit. discriminate. }
  rewrite (init_entries_Ok Hall) in Hinit. simpl in Hinit.
  inversion Hinit; subst self; clear Hinit. cbn [kfold_calibrators_dict] in *.
  split; [reflexivity|].
  assert (Hcases : fit {| kfold_calibrators_dict := d |} = Ok tt \/
                   fit {| kfold_calibrators_dict := d |} = Err RuntimeError).
  { unfold fit. cbn [kfold_calibrators_dict].
    destruct (mapM _ d) as [l|e] eqn:Hm; simpl; [now left|].
    right. now rewrite (fit_entries_Err Hall Hm). }
  split; [exact Hcases|]. split.
  - intros Herr.
    assert (Hnot : ~ Forall fitted_entry d).
    { intros HF. apply Hiff in HF. congruence. }
    clear - Hnot Hall. induction Hall as [|[k c] d Hc _ IH].
    + exfalso. apply Hnot. constructor.
    + simpl in Hc. destruct c as [c|]; [|now contradiction Hc].
      destruct (BaseCalibrator._residuals c) as [r|] eqn:Hr.
      * destruct IH as (k' & c' & Hin & Hr').
        { intros HF. apply Hnot. constructor; [|exact HF].
          exists c, r. now split. }
        exists k', c'. split; [now right | exact Hr'].
      * exists k, c. split; [now left | exact Hr].
  - intros (k & c & Hin & Hr).
    destruct Hcases as [Hok|Herr]; [|exact Herr]. exfalso.
    apply Hiff in Hok. rewrite Forall_forall in Hok.
    destruct (Hok _ Hin) as (c' & r & Hc & Hr'). simpl in Hc.
    inversion Hc; subst c'. congruence.
Qed.

End CvPlusFit.

Section CvPlusCalibrateErrors.
Import CvPlusCalibrator CvPlusSpec.
Variable X : Type.
Variables (self : t) (x : X) (n_test : nat).

Local Abbreviation fold_of := (CvPlusSpec.fold_of self x n_test).
Local Abbreviation candidate_matrix := (CvPlusSpec.candidate_matrix n_test).
Local Abbreviation calibrators := (kfold_calibrators_dict self).

Lemma lookup_missing {V} (k : nat) (d : dict V) :
  ~ In k (map fst d) -> lookup k d = Err KeyError.
Proof.
  induction d as [|[k' v] d IH]; simpl; intros H; [reflexivity|].
  destruct (k =? k')%nat eqn:Hk.
  - apply Nat.eqb_eq in Hk. subst. exfalso. apply H. now left.
  - apply IH. intros Hin. apply H. now right.
Qed.

Lemma fold_loop_app (concat : option (ndarray Q * ndarray Q))
    (l1 l2 : dict (predictor X)) :
  fold_loop self x concat (l1 ++ l2)
  = (c <- fold_loop self x concat l1 ;; fold_loop self x c l2).
Proof.
  revert concat. induction l1 as [|kp l1 IH]; intros concat; simpl;
    [reflexivity|].
  destruct (fold_step self x concat kp) as [c|e]; simpl; [apply IH|reflexivity].
Qed.

(** The state of the loop after folds that all went through. *)
Lemma fold_loop_done (done : dict (predictor X)) (folds : list fold) :
  Forall2 fold_of done folds ->
  exists concat,
    fold_loop self x None done = Ok concat /\
    (done = [] -> concat = None) /\
    (done <> [] ->
     concat = Some (candidate_matrix Qminus folds, candidate_matrix Qplus folds)).
Proof.
  intros H. destruct done as [|kp done].
  - exists None. simpl. repeat split; congruence.
  - eexists. split; [apply (@fold_loop_candidates X self x n_test _ folds);
                     [discriminate | exact H]|].
    split; [discriminate | reflexivity].
Qed.

Lemma calibrate_loop_error (items : dict (predictor X)) (alpha : Q)
    (e : error) :
  fold_loop self x None items = Err e -> calibrate self x items alpha = Err e.
Proof. unfold calibrate. now intros ->. Qed.

(** X16.  How [CvPlusCalibrator.calibrate] fails in its loop.  With no
    fold predictor at all it raises the [RuntimeError] of its final
    sanity check.  Otherwise the first fold that goes wrong stops the
    call with that fold's error, whatever the folds after it hold: a
    predictor returning [None] raises [RuntimeError]; a fold identifier
    without a calibrator raises [KeyError]; a calibrator that was never
    fitted raises [TypeError]; a fold, after the first, whose number of
    predictions differs from the earlier folds' raises [ValueError]. *)
Theorem calibrate_fold_errors (alpha : Q) :
  calibrate self x [] alpha = Err RuntimeError /\
  forall (done later : dict (predictor X)) (folds : list fold)
         (k : nat) (predict : predictor X),
    Forall2 fold_of done folds ->
    let items := done ++ (k, predict) :: later in
    (predict x = None -> calibrate self x items alpha = Err RuntimeError) /\
    (forall y_pred,
       predict x = Some y_pred -> ~ In k (map fst calibrators) ->
       calibrate self x items alpha = Err KeyError) /\
    (forall y_pred c,
       predict x = Some y_pred -> lookup k calibrators = Ok (Some c) ->
       BaseCalibrator._residuals c = None ->
       calibrate self x items alpha = Err TypeError) /\
    (forall y_pred c residuals,
       predict x = Some y_pred -> lookup k calibrators = Ok (Some c) ->
       BaseCalibrator._residuals c = Some residuals ->
       done <> [] -> length y_pred <> n_test ->
       calibrate self x items alpha = Err ValueError).
Proof.
  split; [reflexivity|].
  intros done later folds k predict Hdone items.
  destruct (fold_loop_done Hdone) as (concat & Hloop & Hnil & Hcons).
  assert (Hstep : forall e,
            fold_step self x concat (k, predict) = Err e ->
            calibrate self x items alpha = Err e).
  { intros e He. apply calibrate_loop_error. unfold items.
    rewrite fold_loop_app, Hloop. cbn [bind fold_loop]. now rewrite He. }
  split; [|split; [|split]].
  - intros Hp. apply Hstep. unfold fold_step. now rewrite Hp.
  - intros y_pred Hp Hk. apply Hstep. unfold fold_step.
    now rewrite Hp, (lookup_missing _ _ Hk).
  - intros y_pred c Hp Hk Hr. apply Hstep. unfold fold_step.
    rewrite Hp, Hk. cbn [bind of_option]. now rewrite Hr.
  - intros y_pred c residuals Hp Hk Hr Hne Hlen. apply Hstep.
    rewrite (Hcons Hne). unfold fold_step.
    rewrite Hp, Hk. cbn [bind of_option]. rewrite Hr. cbn [bind of_option].
    rewrite CONSTANT_INTERVAL_column_row. cbn [bind fst snd].
    unfold CvPlusSpec.candidate_matrix, np_concatenate_axis1.
    rewrite !length_map, !length_seq.
    destruct (n_test =? length y_pred)%nat eqn:Hn; [|reflexivity].
    apply Nat.eqb_eq in Hn. congruence.
Qed.

(** X17.  The level of [CvPlusCalibrator.calibrate].  With folds that
    all go through, an [alpha] above [1] makes the call raise
    [ValueError], whatever the number of test examples; [alpha] is
    checked nowhere else, and both ends [alpha = 0] and [alpha = 1]
    return a result as soon as there is a residual. *)
Theorem calibrate_alpha_range (items : dict (predictor X))
    (folds : list fold) (alpha : Q) :
  items <> [] -> Forall2 fold_of items folds ->
  (1 < alpha -> calibrate self x items alpha = Err ValueError) /\
  ((0 < n_candidates folds)%nat ->
   (exists r, calibrate self x items 0 = Ok r) /\
   (exists r, calibrate self x items 1 = Ok r)).
Proof.
  intros Hne H. split.
  - intros Ha.
    rewrite (@calibrate_refines_spec X self x n_test items folds alpha Hne H).
    unfold bounds.
    destruct (Qle_bool 0 (1 - alpha)) eqn:Hb; [|reflexivity].
    apply Qle_bool_iff in Hb. lra.
  - intros Hcand.
    assert (Hrow : forall op i, candidate_bounds op folds i <> []).
    { intros op i Hnil. pose proof (candidate_bounds_length op folds i) as Hl.
      rewrite Hnil in Hl. simpl in Hl. lia. }
    assert (Hret : forall alpha', 0 <= 1 - alpha' -> 1 - alpha' <= 1 ->
              exists r, calibrate self x items alpha' = Ok r).
    { intros alpha' H0 H1.
      rewrite (@calibrate_refines_spec X self x n_test items folds alpha' Hne H).
      unfold bounds.
      rewrite (proj2 (Qle_bool_iff _ _) H0), (proj2 (Qle_bool_iff _ _) H1).
      cbn [andb negb].
      destruct (mapM_exists (lower_bound folds (1 - alpha')) (seq 0 n_test))
        as [y_lo ->].
      { intros i _. unfold lower_bound.
        destruct (@np_quantile_Ok
                    (map (Qmult (-1)) (candidate_bounds Qminus folds i))
                    (1 - alpha')) as (t & Ht & _); auto.
        - intros Hnil. apply map_eq_nil in Hnil. now apply (Hrow Qminus i).
        - rewrite Ht. simpl. eauto. }
      destruct (mapM_exists (upper_bound folds (1 - alpha')) (seq 0 n_test))
        as [y_hi ->].
      { intros i _. unfold upper_bound.
        destruct (@np_quantile_Ok (candidate_bounds Qplus folds i)
                    (1 - alpha')) as (t & Ht & _); eauto. }
      simpl. eauto. }
    split; apply Hret; lra.
Qed.

End CvPlusCalibrateErrors.

Section CvPlusCalibrateErrorsWitness.
Import CvPlusCalibrator CvPlusSpec.

Lemma scenario_folds :
  Forall2 (CvPlusSpec.fold_of Scenario.self tt 1)
          Scenario.kfold_predictors_dict Scenario.folds.
Proof. repeat constructor; simpl; eexists; split; reflexivity. Qed.

Lemma calibrate_alpha_range_witness :
  Scenario.kfold_predictors_dict <> [] /\
  Forall2 (CvPlusSpec.fold_of Scenario.self tt 1)
          Scenario.kfold_predictors_dict Scenario.folds /\
  1 < 2 /\
  calibrate Scenario.self tt Scenario.kfold_predictors_dict 2
  = Err ValueError.
Proof.
  assert (H1 : Scenario.kfold_predictors_dict <> []) by discriminate.
  assert (H4 : 1 < 2) by reflexivity.
  split; [exact H1|]. split; [exact scenario_folds|].
  split; [exact H4|].
  exact (proj1 (@calibrate_alpha_range unit Scenario.self tt 1
                  Scenario.kfold_predictors_dict Scenario.folds 2
                  H1 scenario_folds) H4).
Defined.

End CvPlusCalibrateErrorsWitness.

Section CvPlusGuarantee.
Import CvPlusCalibrator CvPlusSpec.
Variable X : Type.
Variables (self : t) (x : X) (n_test : nat).

Local Abbreviation fold_of := (CvPlusSpec.fold_of self x n_test).

(** Number of values of [l] that satisfy [p]. *)
Local Abbreviation count p l := (length (filter p l)).

Lemma count_map {A B} (p : B -> bool) (f : A -> B) (l : list A) :
  count p (map f l) = count (fun a => p (f a)) l.
Proof.
  induction l as [|a l IH]; simpl; auto.
  destruct (p (f a)); simpl; congruence.
Qed.

Lemma Qle_bool_eq (a b c d : Q) :
  (a <= b <-> c <= d) -> Qle_bool a b = Qle_bool c d.
Proof.
  intros H. destruct (Qle_bool a b) eqn:H1, (Qle_bool c d) eqn:H2; auto.
  - apply Qle_bool_iff, H, Qle_bool_iff in H1. congruence.
  - apply Qle_bool_iff, H, Qle_bool_iff in H2. congruence.
Qed.

(** Two selections that together exceed the list share a member. *)
Lemma count_overlap {A} (p q : A -> bool) (l : list A) :
  (length l < count p l + count q l)%nat ->
  exists a, In a l /\ p a = true /\ q a = true.
Proof.
  induction l as [|a l IH]; simpl; intros H; [lia|].
  destruct (p a) eqn:Hp, (q a) eqn:Hq; simpl in H;
    try (now exists a; auto);
    (destruct IH as (b & Hb & Hpb & Hqb); [lia|]; exists b; auto).
Qed.

(** The test example's candidates as pairs of a fold's prediction and
    one of its residuals. *)
Local Abbreviation candidate_pairs folds i :=
  (flat_map (fun f : fold => map (fun r => (nth i (fst f) 0, r)) (snd f))
            folds).

Lemma candidate_bounds_pairs (op : Q -> Q -> Q) (folds : list fold) (i : nat) :
  candidate_bounds op folds i
  = map (fun pr : Q * Q => op (fst pr) (snd pr))
        (candidate_pairs folds i).
Proof.
  unfold candidate_bounds. induction folds as [|f folds IH]; simpl; auto.
  rewrite map_app, map_map, IH. reflexivity.
Qed.

Lemma candidate_pairs_residuals (folds : list fold) (i : nat) (pr : Q * Q) :
  Forall (fun f : fold => Forall (fun r => 0 <= r) (snd f)) folds ->
  In pr (candidate_pairs folds i) -> 0 <= snd pr.
Proof.
  intros Hnn Hin. apply in_flat_map in Hin.
  destruct Hin as (f & Hf & Hin). apply in_map_iff in Hin.
  destruct Hin as (r & <- & Hr). simpl.
  rewrite Forall_forall in Hnn. specialize (Hnn f Hf).
  rewrite Forall_forall in Hnn. now apply Hnn.
Qed.

(** What [calibrate] returns for one test example. *)
Lemma calibrate_rows (items : dict (predictor X)) (folds : list fold)
    (alpha : Q) (y_lo y_hi : list Q) (i : nat) :
  items <> [] -> Forall2 fold_of items folds ->
  calibrate self x items alpha = Ok (y_lo, y_hi) -> (i < n_test)%nat ->
  exists t_lo t_hi,
    np_quantile (map (Qmult (-1)) (candidate_bounds Qminus folds i))
                (1 - alpha) = Ok t_lo /\
    nth_error y_lo i = Some ((-1) * t_lo) /\
    np_quantile (candidate_bounds Qplus folds i) (1 - alpha) = Ok t_hi /\
    nth_error y_hi i = Some t_hi.
Proof.
  intros Hne H Hcal Hi.
  rewrite (@calibrate_refines_spec X self x n_test items folds alpha Hne H)
    in Hcal.
  unfold bounds in Hcal.
  destruct (negb (Qle_bool 0 (1 - alpha) && Qle_bool (1 - alpha) 1));
    [discriminate|].
  destruct (mapM (lower_bound folds (1 - alpha)) (seq 0 n_test))
    as [lo|e] eqn:Hlo; simpl in Hcal; [|discriminate].
  destruct (mapM (upper_bound folds (1 - alpha)) (seq 0 n_test))
    as [hi|e] eqn:Hhi; simpl in Hcal; [|discriminate].
  inversion Hcal; subst lo hi; clear Hcal.
  assert (Hseq : nth_error (seq 0 n_test) i = Some i).
  { rewrite nth_error_nth' with (d := 0%nat) by (rewrite length_seq; lia).
    now rewrite seq_nth. }
  destruct (mapM_nth_error _ _ _ Hlo Hseq) as (lo & Hlo_i & Hnlo).
  destruct (mapM_nth_error _ _ _ Hhi Hseq) as (hi & Hhi_i & Hnhi).
  unfold lower_bound in Hlo_i. unfold upper_bound in Hhi_i.
  destruct (np_quantile (map (Qmult (-1)) (candidate_bounds Qminus folds i))
              (1 - alpha)) as [t_lo|e]; simpl in Hlo_i; [|discriminate].
  inversion Hlo_i; subst lo.
  exists t_lo, hi. repeat split; auto.
Qed.

(** A quantile that is returned is one of the values. *)
Lemma np_quantile_In (row : list Q) (q v : Q) :
  np_quantile row q = Ok v -> In v row.
Proof.
  unfold np_quantile, np_quantile_by. destruct (negb _); [discriminate|].
  destruct (nth_error (sort_by Qle_bool row) _) as [w|] eqn:Hw;
    simpl; [|discriminate].
  intros H. inversion H; subst w.
  apply (Permutation_in _ (sort_by_perm Qle_bool row)).
  eapply nth_error_In; eauto.
Qed.

Lemma candidate_bounds_In (op : Q -> Q -> Q) (folds : list fold) (i : nat)
    (c : Q) :
  In c (candidate_bounds op folds i) ->
  exists f r, In f folds /\ In r (snd f) /\ c = op (nth i (fst f) 0) r.
Proof.
  unfold candidate_bounds. intros H. apply in_flat_map in H.
  destruct H as (f & Hf & H). apply in_map_iff in H.
  destruct H as (r & <- & Hr). now exists f, r.
Qed.

(** X18.  The CV+ bounds are candidate bounds.  For every test example
    the upper bound returned is the prediction of one fold plus one
    residual of that fold, and the lower bound is the prediction of one
    fold minus one residual of that fold: the call picks among the
    candidates and never interpolates between them. *)
Theorem calibrate_bounds_are_candidates (items : dict (predictor X))
    (folds : list fold) (alpha : Q) (y_lo y_hi : list Q) (i : nat) :
  items <> [] -> Forall2 fold_of items folds ->
  calibrate self x items alpha = Ok (y_lo, y_hi) -> (i < n_test)%nat ->
  exists lo hi,
    nth_error y_lo i = Some lo /\ nth_error y_hi i = Some hi /\
    (exists f r, In f folds /\ In r (snd f) /\ hi = nth i (fst f) 0 + r) /\
    (exists f r, In f folds /\ In r (snd f) /\ lo == nth i (fst f) 0 - r).
Proof.
  intros Hne H Hcal Hi.
  destruct (@calibrate_rows _ _ _ _ _ i Hne H Hcal Hi)
    as (t_lo & t_hi & Hqlo & Hnlo & Hqhi & Hnhi).
  exists ((-1) * t_lo), t_hi.
  split; [exact Hnlo|]. split; [exact Hnhi|]. split.
  - apply np_quantile_In in Hqhi. now apply candidate_bounds_In in Hqhi.
  - apply np_quantile_In, in_map_iff in Hqlo.
    destruct Hqlo as (c & <- & Hc).
    apply candidate_bounds_In in Hc. destruct Hc as (f & r & Hf & Hr & ->).
    exists f, r. split; [exact Hf|]. split; [exact Hr|]. ring.
Qed.

(** X19.  The CV+ interval is not inverted below one half.  For
    nonnegative residuals and [0 <= alpha <= 1/2 - 2^-53], the lower
    bound returned for a test example is at most its upper bound.  The
    bound on [alpha] takes in every binary64 number below one half but
    the one next to it, at which the level [1 - alpha] the code computes
    is one half; at one half the interval can be inverted. *)
Theorem calibrate_interval_ordered (items : dict (predictor X))
    (folds : list fold) (alpha : Q) (y_lo y_hi : list Q) (i : nat) :
  items <> [] -> Forall2 fold_of items folds ->
  Forall (fun f : fold => Forall (fun r => 0 <= r) (snd f)) folds ->
  0 <= alpha -> alpha <= (1 # 2) - (1 # 9007199254740992) ->
  calibrate self x items alpha = Ok (y_lo, y_hi) -> (i < n_test)%nat ->
  exists lo hi,
    nth_error y_lo i = Some lo /\ nth_error y_hi i = Some hi /\ lo <= hi.
Proof.
  intros Hne H Hnn Ha0 Hmargin Hcal Hi.
  assert (Ha1 : alpha < 1 # 2) by lra.
  clear Hmargin.
  destruct (@calibrate_rows _ _ _ _ _ i Hne H Hcal Hi)
    as (t_lo & t_hi & Hqlo & Hnlo & Hqhi & Hnhi).
  assert (Hq0 : 0 < 1 - alpha) by lra.
  assert (Hq1 : 1 - alpha <= 1) by lra.
  destruct (@np_quantile_inverted_cdf _ _ _ Hq0 Hq1 Hqhi) as (Hin_hi & Hge_hi & _).
  destruct (@np_quantile_inverted_cdf _ _ _ Hq0 Hq1 Hqlo) as (_ & Hge_lo & _).
  exists ((-1) * t_lo), t_hi.
  split; [exact Hnlo|]. split; [exact Hnhi|].
  rewrite candidate_bounds_pairs in Hin_hi, Hge_hi, Hge_lo.
  rewrite !length_map in Hge_hi. rewrite !length_map in Hge_lo.
  rewrite !count_map in Hge_hi. rewrite !count_map in Hge_lo.
  set (pairs := candidate_pairs folds i) in *.
  set (p := fun a : Q * Q => Qle_bool (fst a + snd a) t_hi) in *.
  set (q := fun a : Q * Q => Qle_bool (-1 * (fst a - snd a)) t_lo) in *.
  destruct (count_overlap p q pairs) as (a & Hin & Hp & Hq).
  { assert (Hpos : (0 < length pairs)%nat).
    { apply in_map_iff in Hin_hi. destruct Hin_hi as (a & _ & Ha).
      destruct pairs; [contradiction | simpl; lia]. }
    assert (HposQ : 0 < inject_Z (Z.of_nat (length pairs)))
      by (rewrite <- (Zlt_Qlt 0); lia).
    assert (Hsum : inject_Z (Z.of_nat (length pairs))
                   < inject_Z (Z.of_nat (count p pairs))
                     + inject_Z (Z.of_nat (count q pairs))).
    { set (m := inject_Z (Z.of_nat (length pairs))) in *.
      clearbody m. clear - Hge_hi Hge_lo HposQ Ha1. nra. }
    rewrite <- inject_Z_plus, <- Zlt_Qlt in Hsum. lia. }
  unfold p in Hp. unfold q in Hq. apply Qle_bool_iff in Hp, Hq.
  pose proof (@candidate_pairs_residuals _ _ _ Hnn Hin) as Hr.
  lra.
Qed.

End CvPlusGuarantee.

Section CvPlusGuaranteeWitness.
Import CvPlusCalibrator CvPlusSpec.

Lemma calibrate_bounds_are_candidates_witness :
  Scenario.kfold_predictors_dict <> [] /\
  calibrate Scenario.self tt Scenario.kfold_predictors_dict (1 # 2)
  = Ok ([8], [12]) /\ (0 < 1)%nat /\
  exists lo hi,
    nth_error [8] 0 = Some lo /\ nth_error [12] 0 = Some hi /\
    (exists f r, In f Scenario.folds /\ In r (snd f) /\
                 hi = nth 0 (fst f) 0 + r) /\
    (exists f r, In f Scenario.folds /\ In r (snd f) /\
                 lo == nth 0 (fst f) 0 - r).
Proof.
  assert (H1 : Scenario.kfold_predictors_dict <> []) by discriminate.
  assert (H4 : calibrate Scenario.self tt Scenario.kfold_predictors_dict
                 (1 # 2) = Ok ([8], [12])) by (vm_compute; reflexivity).
  assert (H5 : (0 < 1)%nat) by lia.
  split; [exact H1|]. split; [exact H4|]. split; [exact H5|].
  exact (@calibrate_bounds_are_candidates unit Scenario.self tt 1
           Scenario.kfold_predictors_dict Scenario.folds (1 # 2)
           [8] [12] 0%nat H1 scenario_folds H4 H5).
Defined.

Lemma calibrate_interval_ordered_witness :
  Scenario.kfold_predictors_dict <> [] /\
  Forall (fun f : fold => Forall (fun r => 0 <= r) (snd f)) Scenario.folds /\
  0 <= 1 # 4 /\ 1 # 4 <= (1 # 2) - (1 # 9007199254740992) /\
  calibrate Scenario.self tt Scenario.kfold_predictors_dict (1 # 4)
  = Ok ([7], [13]) /\ (0 < 1)%nat /\
  exists lo hi,
    nth_error [7] 0 = Some lo /\ nth_error [13] 0 = Some hi /\ lo <= hi.
Proof.
  assert (H1 : Scenario.kfold_predictors_dict <> []) by discriminate.
  assert (Hnn : Forall (fun f : fold => Forall (fun r => 0 <= r) (snd f))
                       Scenario.folds)
    by (repeat constructor; discriminate).
  assert (H2 : 0 <= 1 # 4) by discriminate.
  assert (H3 : 1 # 4 <= (1 # 2) - (1 # 9007199254740992)) by discriminate.
  assert (H4 : calibrate Scenario.self tt Scenario.kfold_predictors_dict
                 (1 # 4) = Ok ([7], [13])) by (vm_compute; reflexivity).
  assert (H5 : (0 < 1)%nat) by lia.
  split; [exact H1|]. split; [exact Hnn|]. split; [exact H2|].
  split; [exact H3|]. split; [exact H4|]. split; [exact H5|].
  exact (@calibrate_interval_ordered unit Scenario.self tt 1
           Scenario.kfold_predictors_dict Scenario.folds (1 # 4)
           [7] [13] 0%nat H1 scenario_folds Hnn H2 H3 H4 H5).
Defined.

(** At [alpha = 1/2] the bound on [alpha] is needed: two folds that
    predict [0] and [10] with the single residual [0] each give the
    interval [(10, 0)]. *)
Example calibrate_interval_inverted_at_half :
  calibrate
    {| kfold_calibrators_dict :=
         [(0%nat, Some (Scenario.fitted [0]));
          (1%nat, Some (Scenario.fitted [0]))] |}
    tt [(0%nat, fun _ : unit => Some [0]); (1%nat, fun _ => Some [10])]
    (1 # 2)
  = Ok ([10], [0]).
Proof. vm_compute. reflexivity. Qed.

End CvPlusGuaranteeWitness.

Section CvPlusSingleFold.
Import CvPlusCalibrator CvPlusSpec.
Variable X : Type.
Variables (self : t) (x : X) (n_test : nat).

Local Abbreviation fold_of := (CvPlusSpec.fold_of self x n_test).

(** The inverted-CDF quantile commutes with an increasing map. *)
Lemma np_quantile_map_mono (g : Q -> Q) (row : list Q) (q : Q) :
  (forall a b, Qle_bool a b = Qle_bool (g a) (g b)) ->
  np_quantile (map g row) q = (v <- np_quantile row q ;; Ok (g v)).
Proof.
  intros Hg. unfold np_quantile, np_quantile_by.
  destruct (negb _); [reflexivity|].
  rewrite length_map, <- (sort_by_map Qle_bool Qle_bool g row Hg).
  rewrite nth_error_map.
  destruct (nth_error (sort_by Qle_bool row) _); reflexivity.
Qed.

(** X20.  With a single fold, CV+ is the plain split interval.  When
    the dictionary holds one fold predictor, the bounds returned for a
    test example are its prediction minus and plus the inverted-CDF
    quantile, at level [1 - alpha], of that fold's residuals as they
    are: the threshold is one of the residuals, no infinite score is
    added to them. *)
Theorem calibrate_single_fold (k : nat) (predict : predictor X) (f : fold)
    (alpha : Q) (y_lo y_hi : list Q) (i : nat) :
  fold_of (k, predict) f ->
  calibrate self x [(k, predict)] alpha = Ok (y_lo, y_hi) ->
  (i < n_test)%nat ->
  exists q lo,
    np_quantile (snd f) (1 - alpha) = Ok q /\ In q (snd f) /\
    nth_error y_hi i = Some (nth i (fst f) 0 + q) /\
    nth_error y_lo i = Some lo /\ lo == nth i (fst f) 0 - q.
Proof.
  intros Hf Hcal Hi.
  assert (Hne : [(k, predict)] <> []) by discriminate.
  assert (H : Forall2 fold_of [(k, predict)] [f])
    by (constructor; [exact Hf | constructor]).
  destruct (@calibrate_rows X self x n_test _ _ _ _ _ i Hne H Hcal Hi)
    as (t_lo & t_hi & Hqlo & Hnlo & Hqhi & Hnhi).
  unfold candidate_bounds in Hqlo, Hqhi. cbn [flat_map] in Hqlo, Hqhi.
  rewrite app_nil_r in Hqlo, Hqhi. rewrite map_map in Hqlo.
  set (p := nth i (fst f) 0) in *.
  rewrite (np_quantile_map_mono (fun r => p + r)) in Hqhi
    by (intros a b; apply Qle_bool_eq; split; intros; lra).
  rewrite (np_quantile_map_mono (fun r => -1 * (p - r))) in Hqlo
    by (intros a b; apply Qle_bool_eq; split; intros; lra).
  destruct (np_quantile (snd f) (1 - alpha)) as [q|e] eqn:Hq;
    simpl in Hqhi, Hqlo; [|discriminate].
  inversion Hqhi; subst t_hi. inversion Hqlo; subst t_lo.
  exists q, (-1 * (-1 * (p - q))).
  split; [reflexivity|]. split.
  { unfold np_quantile, np_quantile_by in Hq.
    destruct (negb _); [discriminate|].
    destruct (nth_error (sort_by Qle_bool (snd f)) _) as [v|] eqn:Hv;
      simpl in Hq; [|discriminate].
    inversion Hq; subst v.
    apply (Permutation_in _ (sort_by_perm Qle_bool (snd f))).
    eapply nth_error_In; eauto. }
  split; [exact Hnhi|]. split; [exact Hnlo|]. ring.
Qed.

End CvPlusSingleFold.

Section CvPlusSingleFoldWitness.
Import CvPlusCalibrator CvPlusSpec.

Lemma calibrate_single_fold_witness :
  let self := {| kfold_calibrators_dict :=
                   [(0%nat, Some (Scenario.fitted [1; 2; 3]))] |} in
  let predict := fun _ : unit => Some [10] in
  CvPlusSpec.fold_of self tt 1 (0%nat, predict) ([10], [1; 2; 3]) /\
  calibrate self tt [(0%nat, predict)] (1 # 3) = Ok ([8], [12]) /\
  (0 < 1)%nat /\
  exists q lo,
    np_quantile [1; 2; 3] (1 - (1 # 3)) = Ok q /\
    nth_error [12] 0 = Some (10 + q) /\
    nth_error [8] 0 = Some lo /\ lo == 10 - q.
Proof.
  cbv zeta.
  assert (H1 : CvPlusSpec.fold_of
                 {| kfold_calibrators_dict :=
                      [(0%nat, Some (Scenario.fitted [1; 2; 3]))] |}
                 tt 1 (0%nat, fun _ : unit => Some [10]) ([10], [1; 2; 3])).
  { repeat split. eexists. split; reflexivity. }
  assert (H2 : calibrate
                 {| kfold_calibrators_dict :=
                      [(0%nat, Some (Scenario.fitted [1; 2; 3]))] |}
                 tt [(0%nat, fun _ : unit => Some [10])] (1 # 3)
               = Ok ([8], [12])) by (vm_compute; reflexivity).
  assert (H3 : (0 < 1)%nat) by lia.
  split; [exact H1|]. split; [exact H2|]. split; [exact H3|].
  destruct (@calibrate_single_fold unit _ tt 1 0%nat _ ([10], [1; 2; 3])
              (1 # 3) [8] [12] 0%nat H1 H2 H3)
    as (q & lo & Hq & _ & Hhi & Hlo & Heq).
  exists q, lo. repeat split; assumption.
Defined.

End CvPlusSingleFoldWitness.


Section RapsSetNested.
Import PredictionSets.
Variables (lambd : Q) (k_reg : Z) (u : nat -> Q).

Lemma filter_length_mono {A} (p q : A -> bool) (l : list A) :
  (forall a, p a = true -> q a = true) ->
  (length (filter p l) <= length (filter q l))%nat.
Proof.
  intros H. induction l as [|a l IH]; simpl; auto.
  destruct (p a) eqn:Hp.
  - rewrite (H a Hp). simpl. lia.
  - destruct (q a); simpl; lia.
Qed.

(** The cut rank does not decrease with the threshold. *)
Lemma raps_L_mono (row : list Q) (tau tau' : Q) :
  tau <= tau' ->
  (raps_L lambd k_reg row tau <= raps_L lambd k_reg row tau')%Z.
Proof.
  intros Ht. unfold raps_L.
  pose proof (filter_length_mono (fun x => Qle_bool x tau)
                (fun x => Qle_bool x tau') (penal_cum_proba lambd k_reg row))
    as H.
  assert (Hle : forall a, Qle_bool a tau = true -> Qle_bool a tau' = true).
  { intros a Ha. apply Qle_bool_iff in Ha. apply Qle_bool_iff. lra. }
  specialize (H Hle). lia.
Qed.

(** At the first rank, a cut-off at the larger threshold is a cut-off at
    the smaller one. *)
Lemma raps_v_first_rank (row : list Q) (tau tau' : Q) (i : nat)
    (v v' : ext) :
  Forall (fun p => 0 <= p) row -> 0 <= tau -> tau <= tau' -> 0 <= lambd ->
  raps_L lambd k_reg row tau = 1%Z -> raps_L lambd k_reg row tau' = 1%Z ->
  raps_v lambd k_reg row tau = Ok v -> raps_v lambd k_reg row tau' = Ok v' ->
  ext_leb v' (u i) = true -> ext_leb v (u i) = true.
Proof.
  intros Hnn Htau Hle Hlambd HL HL' Hv Hv' Hcut.
  rewrite raps_v_guarded in Hv, Hv'. unfold raps_proba_excess in Hv, Hv'.
  rewrite HL in Hv. rewrite HL' in Hv'.
  rewrite !np_index_nonneg in Hv by lia.
  rewrite !np_index_nonneg in Hv' by lia.
  change (Z.to_nat (1 - 1)) with 0%nat in Hv, Hv'.
  destruct (nth_error (sorted_cum_mass row) 0) as [cm|] eqn:Hcm;
    cbn [bind of_option] in Hv, Hv'; [|discriminate].
  destruct (nth_error (sorted_proba row) 0) as [p|] eqn:Hp;
    cbn [bind of_option] in Hv, Hv'; [|discriminate].
  assert (Hz : 0 <= inject_Z (Z.max (1 - k_reg) 0))
    by (rewrite <- (Zle_Qle 0); lia).
  set (z := inject_Z (Z.max (1 - k_reg) 0)) in *. clearbody z.
  injection Hv as <-. injection Hv' as <-.
  assert (Hlen : (0 < length (sorted_proba row))%nat)
    by (apply nth_error_Some; congruence).
  destruct cumsum_nth with (l := sorted_proba row) (L := 0%nat)
    as (cm' & Hcm' & Hcmeq); [exact Hlen|].
  unfold sorted_cum_mass in Hcm. rewrite Hcm in Hcm'.
  inversion Hcm'; subst cm'; clear Hcm'.
  rewrite firstn_S_nth with (a := p) in Hcmeq by exact Hp.
  rewrite Qsum_app in Hcmeq. cbn [firstn Qsum] in Hcmeq.
  assert (Hp0 : 0 <= p).
  { rewrite Forall_forall in Hnn. apply Hnn.
    apply (Permutation_in _ (sorted_proba_perm row)).
    eapply nth_error_In; eauto. }
  assert (Hlz : 0 <= lambd * z) by (apply Qmult_le_0_compat; assumption).
  set (lz := lambd * z) in *.
  assert (HN : 0 <= tau - (- cm - lz + p))
    by (clearbody lz; clear - Hcmeq Htau Hlz; lra).
  assert (HNN : tau - (- cm - lz + p) <= tau' - (- cm - lz + p))
    by (clear - Hle; lra).
  set (N := tau - (- cm - lz + p)) in *.
  set (N' := tau' - (- cm - lz + p)) in *.
  clearbody N N'.
  unfold np_div in *. destruct (Qeq_bool p 0) eqn:Hpz.
  - exfalso. destruct (Qlt_bool 0 N'); [cbn [ext_leb] in Hcut; discriminate|].
    destruct (Qlt_bool N' 0) eqn:HN0; [|cbn [ext_leb] in Hcut; discriminate].
    unfold Qlt_bool in HN0. apply negb_true_iff in HN0.
    assert (H0 : 0 <= N') by (clear - HN HNN; lra).
    apply Qle_bool_iff in H0. congruence.
  - cbn [ext_leb] in *. apply Qle_bool_iff in Hcut. apply Qle_bool_iff.
    assert (Hppos : 0 < p).
    { apply Qeq_bool_neq in Hpz. clear - Hpz Hp0. lra. }
    apply Qdiv_le_iff; [exact Hppos|].
    apply Qdiv_le_iff in Hcut; [|exact Hppos].
    clear - Hcut HNN. lra.
Qed.

(** X22.  RAPS sets are nested in the threshold.  For nonnegative
    probabilities, [lambd >= 0], a draw [u[i] < 1] and thresholds
    [0 <= tau <= tau'], the set built for [tau] is the beginning of the
    set built for [tau']: raising the threshold never removes a class. *)
Theorem RAPS_SET_nested (row : list Q) (tau tau' : Q) (i : nat)
    (s s' : list nat) :
  Forall (fun p => 0 <= p) row -> 0 <= tau -> tau <= tau' -> 0 <= lambd ->
  u i < 1 ->
  raps_set_row lambd k_reg u row tau i = Ok s ->
  raps_set_row lambd k_reg u row tau' i = Ok s' ->
  s = firstn (length s) s' /\ (length s <= length s')%nat /\
  (forall k, In k s -> In k s').
Proof.
  intros Hnn Htau Hle Hlambd Hu Hs Hs'.
  destruct raps_set_row_inv with (1 := Hs)
    as (pe & v & cut & Hpe & Hv & _ & Hc & Hset).
  destruct raps_set_row_inv with (1 := Hs')
    as (pe' & v' & cut' & Hpe' & Hv' & _ & Hc' & Hset').
  pose proof (raps_L_positive lambd k_reg row tau) as HL.
  pose proof (raps_L_mono row Hle) as Hmono.
  pose proof (raps_proba_excess_in_range _ _ _ _ Hpe) as Hrange.
  pose proof (raps_proba_excess_in_range _ _ _ _ Hpe') as Hrange'.
  assert (Hcut : (0 <= cut <= cut')%Z /\
                 (cut' <= Z.of_nat (length row))%Z).
  { destruct (Z_le_gt_dec 2 (raps_L lambd k_reg row tau')) as [H2|H1].
    - assert (Htau' : 0 <= tau') by lra.
      rewrite (@raps_v_beyond_first lambd k_reg u row tau' i pe' v'
                 Hnn Htau' Hlambd H2 Hu Hpe' Hv') in Hc'.
      subst cut cut'. destruct (ext_leb v (u i)); lia.
    - assert (HL1' : raps_L lambd k_reg row tau' = 1%Z) by lia.
      assert (HL1 : raps_L lambd k_reg row tau = 1%Z) by lia.
      destruct (ext_leb v' (u i)) eqn:Hb'.
      + rewrite (raps_v_first_rank i Hnn Htau Hle Hlambd HL1 HL1' Hv Hv' Hb')
          in Hc.
        subst cut cut'. lia.
      + subst cut cut'. destruct (ext_leb v (u i)); lia. }
  destruct Hcut as [[Hc0 Hcc] Hcn].
  assert (Hneg : (cut <? 0)%Z = false) by (apply Z.ltb_ge; lia).
  assert (Hneg' : (cut' <? 0)%Z = false) by (apply Z.ltb_ge; lia).
  unfold raps_set_of_cut in Hset, Hset'. rewrite Hneg in Hset.
  rewrite Hneg' in Hset'.
  assert (Hlen : length s = Z.to_nat cut)
    by (rewrite Hset, length_firstn, class_ranking_length; lia).
  assert (Hlen' : length s' = Z.to_nat cut')
    by (rewrite Hset', length_firstn, class_ranking_length; lia).
  assert (Hprefix : s = firstn (length s) s').
  { rewrite Hlen. rewrite Hset at 1. rewrite Hset', firstn_firstn.
    f_equal. lia. }
  split; [exact Hprefix|]. split; [lia|].
  intros k Hk. rewrite Hprefix in Hk. now apply In_firstn in Hk.
Qed.

End RapsSetNested.

Section RapsSetNestedWitness.
Import PredictionSets.

Lemma RAPS_SET_nested_witness :
  let row := [1 # 5; 1 # 2; 3 # 10] in
  Forall (fun p => 0 <= p) row /\ 0 <= 3 # 10 /\ 3 # 10 <= 7 # 10 /\
  0 <= 0 /\ 1 # 2 < 1 /\
  raps_set_row 0 1 (fun _ => 1 # 2) row (3 # 10) 0 = Ok [1%nat] /\
  raps_set_row 0 1 (fun _ => 1 # 2) row (7 # 10) 0 = Ok [1; 2]%nat /\
  [1%nat] = firstn (length [1%nat]) [1; 2]%nat.
Proof.
  cbv zeta.
  assert (H1 : Forall (fun p => 0 <= p) [1 # 5; 1 # 2; 3 # 10])
    by (repeat constructor; discriminate).
  assert (H2 : 0 <= 3 # 10) by discriminate.
  assert (H3 : 3 # 10 <= 7 # 10) by discriminate.
  assert (H4 : 0 <= 0) by discriminate.
  assert (H5 : 1 # 2 < 1) by reflexivity.
  assert (H6 : raps_set_row 0 1 (fun _ => 1 # 2) [1 # 5; 1 # 2; 3 # 10]
                 (3 # 10) 0 = Ok [1%nat]) by (vm_compute; reflexivity).
  assert (H7 : raps_set_row 0 1 (fun _ => 1 # 2) [1 # 5; 1 # 2; 3 # 10]
                 (7 # 10) 0 = Ok [1; 2]%nat) by (vm_compute; reflexivity).
  repeat (split; [assumption|]).
  exact (proj1 (@RAPS_SET_nested 0 1%Z (fun _ : nat => 1 # 2) _ _ _ 0%nat _ _
                  H1 H2 H3 H4 H5 H6 H7)).
Defined.

End RapsSetNestedWitness.

Section CvPlusInvariance.
Import CvPlusCalibrator CvPlusSpec.
Variable X : Type.
Variables (self : t) (x : X) (n_test : nat).

Local Abbreviation fold_of := (CvPlusSpec.fold_of self x n_test).

Lemma Qle_count_lt (row : list Q) (v v' : Q) :
  v < v' ->
  (length (filter (fun t => Qle_bool t v) row)
   <= length (filter (fun t => Qlt_bool t v') row))%nat.
Proof.
  intros Hlt. apply filter_length_mono. intros t Ht.
  apply Qle_bool_iff in Ht. unfold Qlt_bool. apply negb_true_iff.
  destruct (Qle_bool v' t) eqn:Hb; [|reflexivity].
  apply Qle_bool_iff in Hb. lra.
Qed.

(** The inverted-CDF quantile depends on the values only, not on their
    order. *)
Lemma np_quantile_perm (row row' : list Q) (q v v' : Q) :
  Permutation row row' -> 0 < q -> q <= 1 ->
  np_quantile row q = Ok v -> np_quantile row' q = Ok v' -> v == v'.
Proof.
  intros Hperm Hq0 Hq1 Hv Hv'.
  destruct (@np_quantile_inverted_cdf _ _ _ Hq0 Hq1 Hv) as (_ & Hge & Hlt).
  destruct (@np_quantile_inverted_cdf _ _ _ Hq0 Hq1 Hv') as (_ & Hge' & Hlt').
  rewrite <- (Permutation_length Hperm) in Hge', Hlt'.
  rewrite <- (filter_length_perm _ Hperm) in Hge'.
  rewrite <- (filter_length_perm _ Hperm) in Hlt'.
  destruct (Qlt_le_dec v v') as [H1|H1].
  - exfalso. pose proof (Qle_count_lt row H1) as Hc.
    apply Nat2Z.inj_le in Hc. rewrite Zle_Qle in Hc. lra.
  - destruct (Qlt_le_dec v' v) as [H2|H2]; [|lra].
    exfalso. pose proof (Qle_count_lt row H2) as Hc.
    apply Nat2Z.inj_le in Hc. rewrite Zle_Qle in Hc. lra.
Qed.

(** The inverted-CDF quantile does not decrease with the level. *)
Lemma np_quantile_mono (row : list Q) (q q' v v' : Q) :
  0 < q -> q <= q' -> q' <= 1 ->
  np_quantile row q = Ok v -> np_quantile row q' = Ok v' -> v <= v'.
Proof.
  intros Hq0 Hqq Hq1 Hv Hv'.
  assert (Hq1' : q <= 1) by lra. assert (Hq0' : 0 < q') by lra.
  destruct (@np_quantile_inverted_cdf _ _ _ Hq0 Hq1' Hv) as (_ & _ & Hlt).
  destruct (@np_quantile_inverted_cdf _ _ _ Hq0' Hq1 Hv') as (_ & Hge' & _).
  destruct (Qlt_le_dec v' v) as [H|H]; [|exact H].
  exfalso. pose proof (Qle_count_lt row H) as Hc.
  apply Nat2Z.inj_le in Hc. rewrite Zle_Qle in Hc.
  assert (Hn : 0 <= inject_Z (Z.of_nat (length row)))
    by (rewrite <- (Zle_Qle 0); lia).
  set (n := inject_Z (Z.of_nat (length row))) in *. clearbody n.
  assert (n * q <= n * q') by nra. lra.
Qed.

(** X23.  The order of the folds does not matter.  Two runs of
    [CvPlusCalibrator.calibrate] whose folds hold the same predictions
    and residuals, in whatever order, return equal bounds for every test
    example (for [0 <= alpha < 1]). *)
Theorem calibrate_fold_order (items items' : dict (predictor X))
    (folds folds' : list fold) (alpha : Q) (y_lo y_hi y_lo' y_hi' : list Q)
    (i : nat) :
  items <> [] -> Forall2 fold_of items folds ->
  Forall2 fold_of items' folds' -> Permutation folds folds' ->
  0 <= alpha -> alpha < 1 ->
  calibrate self x items alpha = Ok (y_lo, y_hi) ->
  calibrate self x items' alpha = Ok (y_lo', y_hi') ->
  (i < n_test)%nat ->
  exists lo hi lo' hi',
    nth_error y_lo i = Some lo /\ nth_error y_hi i = Some hi /\
    nth_error y_lo' i = Some lo' /\ nth_error y_hi' i = Some hi' /\
    lo == lo' /\ hi == hi'.
Proof.
  intros Hne H H' Hperm Ha0 Ha1 Hcal Hcal' Hi.
  assert (Hne' : items' <> []).
  { intros ->. inversion H'; subst. apply Permutation_sym in Hperm.
    apply Permutation_nil in Hperm. subst. inversion H. congruence. }
  destruct (@calibrate_rows X self x n_test _ _ _ _ _ i Hne H Hcal Hi)
    as (t_lo & t_hi & Hqlo & Hnlo & Hqhi & Hnhi).
  destruct (@calibrate_rows X self x n_test _ _ _ _ _ i Hne' H' Hcal' Hi)
    as (t_lo' & t_hi' & Hqlo' & Hnlo' & Hqhi' & Hnhi').
  assert (Hq0 : 0 < 1 - alpha) by lra.
  assert (Hq1 : 1 - alpha <= 1) by lra.
  assert (Hcand : forall op,
            Permutation (candidate_bounds op folds i)
                        (candidate_bounds op folds' i)).
  { intros op. unfold candidate_bounds. now apply Permutation_flat_map. }
  pose proof (np_quantile_perm (Hcand Qplus) Hq0 Hq1 Hqhi Hqhi') as Hhi.
  pose proof (np_quantile_perm (Permutation_map (Qmult (-1)) (Hcand Qminus))
                Hq0 Hq1 Hqlo Hqlo') as Hlo.
  exists (-1 * t_lo), t_hi, (-1 * t_lo'), t_hi'.
  repeat split; try assumption. now rewrite Hlo.
Qed.

(** X24.  A smaller [alpha] never shrinks the CV+ interval.  For
    [0 <= alpha' <= alpha < 1], on the same folds, the bounds returned
    at [alpha'] enclose those returned at [alpha]. *)
Theorem calibrate_alpha_monotone (items : dict (predictor X))
    (folds : list fold) (alpha alpha' : Q) (y_lo y_hi y_lo' y_hi' : list Q)
    (i : nat) :
  items <> [] -> Forall2 fold_of items folds ->
  0 <= alpha' -> alpha' <= alpha -> alpha < 1 ->
  calibrate self x items alpha = Ok (y_lo, y_hi) ->
  calibrate self x items alpha' = Ok (y_lo', y_hi') ->
  (i < n_test)%nat ->
  exists lo hi lo' hi',
    nth_error y_lo i = Some lo /\ nth_error y_hi i = Some hi /\
    nth_error y_lo' i = Some lo' /\ nth_error y_hi' i = Some hi' /\
    lo' <= lo /\ hi <= hi'.
Proof.
  intros Hne H Ha0 Haa Ha1 Hcal Hcal' Hi.
  destruct (@calibrate_rows X self x n_test _ _ _ _ _ i Hne H Hcal Hi)
    as (t_lo & t_hi & Hqlo & Hnlo & Hqhi & Hnhi).
  destruct (@calibrate_rows X self x n_test _ _ _ _ _ i Hne H Hcal' Hi)
    as (t_lo' & t_hi' & Hqlo' & Hnlo' & Hqhi' & Hnhi').
  assert (Hq0 : 0 < 1 - alpha) by lra.
  assert (Hqq : 1 - alpha <= 1 - alpha') by lra.
  assert (Hq1 : 1 - alpha' <= 1) by lra.
  pose proof (@np_quantile_mono _ _ _ _ _ Hq0 Hqq Hq1 Hqhi Hqhi') as Hhi.
  pose proof (@np_quantile_mono _ _ _ _ _ Hq0 Hqq Hq1 Hqlo Hqlo') as Hlo.
  exists (-1 * t_lo), t_hi, (-1 * t_lo'), t_hi'.
  repeat split; try assumption. lra.
Qed.

End CvPlusInvariance.

Section CvPlusInvarianceWitness.
Import CvPlusCalibrator CvPlusSpec.

Lemma calibrate_fold_order_witness :
  let items' : dict (predictor unit) :=
    [(1%nat, fun _ => Some [10]); (0%nat, fun _ => Some [10])] in
  let folds' : list fold := [([10], [3; 4]); ([10], [1; 2])] in
  Scenario.kfold_predictors_dict <> [] /\
  Forall2 (CvPlusSpec.fold_of Scenario.self tt 1) items' folds' /\
  Permutation Scenario.folds folds' /\
  0 <= 1 # 2 /\ 1 # 2 < 1 /\
  calibrate Scenario.self tt Scenario.kfold_predictors_dict (1 # 2)
  = Ok ([8], [12]) /\
  calibrate Scenario.self tt items' (1 # 2) = Ok ([8], [12]) /\
  (0 < 1)%nat /\
  exists lo hi lo' hi',
    nth_error [8] 0 = Some lo /\ nth_error [12] 0 = Some hi /\
    nth_error [8] 0 = Some lo' /\ nth_error [12] 0 = Some hi' /\
    lo == lo' /\ hi == hi'.
Proof.
  cbv zeta.
  assert (H1 : Scenario.kfold_predictors_dict <> []) by discriminate.
  assert (H2 : Forall2 (CvPlusSpec.fold_of Scenario.self tt 1)
                 [(1%nat, fun _ : unit => Some [10]);
                  (0%nat, fun _ => Some [10])]
                 [([10], [3; 4]); ([10], [1; 2])])
    by (repeat constructor; simpl; eexists; split; reflexivity).
  assert (H3 : Permutation Scenario.folds [([10], [3; 4]); ([10], [1; 2])])
    by apply perm_swap.
  assert (H4 : 0 <= 1 # 2) by discriminate.
  assert (H5 : 1 # 2 < 1) by reflexivity.
  assert (H6 : calibrate Scenario.self tt Scenario.kfold_predictors_dict
                 (1 # 2) = Ok ([8], [12])) by (vm_compute; reflexivity).
  assert (H7 : calibrate Scenario.self tt
                 [(1%nat, fun _ : unit => Some [10]);
                  (0%nat, fun _ => Some [10])] (1 # 2)
               = Ok ([8], [12])) by (vm_compute; reflexivity).
  assert (H8 : (0 < 1)%nat) by lia.
  repeat (split; [assumption|]).
  exact (@calibrate_fold_order unit Scenario.self tt 1 _ _ _ _ _ _ _ _ _
           0%nat H1 scenario_folds H2 H3 H4 H5 H6 H7 H8).
Defined.

Lemma calibrate_alpha_monotone_witness :
  Scenario.kfold_predictors_dict <> [] /\
  0 <= 1 # 4 /\ 1 # 4 <= 1 # 2 /\ 1 # 2 < 1 /\
  calibrate Scenario.self tt Scenario.kfold_predictors_dict (1 # 2)
  = Ok ([8], [12]) /\
  calibrate Scenario.self tt Scenario.kfold_predictors_dict (1 # 4)
  = Ok ([7], [13]) /\
  (0 < 1)%nat /\
  exists lo hi lo' hi',
    nth_error [8] 0 = Some lo /\ nth_error [12] 0 = Some hi /\
    nth_error [7] 0 = Some lo' /\ nth_error [13] 0 = Some hi' /\
    lo' <= lo /\ hi <= hi'.
Proof.
  assert (H1 : Scenario.kfold_predictors_dict <> []) by discriminate.
  assert (H2 : 0 <= 1 # 4) by discriminate.
  assert (H3 : 1 # 4 <= 1 # 2) by discriminate.
  assert (H4 : 1 # 2 < 1) by reflexivity.
  assert (H5 : calibrate Scenario.self tt Scenario.kfold_predictors_dict
                 (1 # 2) = Ok ([8], [12])) by (vm_compute; reflexivity).
  assert (H6 : calibrate Scenario.self tt Scenario.kfold_predictors_dict
                 (1 # 4) = Ok ([7], [13])) by (vm_compute; reflexivity).
  assert (H7 : (0 < 1)%nat) by lia.
  repeat (split; [assumption|]).
  exact (@calibrate_alpha_monotone unit Scenario.self tt 1 _ _ _ _ _ _ _ _
           0%nat H1 scenario_folds H2 H3 H4 H5 H6 H7).
Defined.

End CvPlusInvarianceWitness.
